(** * PABLO ParaTree: a shallow embedding of [src/PABLO/ParaTree.cpp]

    The facade class [ParaTree] of bitpit's parallel linear octree is
    embedded as pure functions over an explicit state record.  Machine
    integers are [Z] with their wrap-around written out, vectors are lists
    read and written by index, [throw std::runtime_error] is an outcome
    that carries the state reached when the exception leaves the method.

    Layout:
    - machine arithmetic and vector helpers;
    - [Octant], [TreeConstants], [LocalTree]: the collaborators of the
      facade, whose classes are declared outside [ParaTree.cpp];
    - [ParaTree]: state, exceptions, setters, snapshot codec, partition
      registry, owner lookup, partition strategies, adapt and mapping;
    - the properties, grouped by topic. *)

From Stdlib Require Import ZArith List Lia Bool String Ascii QArith.
From Stdlib.Strings Require Import Byte.
From Stdlib Require Import Floats Uint63.
From stdpp Require Import base numbers list.

Open Scope Z_scope.
Import ListNotations.

(* ================================================================== *)
(** ** Machine arithmetic and vectors *)
(* ================================================================== *)

Module Mach.

(** Value kept by a conversion to an unsigned integer of [w] bits. *)
Definition wrap (w : Z) (x : Z) : Z := x mod 2 ^ w.

Definition u8 := wrap 8.
Definition u32 := wrap 32.
Definition u64 := wrap 64.

(** Value kept by a conversion to a signed integer of [w] bits
    (two's complement). *)
Definition swrap (w : Z) (x : Z) : Z :=
  let r := x mod 2 ^ w in
  if r <? 2 ^ (w - 1) then r else r - 2 ^ w.

Definition i8 := swrap 8.
Definition i32 := swrap 32.

Definition UINT64_MAX : Z := 2 ^ 64 - 1.
Definition UINT32_MAX : Z := 2 ^ 32 - 1.

(** [v[i]] on a [std::vector]; [None] stands for an access outside
    the vector, which the source never checks. *)
Definition at_ {A} (v : list A) (i : Z) : option A :=
  if i <? 0 then None else v !! Z.to_nat i.

(** [v[i] = x]; an index outside the vector leaves the list as it is
    (the source has undefined behaviour there; callers that must see the
    fault test the bound themselves). *)
Definition set_ {A} (v : list A) (i : Z) (x : A) : list A :=
  if i <? 0 then v else <[Z.to_nat i := x]> v.

(** [v.resize(n, x)]. *)
Definition resize_ {A} (n : Z) (x : A) (v : list A) : list A :=
  take (Z.to_nat n) v ++ replicate (Z.to_nat n - length v)%nat x.

Definition len {A} (v : list A) : Z := Z.of_nat (length v).

(** A read of a vector of integers; an access outside the vector (which
    the source leaves undefined) reads [0]. *)
Definition get0 (v : list Z) (i : Z) : Z := default 0 (at_ v i).

(** The indices [0 .. n-1] of a vector of size [n]. *)
Definition iota (n : nat) : list Z := map Z.of_nat (seq 0 n).

Definition sumZ (l : list Z) : Z := fold_right Z.add 0 l.

End Mach.

(* ================================================================== *)
(** ** Tree constants *)
(* ================================================================== *)

Module TreeConstants.

(** The dimension-indexed tables of [TreeConstants::instance(dim)].  The
    tables themselves live outside [ParaTree.cpp]; the facade only reads
    them, so they are a parameter of everything that uses them. *)
Record t := mk {
  nFaces : Z;
  nChildren : Z;
  maxLevel : Z;
  oppositeFace : list Z
}.

(** A table is well formed when the opposite-face map sends faces to
    faces and is an involution. *)
Definition wf (c : t) : Prop :=
  0 <= nFaces c /\
  Mach.len (oppositeFace c) = nFaces c /\
  (forall i j, Mach.at_ (oppositeFace c) i = Some j ->
     0 <= j < nFaces c /\ Mach.at_ (oppositeFace c) j = Some i).

(** Modelled from the spec: [2*dim] faces, [2^dim] children, the faces
    paired as (0,1), (2,3), (4,5), and the depth bound 20 the spec gives
    for sign-free arithmetic. *)
Definition standard (dim : Z) : t :=
  mk (2 * dim) (2 ^ dim) 20
     (if dim =? 2 then [1; 0; 3; 2] else [1; 0; 3; 2; 5; 4]).

End TreeConstants.

(* ================================================================== *)
(** ** Octants *)
(* ================================================================== *)

Module Octant.

(** Modelled from the spec: the class [Octant] is declared outside
    [ParaTree.cpp].  Its members follow the snapshot record of the spec
    (level, anchor, ghost layer, info bits, marker) and the flag list of
    the data model: six [bound] bits, six [pbound] bits, new-by-refine,
    new-by-coarsen, balance-enabled, aux. *)
Definition INFO_ITEM_COUNT : Z := 16.
Definition INFO_PBOUNDFACE0 : Z := 6.
Definition INFO_NEW4REFINEMENT : Z := 12.
Definition INFO_NEW4COARSENING : Z := 13.
Definition INFO_BALANCED : Z := 14.
Definition INFO_AUX : Z := 15.

Record t := mk {
  m_dim : Z;
  m_level : Z;
  m_x : Z;
  m_y : Z;
  m_z : Z;
  m_marker : Z;
  m_ghost : Z;
  m_info : list bool
}.

Definition set_m_info (v : list bool) (o : t) : t :=
  mk (m_dim o) (m_level o) (m_x o) (m_y o) (m_z o) (m_marker o) (m_ghost o) v.

Definition set_info (i : Z) (b : bool) (o : t) : t :=
  set_m_info (Mach.set_ (m_info o) i b) o.

Definition get_info (i : Z) (o : t) : bool :=
  default false (Mach.at_ (m_info o) i).

Definition setMarker (m : Z) (o : t) : t :=
  mk (m_dim o) (m_level o) (m_x o) (m_y o) (m_z o) m (m_ghost o) (m_info o).

Definition setGhostLayer (g : Z) (o : t) : t :=
  mk (m_dim o) (m_level o) (m_x o) (m_y o) (m_z o) (m_marker o) g (m_info o).

Definition setBalance (b : bool) (o : t) : t := set_info INFO_BALANCED b o.

Definition setPbound (face : Z) (b : bool) (o : t) : t :=
  set_info (INFO_PBOUNDFACE0 + face) b o.

Definition getMarker (o : t) : Z := m_marker o.
Definition getLevel (o : t) : Z := m_level o.
Definition getGhostLayer (o : t) : Z := m_ghost o.
Definition getBalance (o : t) : bool := get_info INFO_BALANCED o.
Definition getIsNewR (o : t) : bool := get_info INFO_NEW4REFINEMENT o.
Definition getIsNewC (o : t) : bool := get_info INFO_NEW4COARSENING o.

Definition getLogicalCoordinates (k : Z) (o : t) : Z :=
  if k =? 0 then m_x o else if k =? 1 then m_y o else m_z o.

(** [Octant(bound, dim, level, x, y, z)]: an octant of the given level
    and anchor, no marker, not a ghost, balance enabled. *)
Definition make (dim level x y z : Z) : t :=
  mk dim level x y z 0 (-1)
     (Mach.set_ (replicate (Z.to_nat INFO_ITEM_COUNT) false) INFO_BALANCED true).

(** The anchor and level of an octant: what identifies the cell. *)
Definition cell (o : t) : Z * (Z * Z * Z) := (m_level o, (m_x o, m_y o, m_z o)).

(** Modelled from the spec: [Octant::buildChildren] (4.2, [children()]).
    Child [k] has the anchor of its parent with the bit of the new level
    set per the bits of [k], one per axis; it carries new-by-refine, not
    new-by-coarsen, inherits the other bits, and takes the decremented
    marker of its parent (4.3, [refine_pass]). *)
Definition child (tc : TreeConstants.t) (k : Z) (o : t) : t :=
  let s := 2 ^ (TreeConstants.maxLevel tc - m_level o - 1) in
  mk (m_dim o) (m_level o + 1)
     (m_x o + Z.land k 1 * s)
     (m_y o + Z.land (Z.shiftr k 1) 1 * s)
     (m_z o + Z.land (Z.shiftr k 2) 1 * s)
     (m_marker o - 1) (m_ghost o)
     (Mach.set_ (Mach.set_ (m_info o) INFO_NEW4REFINEMENT true)
                INFO_NEW4COARSENING false).

Definition buildChildren (tc : TreeConstants.t) (o : t) : list t :=
  map (fun k => child tc k o) (Mach.iota (Z.to_nat (TreeConstants.nChildren tc))).

(** Anchor coordinate of the parent of a cell of level [level]. *)
Definition fatherCoord (tc : TreeConstants.t) (level x : Z) : Z :=
  x - x mod 2 ^ (TreeConstants.maxLevel tc - level + 1).

(** Modelled from the spec: [Octant::buildFather] (4.2,
    [family_parent()]; 4.3, [coarsen_pass]).  The parent cell, flagged
    new-by-coarsen, with the marker of the child moved one step towards
    zero. *)
Definition buildFather (tc : TreeConstants.t) (o : t) : t :=
  mk (m_dim o) (m_level o - 1)
     (fatherCoord tc (m_level o) (m_x o))
     (fatherCoord tc (m_level o) (m_y o))
     (fatherCoord tc (m_level o) (m_z o))
     (m_marker o + 1) (m_ghost o)
     (Mach.set_ (Mach.set_ (m_info o) INFO_NEW4REFINEMENT false)
                INFO_NEW4COARSENING true).

(** Modelled from the spec: [is_family_first_child()].  The octant is the
    zero corner of its family. *)
Definition isFirstChild (tc : TreeConstants.t) (o : t) : bool :=
  (0 <? m_level o) &&
  bool_decide (cell (buildFather tc o) = (m_level o - 1, (m_x o, m_y o, m_z o))).

(** Two octants of one family: same level, same parent cell. *)
Definition sibling (tc : TreeConstants.t) (a b : t) : bool :=
  bool_decide (cell (buildFather tc a) = cell (buildFather tc b)).

End Octant.

(* ================================================================== *)
(** ** The local tree *)
(* ================================================================== *)

Module LocalTree.

(** Modelled from the spec: the class [LocalTree] is declared outside
    [ParaTree.cpp].  The record holds the members the facade reads and
    writes: the owned octants, the ghosts, the ghost siblings recorded by
    the last coarsening, the first and last descendant of the local
    range, the local depth, the balance codimension, and the dimension
    and periodic faces handed over by the facade. *)
Record t := mk {
  m_octants : list Octant.t;
  m_ghosts : list Octant.t;
  m_firstGhostBros : list Z;
  m_lastGhostBros : list Z;
  m_firstDescMorton : Z;
  m_lastDescMorton : Z;
  m_localMaxDepth : Z;
  m_balanceCodim : Z;
  m_dim : Z;
  m_periodic : list bool
}.

Definition set_m_octants (v : list Octant.t) (s : t) : t :=
  mk v (m_ghosts s) (m_firstGhostBros s) (m_lastGhostBros s)
     (m_firstDescMorton s) (m_lastDescMorton s) (m_localMaxDepth s)
     (m_balanceCodim s) (m_dim s) (m_periodic s).
Definition set_m_ghosts (v : list Octant.t) (s : t) : t :=
  mk (m_octants s) v (m_firstGhostBros s) (m_lastGhostBros s)
     (m_firstDescMorton s) (m_lastDescMorton s) (m_localMaxDepth s)
     (m_balanceCodim s) (m_dim s) (m_periodic s).
Definition set_m_firstGhostBros (v : list Z) (s : t) : t :=
  mk (m_octants s) (m_ghosts s) v (m_lastGhostBros s)
     (m_firstDescMorton s) (m_lastDescMorton s) (m_localMaxDepth s)
     (m_balanceCodim s) (m_dim s) (m_periodic s).
Definition set_m_lastGhostBros (v : list Z) (s : t) : t :=
  mk (m_octants s) (m_ghosts s) (m_firstGhostBros s) v
     (m_firstDescMorton s) (m_lastDescMorton s) (m_localMaxDepth s)
     (m_balanceCodim s) (m_dim s) (m_periodic s).
Definition set_m_firstDescMorton (v : Z) (s : t) : t :=
  mk (m_octants s) (m_ghosts s) (m_firstGhostBros s)
     (m_lastGhostBros s) v (m_lastDescMorton s) (m_localMaxDepth s)
     (m_balanceCodim s) (m_dim s) (m_periodic s).
Definition set_m_lastDescMorton (v : Z) (s : t) : t :=
  mk (m_octants s) (m_ghosts s) (m_firstGhostBros s)
     (m_lastGhostBros s) (m_firstDescMorton s) v (m_localMaxDepth s)
     (m_balanceCodim s) (m_dim s) (m_periodic s).
Definition set_m_localMaxDepth (v : Z) (s : t) : t :=
  mk (m_octants s) (m_ghosts s) (m_firstGhostBros s)
     (m_lastGhostBros s) (m_firstDescMorton s) (m_lastDescMorton s) v
     (m_balanceCodim s) (m_dim s) (m_periodic s).
Definition set_m_balanceCodim (v : Z) (s : t) : t :=
  mk (m_octants s) (m_ghosts s) (m_firstGhostBros s)
     (m_lastGhostBros s) (m_firstDescMorton s) (m_lastDescMorton s)
     (m_localMaxDepth s) v (m_dim s) (m_periodic s).
Definition set_m_dim (v : Z) (s : t) : t :=
  mk (m_octants s) (m_ghosts s) (m_firstGhostBros s)
     (m_lastGhostBros s) (m_firstDescMorton s) (m_lastDescMorton s)
     (m_localMaxDepth s) (m_balanceCodim s) v (m_periodic s).
Definition set_m_periodic (v : list bool) (s : t) : t :=
  mk (m_octants s) (m_ghosts s) (m_firstGhostBros s)
     (m_lastGhostBros s) (m_firstDescMorton s) (m_lastDescMorton s)
     (m_localMaxDepth s) (m_balanceCodim s) (m_dim s) v.

Definition getNumOctants (s : t) : Z := Mach.u32 (Mach.len (m_octants s)).
Definition getFirstDescMorton (s : t) : Z := m_firstDescMorton s.
Definition getLastDescMorton (s : t) : Z := m_lastDescMorton s.
Definition getBalanceCodim (s : t) : Z := m_balanceCodim s.
Definition setBalanceCodim (b : Z) (s : t) : t := set_m_balanceCodim b s.
Definition setPeriodic (p : list bool) (s : t) : t := set_m_periodic p s.

(** [m_octants[idx].setMarker(marker)] and [m_octants[idx].setBalance(b)]. *)
Definition setMarker (idx marker : Z) (s : t) : t :=
  match Mach.at_ (m_octants s) idx with
  | Some o => set_m_octants (Mach.set_ (m_octants s) idx (Octant.setMarker marker o)) s
  | None => s
  end.

Definition setBalance (idx : Z) (b : bool) (s : t) : t :=
  match Mach.at_ (m_octants s) idx with
  | Some o => set_m_octants (Mach.set_ (m_octants s) idx (Octant.setBalance b o)) s
  | None => s
  end.

(** [initialize(dim)]: the tree takes the dimension; the balance goes
    back to faces only. *)
Definition initialize (dim : Z) (s : t) : t :=
  set_m_balanceCodim 1 (set_m_dim dim s).

(** The root octant of the initial construction: level 0 at the origin. *)
Definition root (dim : Z) : Octant.t := Octant.make dim 0 0 0 0.

(** [reset(createRoot)]: every container is emptied; with [createRoot]
    the tree holds the single root octant. *)
Definition reset (createRoot : bool) (s : t) : t :=
  mk (if createRoot then [root (m_dim s)] else []) [] [] []
     (m_firstDescMorton s) (m_lastDescMorton s)
     (if createRoot then 0 else -1)
     (m_balanceCodim s) (m_dim s) (m_periodic s).

(** [updateLocalMaxDepth()]: the deepest level among the owned octants,
    [-1] for an empty tree. *)
Definition updateLocalMaxDepth (s : t) : t :=
  set_m_localMaxDepth
    (fold_right Z.max (-1) (map Octant.getLevel (m_octants s))) s.

(** *** Refinement *)

(** Modelled from the spec: [LocalTree::refine] and [globalRefine] (4.3,
    [refine_pass]).  What one octant becomes in a pass: its children when
    its marker is positive and it is above the deepest level; itself
    otherwise, the marker silently clamped to zero at the deepest level. *)
Definition splits (tc : TreeConstants.t) (o : Octant.t) : bool :=
  (0 <? Octant.getMarker o) && (Octant.getLevel o <? TreeConstants.maxLevel tc).

Definition refineOctant (tc : TreeConstants.t) (o : Octant.t) : list Octant.t :=
  if splits tc o then Octant.buildChildren tc o
  else if 0 <? Octant.getMarker o then [Octant.setMarker 0 o] else [o].

(** The map index of every octant a pass produces is the one of the
    octant it comes from.  An empty map means that no map is kept. *)
Definition refineMap (tc : TreeConstants.t) (octs : list Octant.t) (mapidx : list Z)
  : list Z :=
  flat_map (fun p => replicate (length (refineOctant tc (fst p))) (snd p))
           (zip octs mapidx).

(** One pass.  The flag tells the facade's loop that a further pass is
    due: some child still carries a positive marker (the facade loops
    [while (m_octree.refine(m_mapIdx))], and one call of global refine
    yields one level). *)
Definition refine (tc : TreeConstants.t) (mapidx : list Z) (s : t)
  : bool * (t * list Z) :=
  let octs := m_octants s in
  let octs' := flat_map (refineOctant tc) octs in
  let more := existsb (fun o => splits tc o && (1 <? Octant.getMarker o)) octs in
  (more, (updateLocalMaxDepth (set_m_octants octs' s), refineMap tc octs mapidx)).

Definition globalRefine (tc : TreeConstants.t) (mapidx : list Z) (s : t)
  : bool * (t * list Z) :=
  refine tc mapidx (set_m_octants (map (Octant.setMarker 1) (m_octants s)) s).

(** *** Coarsening *)

(** Modelled from the spec: [LocalTree::coarse] and [globalCoarse] (4.3,
    [coarsen_pass]).  An octant asks to be coarsened when its marker is
    negative. *)
Definition wantsCoarse (o : Octant.t) : bool := Octant.getMarker o <? 0.

(** Indices of the ghosts that belong to the family of [o]. *)
Definition ghostBros (tc : TreeConstants.t) (o : Octant.t) (ghosts : list Octant.t)
  : list Z :=
  map fst (List.filter (fun p => Octant.sibling tc o (snd p))
                       (zip (Mach.iota (length ghosts)) ghosts)).

Definition contiguous (gs : list Z) : bool :=
  match gs with
  | [] => true
  | g :: _ => bool_decide (gs = map (fun k => g + k) (Mach.iota (length gs)))
  end.

Definition ghostsWantCoarse (ghosts : list Octant.t) (gs : list Z) : bool :=
  forallb (fun g => match Mach.at_ ghosts g with
                    | Some o => wantsCoarse o
                    | None => false
                    end) gs.

(** A complete family stands at the head of [l]: the zero child first,
    then its [2^dim - 1] siblings, all asking to be coarsened. *)
Definition familyAt (tc : TreeConstants.t) (l : list Octant.t) : bool :=
  let n := Z.to_nat (TreeConstants.nChildren tc) in
  match l with
  | [] => false
  | o :: _ =>
      Octant.isFirstChild tc o && (n <=? length l)%nat &&
      forallb (fun s => Octant.sibling tc o s && wantsCoarse s) (take n l)
  end.

(** The family at the end of the local range is completed by contiguous
    ghosts: the rank that owns the zero child takes the parent. *)
Definition trailingFamily (tc : TreeConstants.t) (ghosts l : list Octant.t) : bool :=
  let n := Z.to_nat (TreeConstants.nChildren tc) in
  match l with
  | [] => false
  | o :: _ =>
      let gs := ghostBros tc o ghosts in
      Octant.isFirstChild tc o && (length l <? n)%nat &&
      (length l + length gs =? n)%nat &&
      forallb (fun s => Octant.sibling tc o s && wantsCoarse s) l &&
      contiguous gs && ghostsWantCoarse ghosts gs
  end.

(** An octant that stays: a coarsening request that cannot be served is
    dropped. *)
Definition keepOctant (o : Octant.t) : Octant.t :=
  if wantsCoarse o then Octant.setMarker 0 o else o.

(** The scan over the owned octants.  [skip] counts the siblings still to
    be absorbed by the parent just emitted, [j] is the index of the head
    of [l] before the pass.  The result pairs every octant of the new
    list with the old index of the first octant it stands for, and gives
    the ghost siblings of the last family. *)
Fixpoint coarseScan (tc : TreeConstants.t) (ghosts : list Octant.t)
    (skip : nat) (j : Z) (l : list Octant.t) : list (Octant.t * Z) * list Z :=
  match l with
  | [] => ([], [])
  | o :: r =>
      match skip with
      | S k => coarseScan tc ghosts k (j + 1) r
      | O =>
          if familyAt tc l then
            let res := coarseScan tc ghosts
                         (Z.to_nat (TreeConstants.nChildren tc) - 1) (j + 1) r in
            ((Octant.buildFather tc o, j) :: fst res, snd res)
          else if trailingFamily tc ghosts l then
            ([(Octant.buildFather tc o, j)], ghostBros tc o ghosts)
          else
            let res := coarseScan tc ghosts 0 (j + 1) r in
            ((keepOctant o, j) :: fst res, snd res)
      end
  end.

Fixpoint prefixLength {A} (p : A -> bool) (l : list A) : nat :=
  match l with
  | [] => 0
  | x :: r => if p x then S (prefixLength p r) else 0
  end.

(** The first owned octants are the tail of a family whose zero child is
    a ghost of the preceding rank: that rank takes the parent, and the
    octants leave the local tree.  The result is their number and the
    ghost siblings. *)
Definition leadingAbsorbed (tc : TreeConstants.t) (ghosts l : list Octant.t)
  : nat * list Z :=
  let n := Z.to_nat (TreeConstants.nChildren tc) in
  match l with
  | [] => (0%nat, [])
  | o :: _ =>
      let gs := ghostBros tc o ghosts in
      let k := prefixLength (fun s => Octant.sibling tc o s && wantsCoarse s) l in
      if (0 <? Octant.getLevel o) && negb (Octant.isFirstChild tc o) &&
         (k + length gs =? n)%nat && contiguous gs && ghostsWantCoarse ghosts gs &&
         match gs with
         | g :: _ => match Mach.at_ ghosts g with
                     | Some go => Octant.isFirstChild tc go
                     | None => false
                     end
         | [] => false
         end
      then (k, gs) else (0%nat, [])
  end.

(** One pass.  The flag tells the facade's loop that a further pass is
    due: some new parent still carries a negative marker. *)
Definition coarse (tc : TreeConstants.t) (mapidx : list Z) (s : t)
  : bool * (t * list Z) :=
  let lead := leadingAbsorbed tc (m_ghosts s) (m_octants s) in
  let res := coarseScan tc (m_ghosts s) 0 (Z.of_nat (fst lead))
               (drop (fst lead) (m_octants s)) in
  let octs' := map fst (fst res) in
  let map' := match mapidx with
              | [] => []
              | _ => map (fun p => default 0 (Mach.at_ mapidx (snd p))) (fst res)
              end in
  let more := existsb wantsCoarse octs' in
  (more,
   (updateLocalMaxDepth
      (set_m_octants octs'
         (set_m_firstGhostBros (snd lead) (set_m_lastGhostBros (snd res) s))),
    map')).

Definition globalCoarse (tc : TreeConstants.t) (mapidx : list Z) (s : t)
  : bool * (t * list Z) :=
  coarse tc mapidx
    (set_m_ghosts (map (Octant.setMarker (-1)) (m_ghosts s))
       (set_m_octants (map (Octant.setMarker (-1)) (m_octants s)) s)).

End LocalTree.

(* ================================================================== *)
(** ** Methods that may throw *)
(* ================================================================== *)

Module Eff.

(** Every failure of the facade is a [std::runtime_error]; the string is
    its message.  [stream_failure] is the failure of a read past the end
    of a snapshot. *)
Inductive exn :=
| runtime_error (what : string)
| stream_failure.

(** The outcome of a method: it returns, or it leaves by an exception;
    either way the object is in the state the method brought it to. *)
Inductive outcome (S A : Type) :=
| Ok (a : A) (s : S)
| Throw (e : exn) (s : S).
Arguments Ok {S A} a s.
Arguments Throw {S A} e s.

Definition M (S A : Type) : Type := S -> outcome S A.

Definition ret {S A} (a : A) : M S A := fun s => Ok a s.
Definition bind {S A B} (m : M S A) (k : A -> M S B) : M S B :=
  fun s => match m s with
           | Ok a s' => k a s'
           | Throw e s' => Throw e s'
           end.
Definition throw {S A} (e : exn) : M S A := fun s => Throw e s.
Definition get {S} : M S S := fun s => Ok s s.
Definition modify {S} (f : S -> S) : M S unit := fun s => Ok tt (f s).

Definition state_of {S A} (r : outcome S A) : S :=
  match r with Ok _ s => s | Throw _ s => s end.

Definition raised {S A} (r : outcome S A) : option exn :=
  match r with Ok _ _ => None | Throw e _ => Some e end.


(** [for (i = 0; i < n; ++i) body(i)]. *)
Fixpoint for_ {S} (body : Z -> M S unit) (i : Z) (n : nat) : M S unit :=
  match n with
  | O => ret tt
  | S n' => bind (body i) (fun _ => for_ body (i + 1) n')
  end.

End Eff.

Declare Scope eff_scope.
Delimit Scope eff_scope with eff.
Notation "x <- c ;; k" := (Eff.bind c (fun x => k))
  (at level 100, c at next level, right associativity) : eff_scope.
Notation "c ;;; k" := (Eff.bind c (fun _ => k))
  (at level 100, right associativity) : eff_scope.

(* ================================================================== *)
(** ** The facade *)
(* ================================================================== *)

Module ParaTree.

Import Eff.
Local Open Scope eff_scope.

(** [ParaTree::Operation], the tag of the last operation. *)
Inductive Operation :=
| OP_INIT
| OP_PRE_ADAPT
| OP_ADAPT_MAPPED
| OP_ADAPT_UNMAPPED
| OP_LOADBALANCE_FIRST
| OP_LOADBALANCE.

#[global] Instance Operation_eq_dec : EqDecision Operation.
Proof. solve_decision. Defined.

(** The members of [ParaTree] that carry the state of the engine, in the
    order of the copy constructor.  The logger, the communicator handle,
    the coordinate map, the tolerance and the caches of iterators and
    exchange ranges are left out: no operation below reads them back. *)
Record t := mk {
  m_partitionFirstDesc : list Z;
  m_partitionLastDesc : list Z;
  m_partitionRangeGlobalIdx : list Z;
  m_partitionRangeGlobalIdx0 : list Z;
  m_globalNumOctants : Z;
  m_nproc : Z;
  m_rank : Z;
  m_maxDepth : Z;
  m_nofGhostLayers : Z;
  m_octree : LocalTree.t;
  m_mapIdx : list Z;
  m_serial : bool;
  m_dim : Z;
  m_periodic : list bool;
  m_status : Z;
  m_lastOp : Operation
}.

Definition set_m_partitionFirstDesc (v : list Z) (s : t) : t :=
  mk v (m_partitionLastDesc s) (m_partitionRangeGlobalIdx s)
     (m_partitionRangeGlobalIdx0 s) (m_globalNumOctants s) (m_nproc s)
     (m_rank s) (m_maxDepth s) (m_nofGhostLayers s) (m_octree s)
     (m_mapIdx s) (m_serial s) (m_dim s) (m_periodic s) (m_status s)
     (m_lastOp s).
Definition set_m_partitionLastDesc (v : list Z) (s : t) : t :=
  mk (m_partitionFirstDesc s) v (m_partitionRangeGlobalIdx s)
     (m_partitionRangeGlobalIdx0 s) (m_globalNumOctants s) (m_nproc s)
     (m_rank s) (m_maxDepth s) (m_nofGhostLayers s) (m_octree s)
     (m_mapIdx s) (m_serial s) (m_dim s) (m_periodic s) (m_status s)
     (m_lastOp s).
Definition set_m_partitionRangeGlobalIdx (v : list Z) (s : t) : t :=
  mk (m_partitionFirstDesc s) (m_partitionLastDesc s) v
     (m_partitionRangeGlobalIdx0 s) (m_globalNumOctants s) (m_nproc s)
     (m_rank s) (m_maxDepth s) (m_nofGhostLayers s) (m_octree s)
     (m_mapIdx s) (m_serial s) (m_dim s) (m_periodic s) (m_status s)
     (m_lastOp s).
Definition set_m_partitionRangeGlobalIdx0 (v : list Z) (s : t) : t :=
  mk (m_partitionFirstDesc s) (m_partitionLastDesc s)
     (m_partitionRangeGlobalIdx s) v (m_globalNumOctants s) (m_nproc s)
     (m_rank s) (m_maxDepth s) (m_nofGhostLayers s) (m_octree s)
     (m_mapIdx s) (m_serial s) (m_dim s) (m_periodic s) (m_status s)
     (m_lastOp s).
Definition set_m_globalNumOctants (v : Z) (s : t) : t :=
  mk (m_partitionFirstDesc s) (m_partitionLastDesc s)
     (m_partitionRangeGlobalIdx s) (m_partitionRangeGlobalIdx0 s) v
     (m_nproc s) (m_rank s) (m_maxDepth s) (m_nofGhostLayers s)
     (m_octree s) (m_mapIdx s) (m_serial s) (m_dim s) (m_periodic s)
     (m_status s) (m_lastOp s).
Definition set_m_nproc (v : Z) (s : t) : t :=
  mk (m_partitionFirstDesc s) (m_partitionLastDesc s)
     (m_partitionRangeGlobalIdx s) (m_partitionRangeGlobalIdx0 s)
     (m_globalNumOctants s) v (m_rank s) (m_maxDepth s)
     (m_nofGhostLayers s) (m_octree s) (m_mapIdx s) (m_serial s)
     (m_dim s) (m_periodic s) (m_status s) (m_lastOp s).
Definition set_m_rank (v : Z) (s : t) : t :=
  mk (m_partitionFirstDesc s) (m_partitionLastDesc s)
     (m_partitionRangeGlobalIdx s) (m_partitionRangeGlobalIdx0 s)
     (m_globalNumOctants s) (m_nproc s) v (m_maxDepth s)
     (m_nofGhostLayers s) (m_octree s) (m_mapIdx s) (m_serial s)
     (m_dim s) (m_periodic s) (m_status s) (m_lastOp s).
Definition set_m_maxDepth (v : Z) (s : t) : t :=
  mk (m_partitionFirstDesc s) (m_partitionLastDesc s)
     (m_partitionRangeGlobalIdx s) (m_partitionRangeGlobalIdx0 s)
     (m_globalNumOctants s) (m_nproc s) (m_rank s) v
     (m_nofGhostLayers s) (m_octree s) (m_mapIdx s) (m_serial s)
     (m_dim s) (m_periodic s) (m_status s) (m_lastOp s).
Definition set_m_nofGhostLayers (v : Z) (s : t) : t :=
  mk (m_partitionFirstDesc s) (m_partitionLastDesc s)
     (m_partitionRangeGlobalIdx s) (m_partitionRangeGlobalIdx0 s)
     (m_globalNumOctants s) (m_nproc s) (m_rank s) (m_maxDepth s) v
     (m_octree s) (m_mapIdx s) (m_serial s) (m_dim s) (m_periodic s)
     (m_status s) (m_lastOp s).
Definition set_m_octree (v : LocalTree.t) (s : t) : t :=
  mk (m_partitionFirstDesc s) (m_partitionLastDesc s)
     (m_partitionRangeGlobalIdx s) (m_partitionRangeGlobalIdx0 s)
     (m_globalNumOctants s) (m_nproc s) (m_rank s) (m_maxDepth s)
     (m_nofGhostLayers s) v (m_mapIdx s) (m_serial s) (m_dim s)
     (m_periodic s) (m_status s) (m_lastOp s).
Definition set_m_mapIdx (v : list Z) (s : t) : t :=
  mk (m_partitionFirstDesc s) (m_partitionLastDesc s)
     (m_partitionRangeGlobalIdx s) (m_partitionRangeGlobalIdx0 s)
     (m_globalNumOctants s) (m_nproc s) (m_rank s) (m_maxDepth s)
     (m_nofGhostLayers s) (m_octree s) v (m_serial s) (m_dim s)
     (m_periodic s) (m_status s) (m_lastOp s).
Definition set_m_serial (v : bool) (s : t) : t :=
  mk (m_partitionFirstDesc s) (m_partitionLastDesc s)
     (m_partitionRangeGlobalIdx s) (m_partitionRangeGlobalIdx0 s)
     (m_globalNumOctants s) (m_nproc s) (m_rank s) (m_maxDepth s)
     (m_nofGhostLayers s) (m_octree s) (m_mapIdx s) v (m_dim s)
     (m_periodic s) (m_status s) (m_lastOp s).
Definition set_m_dim (v : Z) (s : t) : t :=
  mk (m_partitionFirstDesc s) (m_partitionLastDesc s)
     (m_partitionRangeGlobalIdx s) (m_partitionRangeGlobalIdx0 s)
     (m_globalNumOctants s) (m_nproc s) (m_rank s) (m_maxDepth s)
     (m_nofGhostLayers s) (m_octree s) (m_mapIdx s) (m_serial s) v
     (m_periodic s) (m_status s) (m_lastOp s).
Definition set_m_periodic (v : list bool) (s : t) : t :=
  mk (m_partitionFirstDesc s) (m_partitionLastDesc s)
     (m_partitionRangeGlobalIdx s) (m_partitionRangeGlobalIdx0 s)
     (m_globalNumOctants s) (m_nproc s) (m_rank s) (m_maxDepth s)
     (m_nofGhostLayers s) (m_octree s) (m_mapIdx s) (m_serial s)
     (m_dim s) v (m_status s) (m_lastOp s).
Definition set_m_status (v : Z) (s : t) : t :=
  mk (m_partitionFirstDesc s) (m_partitionLastDesc s)
     (m_partitionRangeGlobalIdx s) (m_partitionRangeGlobalIdx0 s)
     (m_globalNumOctants s) (m_nproc s) (m_rank s) (m_maxDepth s)
     (m_nofGhostLayers s) (m_octree s) (m_mapIdx s) (m_serial s)
     (m_dim s) (m_periodic s) v (m_lastOp s).
Definition set_m_lastOp (v : Operation) (s : t) : t :=
  mk (m_partitionFirstDesc s) (m_partitionLastDesc s)
     (m_partitionRangeGlobalIdx s) (m_partitionRangeGlobalIdx0 s)
     (m_globalNumOctants s) (m_nproc s) (m_rank s) (m_maxDepth s)
     (m_nofGhostLayers s) (m_octree s) (m_mapIdx s) (m_serial s)
     (m_dim s) (m_periodic s) (m_status s) v.

(** Applies a change to the local tree held by the facade. *)
Definition on_octree (f : LocalTree.t -> LocalTree.t) (s : t) : t :=
  set_m_octree (f (m_octree s)) s.

(** *** Messages of the exceptions *)

Definition MSG_DIMENSION : string := "Invalid value for the dimension".
Definition MSG_VERSION : string :=
  "The version of the file does not match the required version".
Definition MSG_NPROCS : string :=
  "The restart was saved with a different number of processes.".
Definition MSG_LOCKED : string :=
  "It is not possible to update the tree until the adaption is completed".
Definition MSG_HALO_DISABLE : string := "It is not possible to disable the ghost halo!".
Definition MSG_HALO_MAX : string := "Halo size exceeds the maximum allowed value.".
Definition MSG_MAPPING : string := "Invalid value for input index in getMapping".

(** The taxonomy of the spec (section 7) over these messages. *)
Definition InvalidArgument (e : exn) : Prop :=
  e = runtime_error MSG_DIMENSION \/ e = runtime_error MSG_HALO_DISABLE \/
  e = runtime_error MSG_HALO_MAX \/ e = runtime_error MSG_MAPPING.
Definition SnapshotIncompatible (e : exn) : Prop := e = runtime_error MSG_VERSION.
Definition SnapshotRankMismatch (e : exn) : Prop := e = runtime_error MSG_NPROCS.
Definition SnapshotCorrupt (e : exn) : Prop := e = stream_failure.

(** *** What the facade takes from outside [ParaTree.cpp]

    The tables of constants, the 2:1 balancing of the markers (the local
    balance of [LocalTree] and the exchange of markers between the
    processes), the construction of the ghost halo, what the collective
    operations deliver from the other processes (the gathered counts and
    descendants, the reduced depth and flags), and the integer codes of
    [Operation] in a snapshot.  The balancing returns the markers of the
    owned octants and of the ghosts, the halo returns the partition-bound
    bits of the owned octants and the ghosts: these are the only parts of
    the tree that the two can change. *)
Record Env := mkEnv {
  treeConstants : Z -> TreeConstants.t;
  balancedMarkers : bool -> t -> list Z * list Z;
  haloPbound : t -> list (list bool);
  haloGhosts : t -> list Octant.t;
  gatherNumOctants : t -> list Z;
  reduceMaxDepth : t -> Z;
  gatherFirstDesc : t -> list Z;
  gatherLastDesc : t -> list Z;
  reduceOr : t -> bool -> bool;
  operationCode : Operation -> Z;
  operationOfCode : Z -> Operation
}.

(** [m_treeConstants], set by [setDim] together with [m_dim]. *)
Definition constants (E : Env) (s : t) : TreeConstants.t := treeConstants E (m_dim s).

(** *** Simple queries *)

Definition getDim (s : t) : Z := m_dim s.
Definition getGlobalNumOctants (s : t) : Z := m_globalNumOctants s.
Definition getSerial (s : t) : bool := m_serial s.
Definition getNproc (s : t) : Z := m_nproc s.
Definition getStatus (s : t) : Z := m_status s.
Definition getMaxDepth (s : t) : Z := m_maxDepth s.
Definition getNofGhostLayers (s : t) : Z := m_nofGhostLayers s.
Definition getNumOctants (s : t) : Z := LocalTree.getNumOctants (m_octree s).
Definition getBalanceCodimension (s : t) : Z := LocalTree.getBalanceCodim (m_octree s).

Definition getOctant (idx : Z) (s : t) : option Octant.t :=
  Mach.at_ (LocalTree.m_octants (m_octree s)) idx.
Definition getGhostOctant (idx : Z) (s : t) : option Octant.t :=
  Mach.at_ (LocalTree.m_ghosts (m_octree s)) idx.

Definition getMarker (idx : Z) (s : t) : option Z := Octant.getMarker <$> getOctant idx s.
Definition getBalance (idx : Z) (s : t) : option bool := Octant.getBalance <$> getOctant idx s.
Definition getIsNewR (idx : Z) (s : t) : bool :=
  default false (Octant.getIsNewR <$> getOctant idx s).
Definition getIsNewC (idx : Z) (s : t) : bool :=
  default false (Octant.getIsNewC <$> getOctant idx s).

(** [getPeriodic(i)]: [m_periodic[i]]. *)
Definition getPeriodic (i : Z) (s : t) : bool := default false (Mach.at_ (m_periodic s) i).

(** *** Initialization *)

Definition setDim (E : Env) (dim : Z) (s : t) : t :=
  if dim =? 0 then set_m_periodic [] (set_m_dim dim s)
  else set_m_periodic
         (Mach.resize_ (TreeConstants.nFaces (treeConstants E dim)) false (m_periodic s))
         (set_m_dim dim s).

Definition _initializePartitions (s : t) : t :=
  let n := Z.to_nat (m_nproc s) in
  let lastDescMorton := LocalTree.getLastDescMorton (m_octree s) in
  let firstDescMorton := LocalTree.getFirstDescMorton (m_octree s) in
  set_m_partitionFirstDesc (replicate n firstDescMorton)
    (set_m_partitionLastDesc (replicate n lastDescMorton)
       (set_m_partitionRangeGlobalIdx (replicate n (Mach.u64 (m_globalNumOctants s - 1)))
          (set_m_partitionRangeGlobalIdx0 (replicate n 0) s))).

Definition _initialize (E : Env) (dim : Z) (s : t) : t :=
  set_m_nofGhostLayers 1
    (set_m_globalNumOctants 0
       (setDim E dim (set_m_status 0 (set_m_serial true s)))).

Definition reinitialize (E : Env) (dim : Z) : M t unit :=
  if (dim <? 2) || (3 <? dim) then throw (runtime_error MSG_DIMENSION)
  else modify (fun s => _initializePartitions (_initialize E dim s)).

Definition reset (createRoot : bool) (s : t) : t :=
  let s1 := set_m_maxDepth (if createRoot then 0 else -1) (set_m_serial true s) in
  let s2 := on_octree (LocalTree.reset createRoot) s1 in
  let s3 := set_m_globalNumOctants (getNumOctants s2) s2 in
  let s4 := set_m_lastOp OP_INIT s3 in
  let s5 := set_m_periodic (map (fun _ => false) (m_periodic s4)) s4 in
  _initializePartitions s5.

(** *** Setters *)

(** [setPeriodic(i)]: the face and its opposite become periodic. *)
Definition setPeriodic (E : Env) (i : Z) (s : t) : t :=
  let p1 := Mach.set_ (m_periodic s) i true in
  let p2 := match Mach.at_ (TreeConstants.oppositeFace (constants E s)) i with
            | Some j => Mach.set_ p1 j true
            | None => p1
            end in
  on_octree (LocalTree.setPeriodic p2) (set_m_periodic p2 s).

Definition setMarker (idx marker : Z) : M t unit :=
  s <- get ;;
  if decide (m_lastOp s = OP_PRE_ADAPT) then throw (runtime_error MSG_LOCKED)
  else modify (on_octree (LocalTree.setMarker idx marker)).

Definition setBalance (idx : Z) (balance : bool) : M t unit :=
  s <- get ;;
  if decide (m_lastOp s = OP_PRE_ADAPT) then throw (runtime_error MSG_LOCKED)
  else modify (on_octree (LocalTree.setBalance idx balance)).

Definition setBalanceCodimension (b21codim : Z) : M t unit :=
  s <- get ;;
  if decide (m_lastOp s = OP_PRE_ADAPT) then throw (runtime_error MSG_LOCKED)
  else modify (on_octree (LocalTree.setBalanceCodim b21codim)).

(** A pointer to an octant held by the tree: an owned one or a ghost. *)
Inductive OctantPtr :=
| Owned (idx : Z)
| Ghost (idx : Z).

Definition at_ptr (f : Octant.t -> Octant.t) (p : OctantPtr) (lt : LocalTree.t)
  : LocalTree.t :=
  match p with
  | Owned idx =>
      match Mach.at_ (LocalTree.m_octants lt) idx with
      | Some o => LocalTree.set_m_octants (Mach.set_ (LocalTree.m_octants lt) idx (f o)) lt
      | None => lt
      end
  | Ghost idx =>
      match Mach.at_ (LocalTree.m_ghosts lt) idx with
      | Some o => LocalTree.set_m_ghosts (Mach.set_ (LocalTree.m_ghosts lt) idx (f o)) lt
      | None => lt
      end
  end.

(** The pointer-based overloads, [setMarker(oct, marker)] and
    [setBalance(oct, balance)]. *)
Definition setMarkerPtr (oct : OctantPtr) (marker : Z) : M t unit :=
  s <- get ;;
  if decide (m_lastOp s = OP_PRE_ADAPT) then throw (runtime_error MSG_LOCKED)
  else modify (on_octree (at_ptr (Octant.setMarker marker) oct)).

Definition setBalancePtr (oct : OctantPtr) (balance : bool) : M t unit :=
  s <- get ;;
  if decide (m_lastOp s = OP_PRE_ADAPT) then throw (runtime_error MSG_LOCKED)
  else modify (on_octree (at_ptr (Octant.setBalance balance) oct)).

(** The largest halo width: one more than the largest value of the type
    of a ghost layer, which is [int]. *)
Definition maxNofGhostLayers : Z := 2 ^ 31.

Definition setNofGhostLayers (nofGhostLayers : Z) : M t unit :=
  s <- get ;;
  if m_nofGhostLayers s =? 0 then throw (runtime_error MSG_HALO_DISABLE)
  else if maxNofGhostLayers <? nofGhostLayers then throw (runtime_error MSG_HALO_MAX)
  else modify (set_m_nofGhostLayers nofGhostLayers).

(** *** Partition registry *)

(** [updateGlobalLasttDescMorton]: the gathered last descendants, with
    every empty partition taking the value of the partition before it. *)
Definition fixLastDesc (R : list Z) (L : list Z) (p : Z) : list Z :=
  if Mach.get0 R p =? Mach.get0 R (p - 1) then Mach.set_ L p (Mach.get0 L (p - 1))
  else L.

Definition fillLastDesc (nproc : Z) (R gathered : list Z) : list Z :=
  fold_left (fixLastDesc R) (map Z.of_nat (seq 1 (Z.to_nat nproc - 1))) gathered.

(** [updateGlobalFirstDescMorton]: the gathered first descendants, with
    an empty last partition set to the largest key and every other empty
    partition (rank 0 apart) taking the value of the partition after it. *)
Definition fixFirstDesc (R : list Z) (F : list Z) (p : Z) : list Z :=
  if Mach.get0 R p =? Mach.get0 R (p - 1) then Mach.set_ F p (Mach.get0 F (p + 1))
  else F.

Definition fillFirstDesc (nproc : Z) (R gathered : list Z) : list Z :=
  let pp := nproc - 1 in
  let F0 := if Mach.get0 R pp =? Mach.get0 R (pp - 1)
            then Mach.set_ gathered pp Mach.UINT64_MAX else gathered in
  fold_left (fixFirstDesc R) (rev (map Z.of_nat (seq 1 (Z.to_nat pp - 1)))) F0.

(** The partition [p] is empty: it ends where the one before it ends. *)
Definition emptyPartition (R : list Z) (p : Z) : bool :=
  (0 <? p) && (Mach.get0 R p =? Mach.get0 R (p - 1)).

Definition updateGlobalFirstDescMorton (E : Env) (s : t) : t :=
  let R := m_partitionRangeGlobalIdx s in
  let F := fillFirstDesc (m_nproc s) R (gatherFirstDesc E s) in
  let s' := set_m_partitionFirstDesc F s in
  if emptyPartition R (m_rank s)
  then on_octree (LocalTree.set_m_firstDescMorton (Mach.get0 F (m_rank s))) s'
  else s'.

Definition updateGlobalLasttDescMorton (E : Env) (s : t) : t :=
  let R := m_partitionRangeGlobalIdx s in
  let L := fillLastDesc (m_nproc s) R (gatherLastDesc E s) in
  let s' := set_m_partitionLastDesc L s in
  if emptyPartition R (m_rank s)
  then on_octree (LocalTree.set_m_lastDescMorton (Mach.get0 L (m_rank s))) s'
  else s'.

(** *** Owner lookup *)

(** The bisection of [findOwner]; [fuel] bounds the iterations of its
    [while (beg != end)]. *)
Fixpoint bisect (fuel : nat) (L : list Z) (morton beg end_ seed : Z) : option Z :=
  if beg =? end_ then Some beg
  else match fuel with
       | O => None
       | S f =>
           if morton <=? Mach.get0 L seed then
             let beg' := if Mach.get0 L (seed - 1) <? morton then seed else beg in
             bisect f L morton beg' seed (beg' + Z.quot (seed - beg') 2)
           else
             let beg' := if morton <=? Mach.get0 L (seed + 1) then seed + 1 else seed in
             bisect f L morton beg' end_ (beg' + Z.quot (end_ - beg') 2)
       end.

(** The walk back through equal entries. *)
Fixpoint walkBack (L : list Z) (beg : nat) : nat :=
  match beg with
  | O => O
  | S b => if Mach.get0 L (Z.of_nat (S b)) =? Mach.get0 L (Z.of_nat b)
           then walkBack L b else S b
  end.

Definition findOwner (fuel : nat) (morton : Z) (s : t) : option Z :=
  let L := m_partitionLastDesc s in
  let nproc := m_nproc s in
  if morton <=? Mach.get0 L 0 then Some 0
  else if Mach.get0 L (nproc - 1) <? morton then Some (-1)
  else match bisect fuel L morton 0 (nproc - 1) (Z.quot nproc 2) with
       | Some beg => Some (Z.of_nat (walkBack L (Z.to_nat beg)))
       | None => None
       end.

(** *** Mapping *)

(** [getMapping(idx, mapper, isghost)]: the old indices a new octant
    comes from, and whether each of them was a ghost. *)
Definition getMapping (E : Env) (idx : Z) : M t (list Z * list bool) :=
  s <- get ;;
  if Mach.len (m_mapIdx s) <=? idx then throw (runtime_error MSG_MAPPING)
  else
    let m := Mach.get0 (m_mapIdx s) idx in
    if getIsNewC idx s then
      let nChildren := TreeConstants.nChildren (constants E s) in
      let bros := LocalTree.m_lastGhostBros (m_octree s) in
      let nInternalChildren :=
        if idx =? Mach.u32 (getNumOctants s - 1)
        then nChildren - Mach.len bros else nChildren in
      ret (map (fun i => Mach.u32 (m + i)) (Mach.iota (Z.to_nat nInternalChildren))
             ++ map (fun i => Mach.get0 bros i)
                    (Mach.iota (Z.to_nat (nChildren - nInternalChildren))),
           replicate (Z.to_nat nInternalChildren) false
             ++ replicate (Z.to_nat (nChildren - nInternalChildren)) true)
    else ret ([m], [false]).

(** *** Balancing and halo *)

Definition applyMarkers (ms : list Z) (octs : list Octant.t) : list Octant.t :=
  imap (fun i o => match ms !! i with
                   | Some m => Octant.setMarker m o
                   | None => o
                   end) octs.

(** [balance21]: the markers of the owned octants and of the ghosts are
    replaced by the balanced ones. *)
Definition balance21 (E : Env) (verbose balanceNewOctants : bool) (s : t) : t :=
  let bm := balancedMarkers E balanceNewOctants s in
  on_octree (fun lt =>
    LocalTree.set_m_ghosts (applyMarkers (snd bm) (LocalTree.m_ghosts lt))
      (LocalTree.set_m_octants (applyMarkers (fst bm) (LocalTree.m_octants lt)) lt)) s.

Definition applyPbound (bits : list bool) (o : Octant.t) : Octant.t :=
  fold_left (fun o' p => Octant.setPbound (fst p) (snd p) o')
            (zip (Mach.iota (length bits)) bits) o.

(** [computeGhostHalo]: the partition-bound bits of the owned octants are
    set and the ghosts are rebuilt. *)
Definition computeGhostHalo (E : Env) (s : t) : t :=
  let pb := haloPbound E s in
  on_octree (fun lt =>
    LocalTree.set_m_ghosts (haloGhosts E s)
      (LocalTree.set_m_octants
         (imap (fun i o => match pb !! i with
                           | Some bits => applyPbound bits o
                           | None => o
                           end) (LocalTree.m_octants lt)) lt)) s.

(** *** Adapt *)

(** [settleMarkers] and [preadapt]. *)
Definition settleMarkers (E : Env) (s : t) : t := balance21 E true false s.

Definition preadapt (E : Env) (s : t) : t :=
  set_m_lastOp OP_PRE_ADAPT (balance21 E true false s).

(** [updateAdapt]: the registry after a change of the local counts. *)
Definition prefixCounts (rbuff : list Z) : list Z :=
  map (fun p => Mach.u64 (Mach.sumZ (take (S p) rbuff) - 1)) (seq 0 (length rbuff)).

Definition updateAdapt (E : Env) (s : t) : t :=
  let s0 := set_m_partitionRangeGlobalIdx0 (m_partitionRangeGlobalIdx s) s in
  if m_serial s then
    let s1 := set_m_maxDepth (LocalTree.m_localMaxDepth (m_octree s0)) s0 in
    let s2 := set_m_globalNumOctants (getNumOctants s1) s1 in
    set_m_partitionRangeGlobalIdx
      (replicate (Z.to_nat (m_nproc s2)) (Mach.u64 (m_globalNumOctants s2 - 1))) s2
  else
    let rbuff := gatherNumOctants E s0 in
    let s1 := set_m_maxDepth (reduceMaxDepth E s0) s0 in
    let s2 := set_m_globalNumOctants (Mach.u64 (Mach.sumZ rbuff)) s1 in
    set_m_partitionRangeGlobalIdx (prefixCounts rbuff) s2.

Definition updateAfterCoarse (E : Env) (s : t) : t :=
  let s1 := updateAdapt E s in
  if m_serial s1 then s1
  else updateGlobalLasttDescMorton E (updateGlobalFirstDescMorton E s1).

(** [while (body())]: [None] when [fuel] passes do not reach the end. *)
Fixpoint loop (fuel : nat) (body : t -> bool * t) (s : t) : option t :=
  match fuel with
  | O => None
  | S f => let r := body s in
           if fst r then loop f body (snd r) else Some (snd r)
  end.

Definition lift_pass (pass : TreeConstants.t -> list Z -> LocalTree.t ->
                             bool * (LocalTree.t * list Z))
    (E : Env) (s : t) : bool * t :=
  let r := pass (constants E s) (m_mapIdx s) (m_octree s) in
  (fst r, set_m_mapIdx (snd (snd r)) (set_m_octree (fst (snd r)) s)).

Definition refinePass := lift_pass LocalTree.refine.
Definition coarsePass := lift_pass LocalTree.coarse.
Definition globalRefinePass := lift_pass LocalTree.globalRefine.
Definition globalCoarsePass := lift_pass LocalTree.globalCoarse.

Definition clearNew (o : Octant.t) : Octant.t :=
  Octant.set_info Octant.INFO_NEW4COARSENING false
    (Octant.set_info Octant.INFO_NEW4REFINEMENT false o).

(** The start of every adapt: the new-octant flags are cleared and the
    map is the identity, or empty when no map is kept. *)
Definition startAdapt (keepMap : bool) (s : t) : t :=
  let nocts0 := getNumOctants s in
  set_m_mapIdx (if keepMap then Mach.iota (Z.to_nat nocts0) else [])
    (on_octree (fun lt =>
       LocalTree.set_m_octants (map clearNew (LocalTree.m_octants lt)) lt) s).

Definition adaptOperation (mapflag : bool) : Operation :=
  if mapflag then OP_ADAPT_MAPPED else OP_ADAPT_UNMAPPED.

Definition bindO {A B} (o : option A) (k : A -> option B) : option B :=
  match o with Some a => k a | None => None end.

(** [private_adapt_mapidx]. *)
Definition private_adapt_mapidx (E : Env) (fuel : nat) (mapflag : bool) (s : t)
  : option (bool * t) :=
  let nocts0 := getNumOctants s in
  let s1 := startAdapt mapflag s in
  let s2 := if decide (m_lastOp s1 = OP_PRE_ADAPT) then s1 else balance21 E true false s1 in
  bindO (loop fuel (refinePass E) s2) (fun s3 =>
  let refined := nocts0 <? getNumOctants s3 in
  let s4 := updateAdapt E s3 in
  let s5 := if m_serial s then s4 else computeGhostHalo E s4 in
  let nocts1 := getNumOctants s5 in
  bindO (loop fuel (coarsePass E) s5) (fun s6 =>
  let s7 := updateAfterCoarse E s6 in
  let s8 := if m_serial s then s7 else computeGhostHalo E s7 in
  let localDone := refined || (getNumOctants s8 <? nocts1) in
  let globalDone := if m_serial s then localDone else reduceOr E s8 localDone in
  Some (globalDone, set_m_lastOp (adaptOperation mapflag) s8))).

Definition adapt (E : Env) (fuel : nat) (mapper_flag : bool) (s : t)
  : option (bool * t) :=
  bindO (private_adapt_mapidx E fuel mapper_flag s) (fun r =>
  Some (fst r, set_m_status (Mach.u64 (m_status (snd r) + Z.b2z (fst r))) (snd r))).

(** [adaptGlobalRefine]. *)
Definition adaptGlobalRefine (E : Env) (fuel : nat) (mapper_flag : bool) (s : t)
  : option (bool * t) :=
  let nocts0 := getNumOctants s in
  let s1 := startAdapt true s in
  bindO (loop fuel (globalRefinePass E) s1) (fun s2 =>
  let localDone := nocts0 <? getNumOctants s2 in
  let s3 := updateAdapt E s2 in
  let s4 := if m_serial s then s3 else computeGhostHalo E s3 in
  let globalDone := if m_serial s then localDone else reduceOr E s4 localDone in
  Some (globalDone, set_m_lastOp (adaptOperation mapper_flag) s4)).

(** [adaptGlobalCoarse]; the tag of the last operation is not touched. *)
Definition adaptGlobalCoarse (E : Env) (fuel : nat) (mapper_flag : bool) (s : t)
  : option (bool * t) :=
  let nocts0 := getNumOctants s in
  let s1 := startAdapt mapper_flag s in
  let s2 := balance21 E true false s1 in
  bindO (loop fuel (globalCoarsePass E) s2) (fun s3 =>
  let s4 := updateAfterCoarse E s3 in
  let s5 := if m_serial s then s4 else computeGhostHalo E s4 in
  let s6 := balance21 E false true s5 in
  bindO (loop fuel (refinePass E) s6) (fun s7 =>
  let s8 := updateAdapt E s7 in
  let s9 := if m_serial s then s8 else computeGhostHalo E s8 in
  let localDone := getNumOctants s9 <? nocts0 in
  let globalDone := if m_serial s then localDone else reduceOr E s9 localDone in
  Some (globalDone, s9))).

(** *** Snapshot codec *)

(** Bytes of a stream and little-endian integers. *)
Definition byteZ (b : Byte.byte) : Z := Z.of_N (Byte.to_N b).
Definition zbyte (z : Z) : Byte.byte :=
  default Byte.x00 (Byte.of_N (Z.to_N (z mod 256))).

Fixpoint le_decode (bs : list Byte.byte) : Z :=
  match bs with
  | [] => 0
  | b :: r => byteZ b + 256 * le_decode r
  end.

Fixpoint le_encode (n : nat) (z : Z) : list Byte.byte :=
  match n with
  | O => []
  | S k => zbyte z :: le_encode k (z / 256)
  end.

(** Modelled from the spec: [utils::binary::write] is declared outside
    [ParaTree.cpp]; the values are written at their fixed width, lowest
    byte first (6, snapshot format). *)
Definition write_u8 (x : Z) : list Byte.byte := le_encode 1 (Mach.u8 x).
Definition write_i8 (x : Z) : list Byte.byte := le_encode 1 (Mach.u8 x).
Definition write_bool (b : bool) : list Byte.byte := le_encode 1 (Z.b2z b).
Definition write_u32 (x : Z) : list Byte.byte := le_encode 4 (Mach.u32 x).
Definition write_i32 (x : Z) : list Byte.byte := le_encode 4 (Mach.u32 x).
Definition write_u64 (x : Z) : list Byte.byte := le_encode 8 (Mach.u64 x).

Definition getDumpVersion : Z := 1.

Definition dumpOctant (o : Octant.t) : list Byte.byte :=
  write_u8 (Octant.getLevel o)
  ++ write_u32 (Octant.getLogicalCoordinates 0 o)
  ++ write_u32 (Octant.getLogicalCoordinates 1 o)
  ++ write_u32 (Octant.getLogicalCoordinates 2 o)
  ++ write_i32 (Octant.getGhostLayer o)
  ++ flat_map (fun k => write_bool (Octant.get_info k o))
              (Mach.iota (Z.to_nat Octant.INFO_ITEM_COUNT))
  ++ write_bool (Octant.getBalance o)
  ++ write_i8 (Octant.getMarker o).

Definition dumpVector (v : list Z) (n : Z) : list Byte.byte :=
  flat_map (fun k => write_u64 (Mach.get0 v k)) (Mach.iota (Z.to_nat n)).

(** [dump(stream, full)]: the bytes written to the stream. *)
Definition dump (E : Env) (full : bool) (s : t) : list Byte.byte :=
  let bros := LocalTree.m_lastGhostBros (m_octree s) in
  write_i32 getDumpVersion
  ++ write_i32 (getNproc s)
  ++ write_u8 (getDim s)
  ++ write_bool (getSerial s)
  ++ write_u64 (getNofGhostLayers s)
  ++ write_i8 (getMaxDepth s)
  ++ write_u64 (getStatus s)
  ++ write_u8 (getBalanceCodimension s)
  ++ flat_map (fun i => write_bool (getPeriodic i s))
              (Mach.iota (Z.to_nat (TreeConstants.nFaces (constants E s))))
  ++ write_u32 (getNumOctants s)
  ++ write_u32 (getGlobalNumOctants s)
  ++ flat_map dumpOctant
       (take (Z.to_nat (getNumOctants s)) (LocalTree.m_octants (m_octree s)))
  ++ dumpVector (m_partitionFirstDesc s) (m_nproc s)
  ++ dumpVector (m_partitionLastDesc s) (m_nproc s)
  ++ dumpVector (m_partitionRangeGlobalIdx s) (m_nproc s)
  ++ write_bool full
  ++ (if full then
        write_i32 (operationCode E (m_lastOp s))
        ++ (if decide (m_lastOp s = OP_ADAPT_MAPPED) then
              flat_map write_u32 (m_mapIdx s)
              ++ write_u64 (Mach.len bros)
              ++ flat_map write_u32 bros
            else if decide (m_lastOp s = OP_LOADBALANCE \/ m_lastOp s = OP_LOADBALANCE_FIRST)
            then dumpVector (m_partitionRangeGlobalIdx0 s) (m_nproc s)
            else [])
      else []).

(** The state of a restore: what is left of the stream, and the tree. *)
Definition Reader : Type := list Byte.byte * t.

(** Modelled from the spec: [utils::binary::read] is declared outside
    [ParaTree.cpp]; a read past the end of the stream is the failure the
    spec calls [SnapshotCorrupt] (truncated stream). *)
Definition read (n : nat) : M Reader (list Byte.byte) :=
  fun r => if (length (fst r) <? n)%nat then Throw stream_failure r
           else Ok (take n (fst r)) (drop n (fst r), snd r).

Definition read_u8 : M Reader Z := bs <- read 1 ;; ret (le_decode bs).
Definition read_i8 : M Reader Z := bs <- read 1 ;; ret (Mach.i8 (le_decode bs)).
Definition read_bool : M Reader bool := bs <- read 1 ;; ret (negb (le_decode bs =? 0)).
Definition read_u32 : M Reader Z := bs <- read 4 ;; ret (le_decode bs).
Definition read_i32 : M Reader Z := bs <- read 4 ;; ret (Mach.i32 (le_decode bs)).
Definition read_u64 : M Reader Z := bs <- read 8 ;; ret (le_decode bs).

(** A method of the tree run on the tree of the reader. *)
Definition onTree {A} (m : M t A) : M Reader A :=
  fun r => match m (snd r) with
           | Ok a s => Ok a (fst r, s)
           | Throw e s => Throw e (fst r, s)
           end.

Definition tree : M Reader t := fun r => Ok (snd r) r.

(** [n] values read one after the other. *)
Fixpoint readMany {A} (rd : M Reader A) (n : nat) : M Reader (list A) :=
  match n with
  | O => ret []
  | S k => x <- rd ;; xs <- readMany rd k ;; ret (x :: xs)
  end.

Definition readOctant (dim : Z) : M Reader Octant.t :=
  level <- read_u8 ;;
  x <- read_u32 ;;
  y <- read_u32 ;;
  z <- read_u32 ;;
  ghost <- read_i32 ;;
  bits <- readMany read_bool (Z.to_nat Octant.INFO_ITEM_COUNT) ;;
  balance21 <- read_bool ;;
  marker <- read_i8 ;;
  ret (Octant.setMarker marker
         (Octant.setBalance balance21
            (Octant.set_m_info bits
               (Octant.setGhostLayer ghost (Octant.make dim level x y z))))).

Definition readPeriodic (E : Env) (i : Z) : M Reader unit :=
  periodicBorder <- read_bool ;;
  if periodicBorder then onTree (modify (setPeriodic E i)) else ret tt.

Definition isLoadBalance (op : Operation) : bool :=
  bool_decide (op = OP_LOADBALANCE \/ op = OP_LOADBALANCE_FIRST).

(** The extended part of a snapshot. *)
Definition restoreFull (E : Env) : M Reader unit :=
  code <- read_i32 ;;
  onTree (modify (set_m_lastOp (operationOfCode E code))) ;;;
  s <- tree ;;
  if decide (m_lastOp s = OP_ADAPT_MAPPED) then
    idx <- readMany read_u32 (length (LocalTree.m_octants (m_octree s))) ;;
    onTree (modify (set_m_mapIdx idx)) ;;;
    lastGhostBrosSize <- read_u64 ;;
    bros <- readMany read_u32 (Z.to_nat lastGhostBrosSize) ;;
    onTree (modify (on_octree (LocalTree.set_m_lastGhostBros bros)))
  else if isLoadBalance (m_lastOp s) then
    idx0 <- readMany read_u64 (Z.to_nat (m_nproc s)) ;;
    onTree (modify (set_m_partitionRangeGlobalIdx0 idx0))
  else ret tt.

(** What [restore] does once the header has been accepted. *)
Definition restoreBody (E : Env) (dimension : Z) : M Reader unit :=
  onTree (modify (on_octree (LocalTree.initialize dimension))) ;;;
  onTree (reinitialize E dimension) ;;;
  onTree (modify (reset false)) ;;;
  serial <- read_bool ;;
  onTree (modify (set_m_serial serial)) ;;;
  nofGhostLayers <- read_u64 ;;
  onTree (modify (set_m_nofGhostLayers nofGhostLayers)) ;;;
  maxDepth <- read_i8 ;;
  onTree (modify (set_m_maxDepth maxDepth)) ;;;
  status <- read_u64 ;;
  onTree (modify (set_m_status status)) ;;;
  balanceCodimension <- read_bool ;;
  onTree (setBalanceCodimension (Z.b2z balanceCodimension)) ;;;
  s <- tree ;;
  for_ (readPeriodic E) 0 (Z.to_nat (TreeConstants.nFaces (constants E s))) ;;;
  nOctants <- read_u32 ;;
  nGlobalOctants <- read_u32 ;;
  onTree (modify (set_m_globalNumOctants nGlobalOctants)) ;;;
  octants <- readMany (readOctant (m_dim s)) (Z.to_nat nOctants) ;;
  onTree (modify (on_octree (fun lt =>
    LocalTree.updateLocalMaxDepth (LocalTree.set_m_octants octants lt)))) ;;;
  firstDesc <- readMany read_u64 (Z.to_nat (m_nproc s)) ;;
  onTree (modify (fun s' =>
    on_octree (LocalTree.set_m_firstDescMorton (Mach.get0 firstDesc (m_rank s')))
      (set_m_partitionFirstDesc firstDesc s'))) ;;;
  lastDesc <- readMany read_u64 (Z.to_nat (m_nproc s)) ;;
  onTree (modify (fun s' =>
    on_octree (LocalTree.set_m_lastDescMorton (Mach.get0 lastDesc (m_rank s')))
      (set_m_partitionLastDesc lastDesc s'))) ;;;
  rangeGlobalIdx <- readMany read_u64 (Z.to_nat (m_nproc s)) ;;
  onTree (modify (set_m_partitionRangeGlobalIdx rangeGlobalIdx)) ;;;
  onTree (modify (fun s' => if m_serial s' then s' else computeGhostHalo E s')) ;;;
  onTree (modify (fun s' =>
    set_m_partitionRangeGlobalIdx0 (replicate (Z.to_nat (m_nproc s')) 0)
      (set_m_mapIdx [] s'))) ;;;
  full <- read_bool ;;
  if full then restoreFull E
  else onTree (modify (set_m_lastOp OP_INIT)).

(** [restore(stream)]. *)
Definition restoreReader (E : Env) : M Reader unit :=
  version <- read_i32 ;;
  if negb (version =? getDumpVersion) then throw (runtime_error MSG_VERSION)
  else
    nProcs <- read_i32 ;;
    s <- tree ;;
    if negb (nProcs =? m_nproc s) then throw (runtime_error MSG_NPROCS)
    else
      dimension <- read_u8 ;;
      restoreBody E dimension.

Definition restore (E : Env) (stream : list Byte.byte) (s : t) : outcome t unit :=
  match restoreReader E (stream, s) with
  | Ok a r => Ok a (snd r)
  | Throw e r => Throw e (snd r)
  end.


(** *** Partition strategies *)

(** [computePartition(partition)]: the uniform distribution. *)
Definition computePartition (s : t) : list Z :=
  let division_result := Mach.u32 (m_globalNumOctants s / m_nproc s) in
  let remind := Mach.u32 (m_globalNumOctants s mod m_nproc s) in
  map (fun i => if i <? remind then Mach.u32 (division_result + 1) else division_result)
      (Mach.iota (Z.to_nat (Mach.u32 (m_nproc s)))).

(** [computePartition(weight, partition)]: the weighted
    distribution.  The arithmetic of the weights ([double] in the source)
    is a parameter: zero, sum, division by a number of processes, and the
    strict comparison. *)
Section Weighted.

Context {W : Type}.
Variable wzero : W.
Variable wadd : W -> W -> W.
Variable wdiv : W -> Z -> W.
Variable wlt : W -> W -> bool.

(** The weights every process works on: its own when the tree is serial,
    the gathering of the local weights of all the processes otherwise. *)
Definition globalWeights (serial : bool) (weight : list W)
    (allWeights : list (list W)) (counts : list Z) : list W :=
  if serial then weight
  else concat (zip_with (fun w n => take (Z.to_nat n) w) allWeights counts).

(** [unassignedWeight]: the sum of the weights not yet assigned, added
    from the first to the last. *)
Definition unassignedWeight (ws : list W) : W := fold_left wadd ws wzero.

(** The inner loop: octants are added while the weight of the partition
    is below the target and an octant is left; the result is their
    number. *)
Fixpoint fillPartition (targetWeight partitionWeight : W) (ws : list W) : nat :=
  match ws with
  | [] => O
  | w :: r =>
      if wlt partitionWeight targetWeight
      then S (fillPartition targetWeight (wadd partitionWeight w) r)
      else O
  end.

(** The outer loop over the ranks [i .. nproc-2]; [ws] are the weights of
    the octants not yet assigned.  The result is the counts of these
    ranks and the number of octants they take. *)
Fixpoint sweep (ranks : nat) (nproc i : Z) (ws : list W) : list Z * Z :=
  match ranks with
  | O => ([], 0)
  | S k =>
      let targetWeight := wdiv (unassignedWeight ws) (nproc - i) in
      let c := fillPartition targetWeight wzero ws in
      match drop c ws with
      | [] => (Mach.u32 (Z.of_nat c) :: replicate k 0, Z.of_nat c)
      | ws' => let r := sweep k nproc (i + 1) ws' in
               (Mach.u32 (Z.of_nat c) :: fst r, Z.of_nat c + snd r)
      end
  end.

Definition computePartition_weight (gw : list W) (s : t) : list Z :=
  let N := m_globalNumOctants s in
  let r := sweep (Z.to_nat (m_nproc s - 1)) (m_nproc s) 0 (take (Z.to_nat N) gw) in
  fst r ++ [Mach.u32 (N - Mach.u32 (snd r))].

End Weighted.

(** The weights as exact rationals. *)
Definition Qlt_bool (a b : Q) : bool := negb (Qle_bool b a).
Definition Qdiv_int (a : Q) (k : Z) : Q := Qdiv a (inject_Z k).
Definition computePartition_Q : list Q -> t -> list Z :=
  computePartition_weight (0%Q) Qplus Qdiv_int Qlt_bool.

(** The weights as the source has them: IEEE 754 binary64. *)
Definition double_div_int (a : float) (k : Z) : float :=
  PrimFloat.div a (PrimFloat.of_uint63 (Uint63.of_Z k)).
Definition computePartition_double : list float -> t -> list Z :=
  computePartition_weight PrimFloat.zero PrimFloat.add double_div_int PrimFloat.ltb.

(** *** Family-compact partition

    [computePartition(level_, weight, partition)] corrects a
    tentative partition.  Every process computes the correction of the
    boundaries that fall among its own octants; the corrections are then
    broadcast.  The function below takes the states of all the processes
    (the n-th element is rank n) and gives the partition a rank ends
    with; [None] stands for a read outside a vector. *)

Definition familyLevel (E : Env) (level_ : Z) (s : t) : Z :=
  Mach.u8 (Z.min (Z.max (m_maxDepth s - level_) 1)
                 (TreeConstants.maxLevel (constants E s))).

Definition familySize (E : Env) (level_ : Z) (s : t) : Z :=
  Mach.u32 (2 ^ (TreeConstants.maxLevel (constants E s) - familyLevel E level_ s)).

(** [rest]: zero when the octant starts a family block. *)
Definition restOf (Dh dim : Z) (o : Octant.t) : Z :=
  Mach.u32 (Octant.getLogicalCoordinates 0 o mod Dh
            + Octant.getLogicalCoordinates 1 o mod Dh
            + (if dim =? 3 then Octant.getLogicalCoordinates 2 o mod Dh else 0)).

Definition aligned (Dh dim : Z) (o : Octant.t) : bool := restOf Dh dim o =? 0.

(** [while (sum > m_partitionRangeGlobalIdx[j]) j++]. *)
Fixpoint advanceOwner (Rtail : list Z) (sum j : Z) : option Z :=
  match Rtail with
  | [] => None
  | r :: tl => if r <? sum then advanceOwner tl sum (j + 1) else Some j
  end.

(** [new_boundary_owner]: for every boundary, the running sum of the
    tentative counts and the process that holds the octant it falls on
    (stored in eight bits). *)
Fixpoint boundaryOwners (R : list Z) (temp : list Z) (sum j : Z)
  : option (list (Z * Z)) :=
  match temp with
  | [] => Some []
  | c :: tl =>
      let sum' := Mach.u64 (sum + c) in
      match advanceOwner (drop (Z.to_nat j) R) sum' j with
      | None => None
      | Some j' =>
          match boundaryOwners R tl sum' j' with
          | None => None
          | Some r => Some ((sum', Mach.u8 j') :: r)
          end
      end
  end.

Fixpoint firstAligned (ok : Octant.t -> bool) (l : list Octant.t) : option nat :=
  match l with
  | [] => None
  | o :: r => if ok o then Some O else S <$> firstAligned ok r
  end.

(** The correction of one boundary, computed by the process that owns it:
    the distance to the next aligned octant forwards or backwards (the
    local count when none is found) and the signed displacement. *)
Definition forwardCorrection (ok : Octant.t -> bool) (octs : list Octant.t)
    (istart : Z) : Z :=
  match firstAligned ok (drop (Z.to_nat istart) octs) with
  | Some k => Z.of_nat k
  | None => Mach.u32 (Mach.len octs)
  end.

Definition backwardCorrection (ok : Octant.t -> bool) (octs : list Octant.t)
    (istart : Z) : Z :=
  match firstAligned ok (rev (take (S (Z.to_nat istart)) octs)) with
  | Some k => Z.of_nat k
  | None => Mach.u32 (Mach.len octs)
  end.

Definition localDeplace (E : Env) (level_ : Z) (s : t) (sum : Z) : option Z :=
  let octs := LocalTree.m_octants (m_octree s) in
  let istart := if m_rank s =? 0 then Mach.u32 sum
                else Mach.u32 (sum - Mach.get0 (m_partitionRangeGlobalIdx s) (m_rank s - 1) - 1) in
  let ok := aligned (familySize E level_ s) (m_dim s) in
  match Mach.at_ octs istart with
  | None => None
  | Some _ =>
      let forw := forwardCorrection ok octs istart in
      let backw := backwardCorrection ok octs istart in
      Some (if forw <? backw then Mach.i32 forw else Mach.i32 (- Mach.i32 backw))
  end.

(** What one process holds before the communication: its [deplace]
    array, the number of boundaries it owns and the first of them. *)
Fixpoint localDeplaces (E : Env) (level_ : Z) (s : t) (owners : list (Z * Z))
  : option (list Z) :=
  match owners with
  | [] => Some []
  | (sum, j) :: tl =>
      match localDeplaces E level_ s tl with
      | None => None
      | Some r =>
          if j =? m_rank s then
            match localDeplace E level_ s sum with
            | None => None
            | Some d => Some (d :: r)
            end
          else Some (1 :: r)
      end
  end.

Definition ownedCount (s : t) (owners : list (Z * Z)) : Z :=
  Mach.u8 (Mach.len (List.filter (fun p => snd p =? m_rank s) owners)).

Definition firstOwned (s : t) (owners : list (Z * Z)) : Z :=
  let k := LocalTree.prefixLength (fun p => negb (snd p =? m_rank s)) owners in
  if (k <? length owners)%nat then Mach.u8 (Z.of_nat k) else 0.

(** [MPI_Bcast] of the corrections owned by [root]. *)
Definition bcastStep (firsts counts : list Z) (arrays : list (list Z)) (root : Z)
  : list (list Z) :=
  let src := default [] (Mach.at_ arrays root) in
  let f := Z.to_nat (Mach.get0 firsts root) in
  let seg := take (Z.to_nat (Mach.get0 counts root)) (drop f src) in
  map (fun a => take f a ++ seg ++ drop (f + length seg) a) arrays.

(** The last loop: every count moves by the displacement of its own
    boundary and by the one of the boundary before it. *)
Definition applyDeplace (temp deplace : list Z) : list Z :=
  let n := length temp in
  map (fun iproc =>
         let p0 := if (S iproc <? n)%nat
                   then Mach.u32 (Mach.get0 temp (Z.of_nat iproc)
                                  + Mach.get0 deplace (Z.of_nat iproc))
                   else Mach.get0 temp (Z.of_nat iproc) in
         match iproc with
         | O => p0
         | S k => Mach.u32 (p0 - Mach.get0 deplace (Z.of_nat k))
         end)
      (seq 0 n).

Definition familyCorrection (E : Env) (level_ : Z) (temp : list Z)
    (world : list t) (rank : Z) : option (list Z) :=
  match Mach.at_ world rank with
  | None => None
  | Some me =>
      let nproc := m_nproc me in
      match boundaryOwners (m_partitionRangeGlobalIdx me)
              (take (Z.to_nat (nproc - 1)) temp) 0 0 with
      | None => None
      | Some owners =>
          match mapM (fun s => localDeplaces E level_ s owners) world with
          | None => None
          | Some arrays =>
              let counts := map (fun s => ownedCount s owners) world in
              let firsts := map (fun s => firstOwned s owners) world in
              let final := fold_left (bcastStep firsts counts)
                             (Mach.iota (Z.to_nat nproc)) arrays in
              Some (applyDeplace temp (default [] (Mach.at_ final rank)))
          end
      end
  end.

(** The family-compact partition over uniform counts ([weight == NULL]). *)
Definition computePartition_level (E : Env) (level_ : Z) (world : list t) (rank : Z)
  : option (list Z) :=
  match Mach.at_ world rank with
  | None => None
  | Some me => familyCorrection E level_ (computePartition me) world rank
  end.

(** The family-compact partition over weighted counts. *)
Definition computePartition_level_weight {W : Type} (wzero : W) (wadd : W -> W -> W)
    (wdiv : W -> Z -> W) (wlt : W -> W -> bool) (E : Env) (level_ : Z)
    (gw : list W) (world : list t) (rank : Z) : option (list Z) :=
  match Mach.at_ world rank with
  | None => None
  | Some me =>
      familyCorrection E level_ (computePartition_weight wzero wadd wdiv wlt gw me)
        world rank
  end.

(** [updateLoadBalance]: the registry after the exchange of the octants;
    [rbuff] are the gathered local counts. *)
Definition updateLoadBalance (E : Env) (s : t) : t :=
  let s0 := on_octree LocalTree.updateLocalMaxDepth s in
  let rbuff := gatherNumOctants E s0 in
  let s1 := set_m_partitionRangeGlobalIdx0 (m_partitionRangeGlobalIdx s0) s0 in
  let s2 := set_m_partitionRangeGlobalIdx (prefixCounts rbuff) s1 in
  let s3 := set_m_serial false s2 in
  updateGlobalLasttDescMorton E (updateGlobalFirstDescMorton E s3).

(** *** Global and local indices *)

(** [getGlobalIdx(idx)]: [idx + 1] is a 32-bit sum, widened afterwards. *)
Definition getGlobalIdx (idx : Z) (s : t) : Z :=
  if m_rank s =? 0 then idx
  else Mach.u64 (Mach.get0 (m_partitionRangeGlobalIdx s) (m_rank s - 1)
                 + Mach.u32 (idx + 1)).

(** [getLocalIdx(gidx, rank)]: a 64-bit difference, narrowed to 32 bits. *)
Definition getLocalIdx (gidx rank : Z) (s : t) : Z :=
  if rank =? 0 then Mach.u32 gidx
  else Mach.u32 (Mach.u64 (gidx - 1 - Mach.get0 (m_partitionRangeGlobalIdx s) (rank - 1))).

(** [getLocalIdx(gidx)]: the same on the rank of the process. *)
Definition getLocalIdxHere (gidx : Z) (s : t) : Z := getLocalIdx gidx (m_rank s) s.

(** [isInternal(gidx)]. *)
Definition isInternal (gidx : Z) (s : t) : bool :=
  if Mach.get0 (m_partitionRangeGlobalIdx s) (m_rank s) <? gidx then false
  else if negb (m_rank s =? 0)
          && (gidx <=? Mach.get0 (m_partitionRangeGlobalIdx s) (m_rank s - 1))
       then false
       else true.

(** [std::lower_bound] over a vector, as the library implements it: the
    range [first, first + len) is halved until it is empty. *)
Fixpoint lower_bound (fuel : nat) (v : list Z) (first len val : Z) : Z :=
  match fuel with
  | O => first
  | S f =>
      if 0 <? len then
        let half := Z.shiftr len 1 in
        let middle := first + half in
        if Mach.get0 v middle <? val
        then lower_bound f v (middle + 1) (len - half - 1) val
        else lower_bound f v first half val
      else first
  end.

(** [getOwnerRank(globalIndex)]. *)
Definition getOwnerRank (globalIndex : Z) (s : t) : Z :=
  let R := m_partitionRangeGlobalIdx s in
  let rankItr := lower_bound (length R) R 0 (Mach.len R) globalIndex in
  if rankItr =? Mach.len R then -1 else Mach.i32 rankItr.

(** [getLocalIdx(gidx, lidx, rank)]: the rank that owns the index and the
    local index there. *)
Definition getLocalIdxRank (gidx : Z) (s : t) : Z * Z :=
  let rank := getOwnerRank gidx s in
  (getLocalIdx gidx rank s, rank).

(** The search of [getMapping(idx, mapper, isghost, rank)] over the
    registry before the load balance: the first process whose range ends
    at or after [gidx]. *)
Fixpoint firstRangeFrom (R0 : list Z) (gidx iproc : Z) (n : nat) : option Z :=
  match n with
  | O => None
  | S k => if gidx <=? Mach.get0 R0 iproc then Some iproc
           else firstRangeFrom R0 gidx (iproc + 1) k
  end.

(** [getMapping(idx, mapper, isghost, rank)]; the three vectors are given
    as the caller holds them and returned as the call leaves them. *)
Definition getMappingRank (E : Env) (idx : Z)
    (mapper : list Z) (isghost : list bool) (rank : list Z)
  : M t (list Z * list bool * list Z) :=
  s <- get ;;
  if decide (m_lastOp s = OP_ADAPT_MAPPED) then
    r <- getMapping E idx ;;
    ret (fst r, snd r, replicate (length (snd r)) (m_rank s))
  else if bool_decide (m_lastOp s = OP_LOADBALANCE \/ m_lastOp s = OP_LOADBALANCE_FIRST) then
    let gidx := getGlobalIdx idx s in
    let R0 := m_partitionRangeGlobalIdx0 s in
    let mapper1 := Mach.set_ (Mach.resize_ 1 0 mapper) 0 (Mach.u32 gidx) in
    let isghost1 := Mach.resize_ 1 false isghost in
    let rank1 := Mach.resize_ 1 0 rank in
    match firstRangeFrom R0 gidx 0 (Z.to_nat (m_nproc s)) with
    | Some iproc =>
        let m := if 0 <? iproc
                 then Mach.u32 (Mach.u64 (Mach.u32 gidx
                                          - Mach.u64 (Mach.get0 R0 (iproc - 1) + 1)))
                 else Mach.u32 gidx in
        ret (Mach.set_ mapper1 0 m,
             Mach.set_ isghost1 0 false,
             Mach.set_ rank1 0 (if decide (m_lastOp s = OP_LOADBALANCE_FIRST)
                                then m_rank s else iproc))
    | None => ret (mapper1, isghost1, rank1)
    end
  else ret (mapper, isghost, rank).

(** *** Markers before an adapt *)

Definition MSG_PREMARKER : string :=
  "Last operation different from preadapt, unable to call getPreMarker function".

(** [getPreMarker(idx)]. *)
Definition getPreMarker (idx : Z) : M t Z :=
  s <- get ;;
  if negb (bool_decide (m_lastOp s = OP_PRE_ADAPT)) then throw (runtime_error MSG_PREMARKER)
  else ret (default 0 (getMarker idx s)).

Definition ghostMarker (s : t) (id : Z) : Z :=
  default 0 (Octant.getMarker <$> getGhostOctant id s).

(** [getPreMapping(idx, markers, isghost)]: the ghost siblings before the
    first owned octant, the owned octants whose marker is not zero, the
    ghost siblings after the last one. *)
Definition getPreMapping : M t (list Z * list Z * list bool) :=
  s <- get ;;
  if negb (bool_decide (m_lastOp s = OP_PRE_ADAPT)) then throw (runtime_error MSG_PREMARKER)
  else
    let firstG := LocalTree.m_firstGhostBros (m_octree s) in
    let lastG := LocalTree.m_lastGhostBros (m_octree s) in
    let owned :=
      List.filter (fun p => negb (Octant.getMarker (snd p) =? 0))
        (zip (Mach.iota (Z.to_nat (getNumOctants s)))
             (LocalTree.m_octants (m_octree s))) in
    ret (firstG ++ map fst owned ++ lastG,
         map (ghostMarker s) firstG ++ map (fun p => Octant.getMarker (snd p)) owned
           ++ map (ghostMarker s) lastG,
         map (fun _ => true) firstG ++ map (fun _ => false) owned
           ++ map (fun _ => true) lastG).

(** [checkToAdapt()]. *)
Definition checkToAdapt (E : Env) (s : t) : bool :=
  let lcheck := existsb (fun o => negb (Octant.getMarker o =? 0))
                        (LocalTree.m_octants (m_octree s)) in
  if m_nproc s =? 1 then lcheck else reduceOr E s lcheck.


(** *** Ranges exchanged by a load balance *)

(** [std::upper_bound] over a vector, as the library implements it: the
    first position of [first, first + len) whose entry is above [val]. *)
Fixpoint upper_bound (fuel : nat) (v : list Z) (first len val : Z) : Z :=
  match fuel with
  | O => first
  | S f =>
      if 0 <? len then
        let half := Z.shiftr len 1 in
        let middle := first + half in
        if val <? Mach.get0 v middle
        then upper_bound f v first half val
        else upper_bound f v (middle + 1) (len - half - 1) val
      else first
  end.

(** The offsets of a partition schema, [m_nproc + 1] sums of 64 bits:
    [offsets[0] = 0] and [offsets[i + 1] = offsets[i] + partition[i]]. *)
Fixpoint offsetsFrom (acc : Z) (counts : list Z) : list Z :=
  acc :: match counts with
         | [] => []
         | c :: r => offsetsFrom (Mach.u64 (acc + c)) r
         end.

Definition partitionOffsets (nproc : Z) (partition : list Z) : list Z :=
  offsetsFrom 0 (map (Mach.get0 partition) (Mach.iota (Z.to_nat nproc))).

(** [PartitionIntersections] and [ExchangeRanges] map a rank to a range
    [begin, end); a map is kept as the list of its entries, in the order
    in which the loops below insert them. *)
Definition RankRanges : Type := list (Z * (Z * Z)).

(** The loop of [evalPartitionIntersections] from the rank [rank_B] on,
    with [n] positions left before the end of the offsets. *)
Fixpoint intersectFrom (n : nat) (offsets_B : list Z) (beginA endA rank_B : Z)
  : RankRanges :=
  match n with
  | O => []
  | S k =>
      let beginB := Mach.get0 offsets_B rank_B in
      let endB := Mach.get0 offsets_B (rank_B + 1) in
      let entry := (rank_B, (Z.max beginA beginB, Z.min endA endB)) in
      if endA <=? endB then [entry]
      else entry :: intersectFrom k offsets_B beginA endA (rank_B + 1)
  end.

(** [evalPartitionIntersections(partition_A, rank_A, partition_B)]; the
    range of schema A is the one of [m_rank], whatever [rank_A] is. *)
Definition evalPartitionIntersections (partition_A : list Z) (rank_A : Z)
    (partition_B : list Z) (s : t) : RankRanges :=
  if Mach.get0 partition_A rank_A =? 0 then []
  else
    let offsets_A := partitionOffsets (m_nproc s) partition_A in
    let offsets_B := partitionOffsets (m_nproc s) partition_B in
    let beginGlobalId_A := Mach.get0 offsets_A (m_rank s) in
    let endGlobalId_A := Mach.get0 offsets_A (m_rank s + 1) in
    let firstRank :=
      upper_bound (length offsets_B) offsets_B 0 (Mach.len offsets_B) beginGlobalId_A - 1 in
    intersectFrom (Z.to_nat (Mach.len offsets_B - firstRank)) offsets_B
                  beginGlobalId_A endGlobalId_A firstRank.

(** The current partition schema: the counts the registry gives, or, on a
    serial tree, the local count for the process itself and zero for the
    others. *)
Definition currentPartition (s : t) : list Z :=
  let R := m_partitionRangeGlobalIdx s in
  if negb (m_serial s) then
    map (fun i => if i =? 0 then Mach.u32 (Mach.get0 R 0 + 1)
                  else Mach.u32 (Mach.get0 R i - Mach.get0 R (i - 1)))
        (Mach.iota (Z.to_nat (m_nproc s)))
  else Mach.set_ (replicate (Z.to_nat (m_nproc s)) 0) (m_rank s) (getNumOctants s).

(** The 64-bit sum of the counts of the ranks below [rank]. *)
Definition offsetOf (partition : list Z) (rank : Z) : Z :=
  Mach.u64 (Mach.sumZ (map (Mach.get0 partition) (Mach.iota (Z.to_nat rank)))).

(** The intersections with the other ranks, in local 32-bit indices. *)
Definition exchangeRanges (offset rank : Z) (intersections : RankRanges) : RankRanges :=
  map (fun e => (fst e, (Mach.u32 (fst (snd e) - offset), Mach.u32 (snd (snd e) - offset))))
      (List.filter (fun e => negb (fst e =? rank)) intersections).

(** [evalLoadBalanceSendRanges(updatedPartition)]. *)
Definition evalLoadBalanceSendRanges (updatedPartition : list Z) (s : t) : RankRanges :=
  if m_nproc s =? 1 then []
  else
    let current := currentPartition s in
    exchangeRanges (offsetOf current (m_rank s)) (m_rank s)
      (evalPartitionIntersections current (m_rank s) updatedPartition s).

(** [evalLoadBalanceRecvRanges(updatedPartition)]. *)
Definition evalLoadBalanceRecvRanges (updatedPartition : list Z) (s : t) : RankRanges :=
  if m_nproc s =? 1 then []
  else
    let current := currentPartition s in
    exchangeRanges (offsetOf updatedPartition (m_rank s)) (m_rank s)
      (evalPartitionIntersections updatedPartition (m_rank s) current s).

Inductive ExchangeAction :=
| ACTION_UNDEFINED
| ACTION_NONE
| ACTION_SEND
| ACTION_DELETE
| ACTION_RECEIVE.

Record LoadBalanceRanges := mkLoadBalanceRanges {
  sendAction : ExchangeAction;
  recvAction : ExchangeAction;
  sendRanges : RankRanges;
  recvRanges : RankRanges
}.

(** [evalLoadBalanceRanges(updatedPartition)]: a serial tree deletes what
    a partitioned tree sends, and receives nothing. *)
Definition evalLoadBalanceRanges (updatedPartition : list Z) (s : t) : LoadBalanceRanges :=
  if m_nproc s =? 1 then mkLoadBalanceRanges ACTION_NONE ACTION_NONE [] []
  else
    let send := evalLoadBalanceSendRanges updatedPartition s in
    let recv := evalLoadBalanceRecvRanges updatedPartition s in
    if m_serial s then mkLoadBalanceRanges ACTION_DELETE ACTION_NONE send recv
    else mkLoadBalanceRanges ACTION_SEND ACTION_RECEIVE send recv.

(** [evalLoadBalanceRanges(weights)] without weights: the ranges of the
    uniform partition. *)
Definition evalLoadBalanceRangesUniform (s : t) : LoadBalanceRanges :=
  if m_nproc s =? 1 then mkLoadBalanceRanges ACTION_NONE ACTION_NONE [] []
  else evalLoadBalanceRanges (computePartition s) s.

(** [getLocalMaxSize()].  [getSize(idx)] maps the logical size of an
    octant through [m_trans], which lies outside this file: the sizes,
    their zero and their order [>] are parameters.  The loop keeps the
    size read last in [octSize] and the largest size so far in [size];
    the function returns [octSize]. *)
Definition getLocalMaxSize {D : Type} (zero : D) (gt : D -> D -> bool)
    (getSize : Z -> t -> D) (s : t) : D :=
  let nocts := getNumOctants s in
  fst (fold_left
         (fun (acc : D * D) (idx : Z) =>
            let octSize := getSize idx s in
            (octSize, if gt octSize (snd acc) then octSize else snd acc))
         (Mach.iota (Z.to_nat nocts)) (zero, zero)).
End ParaTree.

(* ================================================================== *)
(** * Properties *)
(* ================================================================== *)

(** ** Vectors *)

Lemma at_Some_bounds {A} (v : list A) i x :
  Mach.at_ v i = Some x -> 0 <= i < Mach.len v.
Proof.
  unfold Mach.at_, Mach.len. destruct (Z.ltb_spec i 0); [discriminate|].
  intros Hx%lookup_lt_Some. lia.
Qed.

Lemma at_in_range {A} (v : list A) i :
  0 <= i < Mach.len v -> exists x, Mach.at_ v i = Some x.
Proof.
  unfold Mach.at_, Mach.len. intros [H0 H1].
  destruct (Z.ltb_spec i 0); [lia|].
  destruct (lookup_lt_is_Some_2 v (Z.to_nat i)) as [x Hx]; [lia|eauto].
Qed.

Lemma at_set_eq {A} (v : list A) i x :
  0 <= i < Mach.len v -> Mach.at_ (Mach.set_ v i x) i = Some x.
Proof.
  unfold Mach.at_, Mach.set_, Mach.len. intros [H0 H1].
  destruct (Z.ltb_spec i 0); [lia|].
  apply list_lookup_insert_eq. lia.
Qed.

Lemma at_set_ne {A} (v : list A) i j x :
  i <> j -> Mach.at_ (Mach.set_ v i x) j = Mach.at_ v j.
Proof.
  unfold Mach.at_, Mach.set_. intros Hne.
  destruct (Z.ltb_spec j 0); [reflexivity|].
  destruct (Z.ltb_spec i 0); [reflexivity|].
  apply list_lookup_insert_ne. lia.
Qed.

Lemma len_set {A} (v : list A) i x : Mach.len (Mach.set_ v i x) = Mach.len v.
Proof.
  unfold Mach.len, Mach.set_. destruct (i <? 0); [reflexivity|].
  by rewrite length_insert.
Qed.

Lemma at_nat {A} (v : list A) (n : nat) : Mach.at_ v (Z.of_nat n) = v !! n.
Proof.
  unfold Mach.at_. destruct (Z.ltb_spec (Z.of_nat n) 0); [lia|].
  by rewrite Nat2Z.id.
Qed.

Lemma iota_length n : length (Mach.iota n) = n.
Proof. unfold Mach.iota. by rewrite length_map, length_seq. Qed.

Lemma iota_lookup n i : (i < n)%nat -> Mach.iota n !! i = Some (Z.of_nat i).
Proof.
  intros Hi. unfold Mach.iota. rewrite list_lookup_fmap, lookup_seq_lt by done.
  reflexivity.
Qed.

(** ** A concrete environment

    The standard tables, a balancing that changes no marker, a halo that
    keeps the ghosts, a single process for the collectives, and the
    declaration order for the codes of [Operation]. *)

Module Example.

Import ParaTree.

Definition env : Env :=
  mkEnv TreeConstants.standard
    (fun _ s => (map Octant.getMarker (LocalTree.m_octants (m_octree s)),
                 map Octant.getMarker (LocalTree.m_ghosts (m_octree s))))
    (fun _ => [])
    (fun s => LocalTree.m_ghosts (m_octree s))
    (fun s => [getNumOctants s])
    (fun s => LocalTree.m_localMaxDepth (m_octree s))
    (fun s => m_partitionFirstDesc s)
    (fun s => m_partitionLastDesc s)
    (fun _ b => b)
    (fun op => match op with
               | OP_INIT => 0
               | OP_PRE_ADAPT => 1
               | OP_ADAPT_MAPPED => 2
               | OP_ADAPT_UNMAPPED => 3
               | OP_LOADBALANCE_FIRST => 4
               | OP_LOADBALANCE => 5
               end)
    (fun z => if z =? 1 then OP_PRE_ADAPT
              else if z =? 2 then OP_ADAPT_MAPPED
              else if z =? 3 then OP_ADAPT_UNMAPPED
              else if z =? 4 then OP_LOADBALANCE_FIRST
              else if z =? 5 then OP_LOADBALANCE
              else OP_INIT).

(** The tree of the default constructor: [initialize(dim, ...)] and
    [reset(true)] on one process. *)
Definition blank (dim : Z) : t :=
  mk [] [] [] [] 0 1 0 0 1
     (LocalTree.mk [] [] [] [] 0 0 0 1 dim (replicate (Z.to_nat (2 * dim)) false))
     [] true 0 [] 0 OP_INIT.

Definition fresh (dim : Z) : t :=
  reset true (_initializePartitions (_initialize env dim (blank dim))).

End Example.

(** ** Periodic faces *)

Section Periodic.

Import ParaTree.
Variable E : Env.

Lemma constants_setPeriodic i s : constants E (setPeriodic E i s) = constants E s.
Proof. reflexivity. Qed.

Lemma m_periodic_setPeriodic i j s :
  Mach.at_ (TreeConstants.oppositeFace (constants E s)) i = Some j ->
  m_periodic (setPeriodic E i s) = Mach.set_ (Mach.set_ (m_periodic s) i true) j true.
Proof. intros H. unfold setPeriodic. rewrite H. reflexivity. Qed.

Lemma getPeriodic_set_true v i a :
  0 <= i < Mach.len v ->
  default false (Mach.at_ (Mach.set_ v i true) a) =
  if a =? i then true else default false (Mach.at_ v a).
Proof.
  intros Hi. destruct (Z.eqb_spec a i) as [->|Hne].
  - by rewrite at_set_eq.
  - by rewrite at_set_ne.
Qed.

(** The periodic flag of a face after [setPeriodic(i)]. *)
Lemma getPeriodic_setPeriodic i j a s :
  Mach.at_ (TreeConstants.oppositeFace (constants E s)) i = Some j ->
  0 <= i < Mach.len (m_periodic s) -> 0 <= j < Mach.len (m_periodic s) ->
  getPeriodic a (setPeriodic E i s) =
  if (a =? i) || (a =? j) then true else getPeriodic a s.
Proof.
  intros Hopp Hi Hj. unfold getPeriodic. rewrite (m_periodic_setPeriodic i j) by done.
  rewrite getPeriodic_set_true by (by rewrite len_set).
  rewrite getPeriodic_set_true by done.
  destruct (a =? j), (a =? i); reflexivity.
Qed.

(** C10. [setPeriodic(i)] on a face index [i] makes the face [i] and the
    face opposite to it periodic, and it keeps the periodic flags paired:
    when every face agreed with its opposite before the call, every face
    agrees with its opposite after it, so no call leaves a single face
    periodic without its opposite. *)
Theorem setPeriodic_sets_face_and_opposite (s : t) (i : Z) :
  TreeConstants.wf (constants E s) ->
  Mach.len (m_periodic s) = TreeConstants.nFaces (constants E s) ->
  0 <= i < TreeConstants.nFaces (constants E s) ->
  exists j,
    Mach.at_ (TreeConstants.oppositeFace (constants E s)) i = Some j /\
    getPeriodic i (setPeriodic E i s) = true /\
    getPeriodic j (setPeriodic E i s) = true /\
    ((forall a b, Mach.at_ (TreeConstants.oppositeFace (constants E s)) a = Some b ->
                  getPeriodic a s = getPeriodic b s) ->
     forall a b, Mach.at_ (TreeConstants.oppositeFace (constants E s)) a = Some b ->
                 getPeriodic a (setPeriodic E i s) = getPeriodic b (setPeriodic E i s)).
Proof.
  intros (Hn & Hlen & Hopp) Hper Hi.
  destruct (at_in_range (TreeConstants.oppositeFace (constants E s)) i) as [j Hj];
    [lia|].
  destruct (Hopp i j Hj) as [Hjr Hji].
  assert (Hget : forall a, getPeriodic a (setPeriodic E i s) =
                           if (a =? i) || (a =? j) then true else getPeriodic a s).
  { intros a. apply getPeriodic_setPeriodic; [done|lia|lia]. }
  exists j. split; [done|]. split.
  { rewrite Hget, Z.eqb_refl. reflexivity. }
  split.
  { rewrite Hget, (Z.eqb_refl j), orb_true_r. reflexivity. }
  intros Hpair a b Hab. rewrite !Hget.
  destruct (Hopp a b Hab) as [_ Hba].
  destruct (Z.eqb_spec a i) as [->|Hai].
  - assert (b = j) by congruence. subst b.
    rewrite (Z.eqb_refl j), orb_true_r. reflexivity.
  - destruct (Z.eqb_spec a j) as [->|Haj].
    + assert (b = i) by congruence. subst b. rewrite Z.eqb_refl. reflexivity.
    + destruct (Z.eqb_spec b i) as [->|Hbi]; [congruence|].
      destruct (Z.eqb_spec b j) as [->|Hbj]; [congruence|].
      simpl. by apply Hpair.
Qed.

End Periodic.

(** A 2D tree, face 2: the faces 2 and 3 become periodic. *)
Lemma setPeriodic_sets_face_and_opposite_witness :
  exists j,
    Mach.at_ (TreeConstants.oppositeFace
                (ParaTree.constants Example.env (Example.fresh 2))) 2 = Some j /\
    ParaTree.getPeriodic 2 (ParaTree.setPeriodic Example.env 2 (Example.fresh 2)) = true /\
    ParaTree.getPeriodic j (ParaTree.setPeriodic Example.env 2 (Example.fresh 2)) = true /\
    ((forall a b,
        Mach.at_ (TreeConstants.oppositeFace
                    (ParaTree.constants Example.env (Example.fresh 2))) a = Some b ->
        ParaTree.getPeriodic a (Example.fresh 2) = ParaTree.getPeriodic b (Example.fresh 2)) ->
     forall a b,
       Mach.at_ (TreeConstants.oppositeFace
                   (ParaTree.constants Example.env (Example.fresh 2))) a = Some b ->
       ParaTree.getPeriodic a (ParaTree.setPeriodic Example.env 2 (Example.fresh 2)) =
       ParaTree.getPeriodic b (ParaTree.setPeriodic Example.env 2 (Example.fresh 2))).
Proof.
  apply (setPeriodic_sets_face_and_opposite Example.env (Example.fresh 2) 2).
  - split; [vm_compute; discriminate|]. split; [reflexivity|].
    intros i j Hij. pose proof (at_Some_bounds _ _ _ Hij) as Hb.
    change (Mach.len _) with 4 in Hb.
    assert (Hi : i = 0 \/ i = 1 \/ i = 2 \/ i = 3) by lia.
    destruct Hi as [ -> | [ -> | [ -> | -> ] ] ]; vm_compute in Hij; injection Hij as <-;
      (split; [change (TreeConstants.nFaces _) with 4; lia|reflexivity]).
  - reflexivity.
  - vm_compute. split; [discriminate|reflexivity].
Defined.

(** ** The loops of adapt end *)

Section Loops.

Import ParaTree.
Variable E : Env.

Lemma loop_S body f s :
  loop (S f) body s =
  if fst (body s) then loop f body (snd (body s)) else Some (snd (body s)).
Proof. reflexivity. Qed.

Lemma loop_mono body f f' s r :
  loop f body s = Some r -> (f <= f')%nat -> loop f' body s = Some r.
Proof.
  revert f' s. induction f as [|f IH]; intros f' s Hl Hle; [discriminate|].
  destruct f' as [|f']; [lia|]. rewrite loop_S in *.
  destruct (fst (body s)); [|done]. apply IH; [done|lia].
Qed.

(** A pass that asks for no further pass ends the loop. *)
Lemma loop_once body f s :
  fst (body s) = false -> loop (S f) body s = Some (snd (body s)).
Proof. intros H. rewrite loop_S. by rewrite H. Qed.

Definition markersAtMost (n : Z) (octs : list Octant.t) : Prop :=
  Forall (fun o => Octant.getMarker o <= n) octs.

Definition markersAtLeast (n : Z) (octs : list Octant.t) : Prop :=
  Forall (fun o => n <= Octant.getMarker o) octs.

Lemma markersAtMost_max octs :
  markersAtMost (fold_right Z.max 0 (map Octant.getMarker octs)) octs.
Proof.
  unfold markersAtMost. induction octs as [|o l IH]; [constructor|].
  simpl. constructor; [lia|].
  eapply Forall_impl; [exact IH|]. simpl. intros; lia.
Qed.

Lemma markersAtLeast_min octs :
  markersAtLeast (fold_right Z.min 0 (map Octant.getMarker octs)) octs.
Proof.
  unfold markersAtLeast. induction octs as [|o l IH]; [constructor|].
  simpl. constructor; [lia|].
  eapply Forall_impl; [exact IH|]. simpl. intros; lia.
Qed.

Lemma buildChildren_marker tc o c :
  In c (Octant.buildChildren tc o) -> Octant.getMarker c = Octant.getMarker o - 1.
Proof.
  unfold Octant.buildChildren. rewrite in_map_iff. intros (k & <- & _). reflexivity.
Qed.

Lemma refineOctant_markers tc o n :
  Octant.getMarker o <= n ->
  Forall (fun c => Octant.getMarker c <= Z.max 0 (n - 1)) (LocalTree.refineOctant tc o).
Proof.
  intros Hn. unfold LocalTree.refineOctant.
  destruct (LocalTree.splits tc o).
  - apply List.Forall_forall. intros c Hc. rewrite (buildChildren_marker _ _ _ Hc). lia.
  - destruct (Z.ltb_spec 0 (Octant.getMarker o)).
    + repeat constructor. simpl. lia.
    + repeat constructor. lia.
Qed.

Lemma refine_octants tc mapidx lt :
  LocalTree.m_octants (fst (snd (LocalTree.refine tc mapidx lt))) =
  flat_map (LocalTree.refineOctant tc) (LocalTree.m_octants lt).
Proof. reflexivity. Qed.

Lemma refine_markers tc mapidx lt n :
  markersAtMost n (LocalTree.m_octants lt) ->
  markersAtMost (Z.max 0 (n - 1))
    (LocalTree.m_octants (fst (snd (LocalTree.refine tc mapidx lt)))).
Proof.
  intros H. rewrite refine_octants. unfold markersAtMost.
  apply Forall_flat_map. eapply Forall_impl; [exact H|].
  intros o Ho. by apply refineOctant_markers.
Qed.

Lemma refine_more tc mapidx lt n :
  markersAtMost n (LocalTree.m_octants lt) ->
  fst (LocalTree.refine tc mapidx lt) = true -> 2 <= n.
Proof.
  intros H Hm. unfold LocalTree.refine in Hm. simpl in Hm.
  apply existsb_exists in Hm as (o & Ho & Hb).
  apply andb_true_iff in Hb as [_ Hb]. apply Z.ltb_lt in Hb.
  unfold markersAtMost in H. rewrite List.Forall_forall in H.
  specialize (H o Ho). simpl in H. lia.
Qed.

Lemma refinePass_octree s :
  m_octree (snd (refinePass E s)) =
  fst (snd (LocalTree.refine (constants E s) (m_mapIdx s) (m_octree s))).
Proof. reflexivity. Qed.

(** The refinement loop of adapt ends: a pass lowers the largest marker. *)
Lemma refine_loop_ends (n : nat) s :
  markersAtMost (Z.of_nat n) (LocalTree.m_octants (m_octree s)) ->
  exists s', loop (S n) (refinePass E) s = Some s'.
Proof.
  revert s. induction n as [|n IH]; intros s Hm.
  - rewrite loop_S. destruct (fst (refinePass E s)) eqn:Hf; [|eauto].
    apply (refine_more (constants E s) (m_mapIdx s) _ _ Hm) in Hf. lia.
  - rewrite loop_S. destruct (fst (refinePass E s)) eqn:Hf; [|eauto].
    apply IH. rewrite refinePass_octree.
    pose proof (refine_markers (constants E s) (m_mapIdx s) _ _ Hm) as Hm'.
    replace (Z.max 0 (Z.of_nat (S n) - 1)) with (Z.of_nat n) in Hm' by lia.
    exact Hm'.
Qed.

Lemma keepOctant_marker o : 0 <= Octant.getMarker (LocalTree.keepOctant o).
Proof.
  unfold LocalTree.keepOctant, LocalTree.wantsCoarse.
  destruct (Z.ltb_spec (Octant.getMarker o) 0); simpl; lia.
Qed.

Lemma coarseScan_cons tc ghosts skip j o r :
  LocalTree.coarseScan tc ghosts skip j (o :: r) =
  match skip with
  | S k => LocalTree.coarseScan tc ghosts k (j + 1) r
  | O =>
      if LocalTree.familyAt tc (o :: r) then
        let res := LocalTree.coarseScan tc ghosts
                     (Z.to_nat (TreeConstants.nChildren tc) - 1) (j + 1) r in
        ((Octant.buildFather tc o, j) :: fst res, snd res)
      else if LocalTree.trailingFamily tc ghosts (o :: r) then
        ([(Octant.buildFather tc o, j)], LocalTree.ghostBros tc o ghosts)
      else
        let res := LocalTree.coarseScan tc ghosts 0 (j + 1) r in
        ((LocalTree.keepOctant o, j) :: fst res, snd res)
  end.
Proof. reflexivity. Qed.

Lemma coarseScan_markers tc ghosts n skip j l :
  markersAtLeast (- n) l ->
  markersAtLeast (- Z.max 0 (n - 1)) (map fst (fst (LocalTree.coarseScan tc ghosts skip j l))).
Proof.
  unfold markersAtLeast. revert skip j.
  induction l as [|o r IH]; intros skip j Hl; [constructor|].
  inversion Hl as [|? ? Ho Hr]; subst. rewrite coarseScan_cons.
  destruct skip as [|k]; [|by apply IH].
  destruct (LocalTree.familyAt tc (o :: r)).
  { cbn [fst snd map]. constructor; [|by apply IH].
    unfold Octant.getMarker in *. simpl. lia. }
  destruct (LocalTree.trailingFamily tc ghosts (o :: r)).
  { cbn [fst snd map]. repeat constructor. unfold Octant.getMarker in *. simpl. lia. }
  cbn [fst snd map]. constructor; [|by apply IH].
  pose proof (keepOctant_marker o). lia.
Qed.

Lemma coarse_octants tc mapidx lt :
  LocalTree.m_octants (fst (snd (LocalTree.coarse tc mapidx lt))) =
  map fst (fst (LocalTree.coarseScan tc (LocalTree.m_ghosts lt) 0
                  (Z.of_nat (fst (LocalTree.leadingAbsorbed tc (LocalTree.m_ghosts lt)
                                    (LocalTree.m_octants lt))))
                  (drop (fst (LocalTree.leadingAbsorbed tc (LocalTree.m_ghosts lt)
                                (LocalTree.m_octants lt)))
                        (LocalTree.m_octants lt)))).
Proof. reflexivity. Qed.

Lemma coarse_markers tc mapidx lt n :
  markersAtLeast (- n) (LocalTree.m_octants lt) ->
  markersAtLeast (- Z.max 0 (n - 1))
    (LocalTree.m_octants (fst (snd (LocalTree.coarse tc mapidx lt)))).
Proof.
  intros H. rewrite coarse_octants. apply coarseScan_markers.
  unfold markersAtLeast in *. by apply Forall_drop.
Qed.

Lemma coarse_more tc mapidx lt n :
  markersAtLeast (- n) (LocalTree.m_octants lt) ->
  fst (LocalTree.coarse tc mapidx lt) = true -> 2 <= n.
Proof.
  intros H Hm.
  pose proof (coarse_markers tc mapidx lt n H) as H'.
  unfold LocalTree.coarse in Hm. simpl in Hm.
  apply existsb_exists in Hm as (o & Ho & Hb).
  unfold LocalTree.wantsCoarse in Hb. apply Z.ltb_lt in Hb.
  rewrite coarse_octants in H'. unfold markersAtLeast in H'.
  rewrite List.Forall_forall in H'. specialize (H' o Ho). simpl in H'. lia.
Qed.

Lemma coarsePass_octree s :
  m_octree (snd (coarsePass E s)) =
  fst (snd (LocalTree.coarse (constants E s) (m_mapIdx s) (m_octree s))).
Proof. reflexivity. Qed.

(** The coarsening loop of adapt ends: a pass raises the lowest marker. *)
Lemma coarse_loop_ends (n : nat) s :
  markersAtLeast (- Z.of_nat n) (LocalTree.m_octants (m_octree s)) ->
  exists s', loop (S n) (coarsePass E) s = Some s'.
Proof.
  revert s. induction n as [|n IH]; intros s Hm.
  - rewrite loop_S. destruct (fst (coarsePass E s)) eqn:Hf; [|eauto].
    apply (coarse_more (constants E s) (m_mapIdx s) _ _ Hm) in Hf. lia.
  - rewrite loop_S. destruct (fst (coarsePass E s)) eqn:Hf; [|eauto].
    apply IH. rewrite coarsePass_octree.
    pose proof (coarse_markers (constants E s) (m_mapIdx s) _ _ Hm) as Hm'.
    replace (Z.max 0 (Z.of_nat (S n) - 1)) with (Z.of_nat n) in Hm' by lia.
    exact Hm'.
Qed.

Lemma fold_max_nonneg (l : list Z) : 0 <= fold_right Z.max 0 l.
Proof. induction l; simpl; lia. Qed.

Lemma fold_min_nonpos (l : list Z) : fold_right Z.min 0 l <= 0.
Proof. induction l; simpl; lia. Qed.

Lemma refine_loop_total s : exists f s', loop f (refinePass E) s = Some s'.
Proof.
  pose proof (markersAtMost_max (LocalTree.m_octants (m_octree s))) as H.
  set (m := fold_right Z.max 0 (map Octant.getMarker (LocalTree.m_octants (m_octree s)))) in *.
  assert (0 <= m) by apply fold_max_nonneg.
  exists (S (Z.to_nat m)). apply refine_loop_ends. by rewrite Z2Nat.id.
Qed.

Lemma coarse_loop_total s : exists f s', loop f (coarsePass E) s = Some s'.
Proof.
  pose proof (markersAtLeast_min (LocalTree.m_octants (m_octree s))) as H.
  set (m := fold_right Z.min 0 (map Octant.getMarker (LocalTree.m_octants (m_octree s)))) in *.
  assert (m <= 0) by apply fold_min_nonpos.
  exists (S (Z.to_nat (- m))). apply coarse_loop_ends.
  rewrite Z2Nat.id by lia. by rewrite Z.opp_involutive.
Qed.

(** [adapt] returns: some number of passes is enough for its two loops,
    and any larger number gives the same result. *)
Lemma private_adapt_total mapflag s :
  exists f r, forall f', (f <= f')%nat -> private_adapt_mapidx E f' mapflag s = Some r.
Proof.
  unfold private_adapt_mapidx.
  set (s2 := if decide (m_lastOp (startAdapt mapflag s) = OP_PRE_ADAPT) then _ else _).
  destruct (refine_loop_total s2) as (f1 & s3 & H1).
  set (s5 := if m_serial s then updateAdapt E s3 else computeGhostHalo E (updateAdapt E s3)).
  destruct (coarse_loop_total s5) as (f2 & s6 & H2).
  exists (Nat.max f1 f2). eexists. intros f' Hf.
  rewrite (loop_mono _ _ f' _ _ H1) by lia. simpl.
  fold s5. rewrite (loop_mono _ _ f' _ _ H2) by lia. simpl. reflexivity.
Qed.

Lemma adapt_total mapflag s :
  exists f r, forall f', (f <= f')%nat -> adapt E f' mapflag s = Some r.
Proof.
  destruct (private_adapt_total mapflag s) as (f & r & H).
  exists f. eexists. intros f' Hf. unfold adapt. rewrite (H f' Hf). reflexivity.
Qed.



End Loops.

(** ** Markers are locked between preadapt and adapt *)

Section Locked.

Import Eff ParaTree.
Variable E : Env.

Lemma preadapt_lastOp s : m_lastOp (preadapt E s) = OP_PRE_ADAPT.
Proof. reflexivity. Qed.

(** The guard shared by the five setters. *)
Lemma guarded_locked (f : t -> t) s :
  m_lastOp s = OP_PRE_ADAPT ->
  (s' <- get ;;
   if decide (m_lastOp s' = OP_PRE_ADAPT) then throw (runtime_error MSG_LOCKED)
   else modify f)%eff s = Throw (runtime_error MSG_LOCKED) s.
Proof.
  intros H. unfold bind, get, throw. destruct (decide _); [reflexivity|contradiction].
Qed.






End Locked.

(** ** The halo width *)

Section Halo.

Import Eff ParaTree.

(** C2, what the code does.  [setNofGhostLayers] tests the stored width,
    not its argument: with a stored width of one or more, the call with
    the argument 0 returns and stores 0. *)
Theorem setNofGhostLayers_zero_is_stored (s : t) :
  1 <= m_nofGhostLayers s ->
  setNofGhostLayers 0 s = Ok tt (set_m_nofGhostLayers 0 s) /\
  getNofGhostLayers (set_m_nofGhostLayers 0 s) = 0.
Proof.
  intros H. split; [|reflexivity].
  unfold setNofGhostLayers, bind, get, throw, modify.
  destruct (Z.eqb_spec (m_nofGhostLayers s) 0); [lia|]. reflexivity.
Qed.

(** Once the stored width is 0 every call throws, whatever its argument. *)
Lemma setNofGhostLayers_after_zero (s : t) (k : Z) :
  m_nofGhostLayers s = 0 ->
  setNofGhostLayers k s = Throw (runtime_error MSG_HALO_DISABLE) s.
Proof.
  intros H. unfold setNofGhostLayers, bind, get, throw. by rewrite H.
Qed.

End Halo.

(** The default tree has a halo of width 1; the call with 0 stores 0. *)
Lemma setNofGhostLayers_zero_is_stored_witness :
  ParaTree.setNofGhostLayers 0 (Example.fresh 2) =
    Eff.Ok tt (ParaTree.set_m_nofGhostLayers 0 (Example.fresh 2)) /\
  ParaTree.getNofGhostLayers (ParaTree.set_m_nofGhostLayers 0 (Example.fresh 2)) = 0.
Proof.
  apply (setNofGhostLayers_zero_is_stored (Example.fresh 2)). vm_compute. discriminate.
Defined.

(** ** Uniform partition *)

Section Uniform.

Import ParaTree.

Lemma u32_small x : 0 <= x <= Mach.UINT32_MAX -> Mach.u32 x = x.
Proof.
  unfold Mach.u32, Mach.wrap, Mach.UINT32_MAX. intros H. apply Z.mod_small. lia.
Qed.

Lemma u64_small x : 0 <= x <= Mach.UINT64_MAX -> Mach.u64 x = x.
Proof.
  unfold Mach.u64, Mach.wrap, Mach.UINT64_MAX. intros H. apply Z.mod_small. lia.
Qed.

Lemma sumZ_app l1 l2 : Mach.sumZ (l1 ++ l2) = Mach.sumZ l1 + Mach.sumZ l2.
Proof. unfold Mach.sumZ. induction l1; simpl; lia. Qed.

Lemma iota_S n : Mach.iota (S n) = Mach.iota n ++ [Z.of_nat n].
Proof. unfold Mach.iota. by rewrite seq_S, map_app. Qed.

Lemma sumZ_uniform q r n :
  0 <= r ->
  Mach.sumZ (map (fun i => if i <? r then q + 1 else q) (Mach.iota n)) =
  Z.of_nat n * q + Z.min r (Z.of_nat n).
Proof.
  intros Hr. induction n as [|n IH]; [simpl; lia|].
  rewrite iota_S, map_app, sumZ_app, IH. simpl.
  destruct (Z.ltb_spec (Z.of_nat n) r); lia.
Qed.

(** The quotient and the remainder fit their 32-bit variables when the
    global count is the sum of the 32-bit local counts of the processes. *)
Lemma uniform_fits N P :
  0 < P -> 0 <= N <= P * Mach.UINT32_MAX ->
  0 <= N / P <= Mach.UINT32_MAX /\
  (0 < N mod P -> N / P + 1 <= Mach.UINT32_MAX).
Proof.
  intros HP HN. unfold Mach.UINT32_MAX in *.
  pose proof (Z.div_mod N P ltac:(lia)) as Hdm.
  pose proof (Z.mod_pos_bound N P HP) as Hm.
  assert (0 <= N / P) by (apply Z.div_pos; lia).
  split; [split; [lia|]|]; nia.
Qed.

Lemma computePartition_unfold s :
  0 < m_nproc s <= Mach.UINT32_MAX ->
  0 <= m_globalNumOctants s <= m_nproc s * Mach.UINT32_MAX ->
  computePartition s =
  map (fun i => if i <? m_globalNumOctants s mod m_nproc s
                then m_globalNumOctants s / m_nproc s + 1
                else m_globalNumOctants s / m_nproc s)
      (Mach.iota (Z.to_nat (m_nproc s))).
Proof.
  intros HP HN. unfold computePartition.
  destruct (uniform_fits _ _ (proj1 HP) HN) as [Hq Hq1].
  pose proof (Z.mod_pos_bound (m_globalNumOctants s) (m_nproc s) (proj1 HP)) as Hm.
  rewrite (u32_small (m_nproc s)) by lia.
  rewrite (u32_small (_ / _)) by lia.
  rewrite (u32_small (_ mod _)) by lia.
  apply map_ext_in. intros i Hi.
  destruct (Z.ltb_spec i (m_globalNumOctants s mod m_nproc s)); [|reflexivity].
  apply u32_small. unfold Mach.iota in Hi. apply in_map_iff in Hi as (k & <- & _). lia.
Qed.

(** C9. The uniform partition: for a count [N] that the processes can
    hold (every local count is a 32-bit number, so [N <= P * (2^32 - 1)])
    every rank gets the quotient of [N] by [P], and each of the first
    [N mod P] ranks one octant more. *)
Theorem computePartition_uniform (s : t) :
  0 < m_nproc s <= Mach.UINT32_MAX ->
  0 <= m_globalNumOctants s <= m_nproc s * Mach.UINT32_MAX ->
  Mach.len (computePartition s) = m_nproc s /\
  forall i, 0 <= i < m_nproc s ->
    Mach.at_ (computePartition s) i =
    Some (if i <? m_globalNumOctants s mod m_nproc s
          then m_globalNumOctants s / m_nproc s + 1
          else m_globalNumOctants s / m_nproc s).
Proof.
  intros HP HN. rewrite computePartition_unfold by done. split.
  - unfold Mach.len. rewrite length_map, iota_length. lia.
  - intros i Hi. replace i with (Z.of_nat (Z.to_nat i)) at 1 by lia.
    rewrite at_nat, list_lookup_fmap, iota_lookup by lia. simpl.
    by rewrite Z2Nat.id by lia.
Qed.

(** The counts of the uniform partition add up to the global count. *)
Lemma computePartition_sum (s : t) :
  0 < m_nproc s <= Mach.UINT32_MAX ->
  0 <= m_globalNumOctants s <= m_nproc s * Mach.UINT32_MAX ->
  Mach.sumZ (computePartition s) = m_globalNumOctants s.
Proof.
  intros HP HN. rewrite computePartition_unfold by done.
  pose proof (Z.mod_pos_bound (m_globalNumOctants s) (m_nproc s) (proj1 HP)) as Hm.
  rewrite sumZ_uniform by lia. rewrite Z2Nat.id by lia.
  pose proof (Z.div_mod (m_globalNumOctants s) (m_nproc s) ltac:(lia)). lia.
Qed.

End Uniform.

(** Five octants over three processes: 2, 2, 1. *)
Lemma computePartition_uniform_witness :
  Mach.len (ParaTree.computePartition
              (ParaTree.set_m_nproc 3 (ParaTree.set_m_globalNumOctants 5 (Example.fresh 2)))) = 3 /\
  forall i, 0 <= i < 3 ->
    Mach.at_ (ParaTree.computePartition
                (ParaTree.set_m_nproc 3 (ParaTree.set_m_globalNumOctants 5 (Example.fresh 2)))) i =
    Some (if i <? 5 mod 3 then 5 / 3 + 1 else 5 / 3).
Proof.
  apply (computePartition_uniform
           (ParaTree.set_m_nproc 3 (ParaTree.set_m_globalNumOctants 5 (Example.fresh 2))));
    vm_compute; split; first [reflexivity|discriminate].
Defined.

(** ** Weighted partition *)

Section WeightedSweep.

Import ParaTree.

Context {W : Type}.
Variable wzero : W.
Variable wadd : W -> W -> W.
Variable wdiv : W -> Z -> W.
Variable wlt : W -> W -> bool.

Local Abbreviation unassigned := (unassignedWeight wzero wadd).
Local Abbreviation fill := (fillPartition wadd wlt).
Local Abbreviation sweep_ := (sweep wzero wadd wdiv wlt).

(** The weight a partition has accumulated after [k] of the octants
    [ws]. *)
Definition accumulated (ws : list W) (k : nat) : W :=
  fold_left wadd (take k ws) wzero.

(** The greedy rule of one rank, in the words of the spec: [c] octants
    of [ws] are taken; before each of them the accumulated weight was
    below the target; after the last one it is not below the target, or
    no octant is left. *)
Definition greedy (ws : list W) (target : W) (c : nat) : Prop :=
  (c <= length ws)%nat /\
  (forall k, (k < c)%nat -> wlt (accumulated ws k) target = true) /\
  (c = length ws \/ wlt (accumulated ws c) target = false).

(** The two facts of the arithmetic that make the last octant of a rank
    bring it to its target: a positive share of a weight is not above the
    weight, and the share of no weight is not positive. *)
Definition shareLaws : Prop :=
  (forall u k, 2 <= k -> wlt wzero (wdiv u k) = true -> wlt u (wdiv u k) = false) /\
  (forall k, 2 <= k -> wlt wzero (wdiv wzero k) = false).

Lemma fillPartition_spec target pw ws :
  (fill target pw ws <= length ws)%nat /\
  (forall k, (k < fill target pw ws)%nat ->
             wlt (fold_left wadd (take k ws) pw) target = true) /\
  (fill target pw ws = length ws \/
   wlt (fold_left wadd (take (fill target pw ws) ws) pw) target = false).
Proof.
  revert pw. induction ws as [|w r IH]; intros pw; simpl.
  - split; [lia|]. split; [intros; lia|by left].
  - destruct (wlt pw target) eqn:Hlt.
    + destruct (IH (wadd pw w)) as (H1 & H2 & H3). split; [lia|]. split.
      * intros [|k] Hk; [done|]. simpl. apply H2. lia.
      * destruct H3 as [H3|H3]; [left; lia|right; exact H3].
    + split; [lia|]. split; [intros; lia|by right].
Qed.

Lemma fillPartition_greedy target ws : greedy ws target (fill target wzero ws).
Proof. apply fillPartition_spec. Qed.

Lemma sweep_length ranks P i ws : length (fst (sweep_ ranks P i ws)) = ranks.
Proof.
  revert i ws. induction ranks as [|k IH]; intros i ws; [reflexivity|].
  simpl. destruct (drop _ ws); simpl; [by rewrite length_replicate|by rewrite IH].
Qed.

Lemma sweep_taken ranks P i ws :
  0 <= snd (sweep_ ranks P i ws) <= Mach.len ws.
Proof.
  revert i ws. induction ranks as [|k IH]; intros i ws; [simpl; unfold Mach.len; lia|].
  simpl.
  pose proof (fillPartition_spec (wdiv (unassigned ws) (P - i)) wzero ws) as (Hc & _).
  set (c := fill _ wzero ws) in *.
  destruct (drop c ws) as [|w r] eqn:Hd; simpl; [unfold Mach.len; lia|].
  specialize (IH (i + 1) (w :: r)).
  pose proof (f_equal length Hd) as Hl. rewrite length_drop in Hl.
  unfold Mach.len in *. lia.
Qed.

Lemma sumZ_replicate_0 n : Mach.sumZ (replicate n 0) = 0.
Proof. induction n; simpl; [reflexivity|]. unfold Mach.sumZ in *. simpl. lia. Qed.

Lemma sumZ_nonneg_take (l : list Z) n :
  Forall (fun x => 0 <= x) l -> 0 <= Mach.sumZ (take n l).
Proof.
  intros H. revert n. induction H; intros [|n]; unfold Mach.sumZ in *; simpl; try lia.
  specialize (IHForall n). lia.
Qed.

(** The counts the sweep writes are the numbers of octants it takes. *)
Lemma sweep_sum ranks P i ws :
  Mach.len ws <= Mach.UINT32_MAX ->
  Mach.sumZ (fst (sweep_ ranks P i ws)) = snd (sweep_ ranks P i ws) /\
  Forall (fun x => 0 <= x) (fst (sweep_ ranks P i ws)).
Proof.
  revert i ws. induction ranks as [|k IH]; intros i ws Hlen; [by split|].
  simpl.
  pose proof (fillPartition_spec (wdiv (unassigned ws) (P - i)) wzero ws) as (Hc & _).
  set (c := fill _ wzero ws) in *.
  assert (Hu : Mach.u32 (Z.of_nat c) = Z.of_nat c).
  { apply u32_small. unfold Mach.len in Hlen. lia. }
  destruct (drop c ws) as [|w r] eqn:Hd; simpl; rewrite Hu.
  - split.
    + unfold Mach.sumZ. simpl. fold (Mach.sumZ (replicate k 0)).
      rewrite sumZ_replicate_0. lia.
    + constructor; [lia|]. apply Forall_replicate. lia.
  - destruct (IH (i + 1) (w :: r)) as [IH1 IH2].
    { pose proof (f_equal length Hd) as Hdl. rewrite length_drop in Hdl.
      unfold Mach.len in *. lia. }
    split; [|constructor; [lia|done]].
    unfold Mach.sumZ in *. simpl. lia.
Qed.

(** Every rank of the sweep follows the greedy rule on the octants that
    the ranks before it have left. *)
Lemma sweep_greedy ranks P i ws (m : nat) :
  Mach.len ws <= Mach.UINT32_MAX ->
  (m < ranks)%nat ->
  exists c : nat,
    fst (sweep_ ranks P i ws) !! m = Some (Z.of_nat c) /\
    greedy (drop (Z.to_nat (Mach.sumZ (take m (fst (sweep_ ranks P i ws))))) ws)
           (wdiv (unassigned (drop (Z.to_nat (Mach.sumZ (take m (fst (sweep_ ranks P i ws))))) ws))
                 (P - (i + Z.of_nat m)))
           c.
Proof.
  revert i ws m. induction ranks as [|k IH]; intros i ws m Hlen Hm; [lia|].
  simpl.
  pose proof (fillPartition_greedy (wdiv (unassigned ws) (P - i)) ws) as Hg.
  set (c := fill _ wzero ws) in *.
  assert (Hu : Mach.u32 (Z.of_nat c) = Z.of_nat c).
  { apply u32_small. destruct Hg as (Hc & _). unfold Mach.len in Hlen. lia. }
  destruct m as [|m].
  { exists c. replace (i + Z.of_nat 0) with i by lia.
    destruct (drop c ws); simpl; rewrite Hu; (split; [reflexivity|exact Hg]). }
  destruct (drop c ws) as [|w r] eqn:Hd.
  - exists O. cbn [fst snd]. split.
    { simpl. apply lookup_replicate_2. lia. }
    assert (Hs : Mach.sumZ (take (S m) (Mach.u32 (Z.of_nat c) :: replicate k 0)) = Z.of_nat c).
    { rewrite Hu. simpl. unfold Mach.sumZ. simpl. fold (Mach.sumZ (take m (replicate k 0))).
      rewrite take_replicate, sumZ_replicate_0. lia. }
    rewrite Hs, Nat2Z.id, Hd.
    split; [simpl; lia|]. split; [intros; lia|by left].
  - cbn [fst snd].
    destruct (IH (i + 1) (w :: r) m) as (c' & Hl & Hg').
    { pose proof (f_equal length Hd) as Hdl. rewrite length_drop in Hdl.
      unfold Mach.len in *. lia. }
    { lia. }
    exists c'. split; [exact Hl|].
    destruct (sweep_sum k P (i + 1) (w :: r)) as [_ Hnn].
    { pose proof (f_equal length Hd) as Hdl. rewrite length_drop in Hdl.
      unfold Mach.len in *. lia. }
    pose proof (sumZ_nonneg_take _ m Hnn) as Hpos.
    set (part := fst (sweep_ k P (i + 1) (w :: r))) in *.
    assert (Hs : Z.to_nat (Mach.sumZ (take (S m) (Mach.u32 (Z.of_nat c) :: part))) =
                 (c + Z.to_nat (Mach.sumZ (take m part)))%nat).
    { rewrite Hu. simpl. unfold Mach.sumZ in *. simpl. lia. }
    rewrite Hs, <- drop_drop, Hd.
    replace (i + Z.of_nat (S m)) with (i + 1 + Z.of_nat m) by lia.
    exact Hg'.
Qed.

(** Under the two facts of the arithmetic a rank never stops for lack of
    octants below its target. *)
Lemma greedy_reaches_target ws k c :
  shareLaws -> 2 <= k ->
  greedy ws (wdiv (unassigned ws) k) c ->
  wlt (accumulated ws c) (wdiv (unassigned ws) k) = false.
Proof.
  intros [L1 L2] Hk (Hc & Hbelow & Hstop).
  destruct Hstop as [->|Hstop]; [|exact Hstop].
  unfold accumulated. rewrite firstn_all.
  destruct ws as [|w r].
  - simpl. by apply L2.
  - apply L1; [done|]. apply (Hbelow O). simpl. lia.
Qed.

(** C8. The weighted partition is a greedy sweep.  For a vector of [N]
    weights, [N] a 32-bit count, and [P] processes: the partition has [P]
    counts; every rank [i] from 0 to [P-2] takes consecutive octants, the
    first one where the ranks before it stopped, as long as its
    accumulated weight is below the weight of the unassigned octants
    divided by the number [P - i] of remaining ranks, and it stops when
    this no longer holds or when every octant is assigned; with the two
    facts of the arithmetic above the accumulated weight has then reached
    that target; the rank [P-1] receives all the remaining octants; and
    the counts depend on the tree only through [P] and [N]: two runs on
    the same weights give the same partition. *)
Theorem computePartition_weight_greedy (gw : list W) (s : t) :
  1 <= m_nproc s ->
  0 <= m_globalNumOctants s <= Mach.UINT32_MAX ->
  m_globalNumOctants s <= Mach.len gw ->
  Mach.len (computePartition_weight wzero wadd wdiv wlt gw s) = m_nproc s /\
  (forall i, 0 <= i < m_nproc s - 1 ->
     exists c : nat,
       Mach.at_ (computePartition_weight wzero wadd wdiv wlt gw s) i = Some (Z.of_nat c) /\
       let before := Mach.sumZ (take (Z.to_nat i)
                       (computePartition_weight wzero wadd wdiv wlt gw s)) in
       let left := drop (Z.to_nat before) (take (Z.to_nat (m_globalNumOctants s)) gw) in
       let target := wdiv (unassigned left) (m_nproc s - i) in
       0 <= before /\
       greedy left target c /\
       (shareLaws -> wlt (accumulated left c) target = false)) /\
  Mach.at_ (computePartition_weight wzero wadd wdiv wlt gw s) (m_nproc s - 1) =
    Some (m_globalNumOctants s
          - Mach.sumZ (take (Z.to_nat (m_nproc s - 1))
                         (computePartition_weight wzero wadd wdiv wlt gw s))) /\
  (forall s', m_nproc s' = m_nproc s -> m_globalNumOctants s' = m_globalNumOctants s ->
     computePartition_weight wzero wadd wdiv wlt gw s' =
     computePartition_weight wzero wadd wdiv wlt gw s).
Proof.
  intros HP HN Hgw. unfold computePartition_weight.
  set (N := m_globalNumOctants s) in *. set (P := m_nproc s) in *.
  set (ws := take (Z.to_nat N) gw).
  assert (Hws : Mach.len ws = N).
  { unfold ws, Mach.len in *. rewrite length_take. lia. }
  set (r := sweep_ (Z.to_nat (P - 1)) P 0 ws).
  pose proof (sweep_length (Z.to_nat (P - 1)) P 0 ws) as Hlen. fold r in Hlen.
  pose proof (sweep_taken (Z.to_nat (P - 1)) P 0 ws) as Htk. fold r in Htk.
  destruct (sweep_sum (Z.to_nat (P - 1)) P 0 ws) as [Hsum Hnn]; [lia|]. fold r in Hsum, Hnn.
  split; [|split; [|split]].
  - unfold Mach.len. rewrite length_app, Hlen. simpl. lia.
  - intros i Hi.
    destruct (sweep_greedy (Z.to_nat (P - 1)) P 0 ws (Z.to_nat i)) as (c & Hl & Hg);
      [lia|lia|]. fold r in Hl, Hg.
    exists c.
    assert (Htake : take (Z.to_nat i) (fst r ++ [Mach.u32 (N - Mach.u32 (snd r))]) =
                    take (Z.to_nat i) (fst r)).
    { apply take_app_le. lia. }
    split.
    { replace i with (Z.of_nat (Z.to_nat i)) at 1 by lia.
      rewrite at_nat, lookup_app_l by lia. exact Hl. }
    cbv zeta. rewrite Htake.
    replace (0 + Z.of_nat (Z.to_nat i)) with i in Hg by lia.
    split; [by apply sumZ_nonneg_take|]. split; [exact Hg|].
    intros Hlaws. apply greedy_reaches_target; [done|lia|exact Hg].
  - replace (P - 1) with (Z.of_nat (Z.to_nat (P - 1))) at 1 by lia.
    rewrite at_nat.
    rewrite lookup_app_r by lia. rewrite Hlen, Nat.sub_diag. simpl.
    rewrite take_app_le by lia. rewrite <- Hlen. rewrite firstn_all.
    rewrite Hsum. f_equal.
    rewrite (u32_small (snd r)) by lia. apply u32_small. lia.
  - intros s' HP' HN'. by rewrite HP', HN'.
Qed.

End WeightedSweep.

(** The exact rationals satisfy the two facts of the arithmetic. *)
Lemma shareLaws_Q : shareLaws 0%Q ParaTree.Qdiv_int ParaTree.Qlt_bool.
Proof.
  assert (Hlt : forall a b, ParaTree.Qlt_bool a b = true <-> (a < b)%Q).
  { intros a b. unfold ParaTree.Qlt_bool. rewrite negb_true_iff.
    destruct (Qle_bool b a) eqn:Hb.
    - apply Qle_bool_iff in Hb. split; [discriminate|]. intros H.
      exfalso. apply (Qlt_not_le _ _ H Hb).
    - split; [intros _|reflexivity].
      apply Qnot_le_lt. intros H. apply Qle_bool_iff in H. congruence. }
  assert (Hnlt : forall a b, (b <= a)%Q -> ParaTree.Qlt_bool a b = false).
  { intros a b H. unfold ParaTree.Qlt_bool. apply negb_false_iff. by apply Qle_bool_iff. }
  split.
  - intros u k Hk Hpos. apply Hlt in Hpos. apply Hnlt.
    unfold ParaTree.Qdiv_int in *.
    assert (Hk0 : (0 < inject_Z k)%Q).
    { change 0%Q with (inject_Z 0). rewrite <- Zlt_Qlt. lia. }
    assert (Hu : (0 < u)%Q).
    { apply (Qmult_lt_r _ _ _ Hk0) in Hpos.
      rewrite Qmult_0_l in Hpos.
      rewrite Qmult_comm, Qmult_div_r in Hpos; [exact Hpos|].
      intros Heq. rewrite Heq in Hk0. apply (Qlt_irrefl _ Hk0). }
    apply Qle_shift_div_r; [exact Hk0|].
    rewrite <- (Qmult_1_r u) at 1.
    apply Qmult_le_l; [exact Hu|].
    change 1%Q with (inject_Z 1). rewrite <- Zle_Qle. lia.
  - intros k Hk. apply Hnlt. unfold ParaTree.Qdiv_int, Qdiv.
    rewrite Qmult_0_l. apply Qle_refl.
Qed.

(** Five octants of weights 3, 1, 1, 1, 1 over three processes. *)
Lemma computePartition_weight_greedy_witness :
  ParaTree.computePartition_Q [3#1; 1#1; 1#1; 1#1; 1#1]
    (ParaTree.set_m_nproc 3 (ParaTree.set_m_globalNumOctants 5 (Example.fresh 2)))
  = [1; 2; 2] /\
  Mach.len (ParaTree.computePartition_Q [3#1; 1#1; 1#1; 1#1; 1#1]
    (ParaTree.set_m_nproc 3 (ParaTree.set_m_globalNumOctants 5 (Example.fresh 2)))) = 3.
Proof.
  split; [reflexivity|].
  apply (computePartition_weight_greedy 0%Q Qplus ParaTree.Qdiv_int ParaTree.Qlt_bool
           [3#1; 1#1; 1#1; 1#1; 1#1]
           (ParaTree.set_m_nproc 3 (ParaTree.set_m_globalNumOctants 5 (Example.fresh 2))));
    vm_compute; try split; discriminate.
Defined.

(** ** Owner lookup *)

Section Owner.

Import ParaTree.

Variable L : list Z.
Variable P : Z.
Variable morton : Z.

Hypothesis L_len : Mach.len L = P.
Hypothesis L_mono : forall i, 0 <= i -> i + 1 < P -> Mach.get0 L i <= Mach.get0 L (i + 1).
Hypothesis above_first : Mach.get0 L 0 < morton.

Lemma L_mono_le i j : 0 <= i <= j -> j < P -> Mach.get0 L i <= Mach.get0 L j.
Proof.
  intros [Hi Hij] Hj. replace j with (i + Z.of_nat (Z.to_nat (j - i))) in * by lia.
  induction (Z.to_nat (j - i)) as [|n IH]; [rewrite Z.add_0_r; lia|].
  etransitivity; [apply IH; lia|].
  replace (i + Z.of_nat (S n)) with (i + Z.of_nat n + 1) by lia.
  apply L_mono; lia.
Qed.

(** What the bisection keeps true at the head of its loop. *)
Definition bisectInv (beg end_ seed : Z) : Prop :=
  0 <= beg <= end_ /\ end_ <= P - 1 /\
  morton <= Mach.get0 L end_ /\
  (beg = 0 \/ Mach.get0 L (beg - 1) < morton) /\
  (beg < end_ ->
   beg <= seed <= end_ /\ 1 <= seed /\
   ((seed < end_ /\ (beg < seed \/ end_ = beg + 1)) \/
    (seed = end_ /\ Mach.get0 L (seed - 1) < morton))).

(** The index the bisection looks for. *)
Definition ownerIndex (q : Z) : Prop :=
  0 <= q <= P - 1 /\ morton <= Mach.get0 L q /\
  (q = 0 \/ Mach.get0 L (q - 1) < morton).

Lemma midpoint_inv beg end_ :
  0 <= beg -> beg < end_ -> (beg = 0 -> 2 <= end_) ->
  let seed := beg + Z.quot (end_ - beg) 2 in
  beg <= seed <= end_ /\ 1 <= seed /\
  ((seed < end_ /\ (beg < seed \/ end_ = beg + 1)) \/
   (seed = end_ /\ Mach.get0 L (seed - 1) < morton)).
Proof.
  intros Hb Hlt H0. cbv zeta.
  rewrite Z.quot_div_nonneg by lia.
  pose proof (Z.div_mod (end_ - beg) 2 ltac:(lia)) as Hdm.
  pose proof (Z.mod_pos_bound (end_ - beg) 2 ltac:(lia)) as Hm.
  assert (0 <= (end_ - beg) / 2) by (apply Z.div_pos; lia).
  split; [lia|]. split; [destruct (Z.eq_dec beg 0); [specialize (H0 e)|]; lia|].
  left. split; [lia|].
  destruct (Z.eq_dec ((end_ - beg) / 2) 0); [right|left]; lia.
Qed.

(** The bisection ends within [end - beg + 1] iterations, on the index
    whose entry is the first one not below the key. *)
Lemma bisect_finds fuel beg end_ seed :
  bisectInv beg end_ seed -> end_ - beg < Z.of_nat fuel ->
  exists q, bisect fuel L morton beg end_ seed = Some q /\ ownerIndex q.
Proof.
  revert beg end_ seed. induction fuel as [|fuel IH]; intros beg end_ seed Hinv Hf.
  { destruct Hinv as (Hb & _). lia. }
  destruct Hinv as (Hb & He & Hend & Hbeg & Hseed).
  simpl. destruct (Z.eqb_spec beg end_) as [->|Hne].
  { exists end_. split; [reflexivity|]. repeat split; try lia; done. }
  destruct Hseed as (Hs & Hs1 & Hpc); [lia|].
  destruct (Z.leb_spec morton (Mach.get0 L seed)) as [Hle|Hgt].
  - destruct (Z.ltb_spec (Mach.get0 L (seed - 1)) morton) as [Hprev|Hprev].
    + apply IH; [|lia]. split; [lia|]. split; [lia|]. split; [done|].
      split; [by right|]. intros; lia.
    + assert (seed < end_) by (destruct Hpc as [[? _]|[_ ?]]; lia).
      assert (beg = 0 -> 2 <= seed).
      { intros ->. destruct (Z.eq_dec seed 1) as [->|]; [|lia].
        change (1 - 1) with 0 in Hprev. lia. }
      apply IH; [|lia]. split; [lia|]. split; [lia|]. split; [done|]. split; [done|].
      intros Hlt. apply midpoint_inv; lia.
  - assert (seed < end_).
    { destruct (Z.eq_dec seed end_) as [->|]; [lia|lia]. }
    destruct (Z.leb_spec morton (Mach.get0 L (seed + 1))) as [Hnext|Hnext].
    + apply IH; [|lia]. split; [lia|]. split; [lia|]. split; [done|].
      split; [right; by replace (seed + 1 - 1) with seed by lia|].
      intros Hlt. apply midpoint_inv; lia.
    + assert (beg < seed).
      { destruct Hpc as [[_ [?|Heq]]|[? _]]; [done| |lia].
        assert (seed = beg) by lia. subst seed. subst end_. lia. }
      apply IH; [|lia]. split; [lia|]. split; [lia|]. split; [done|].
      split.
      { right. pose proof (L_mono (seed - 1) ltac:(lia) ltac:(lia)) as Hm.
        replace (seed - 1 + 1) with seed in Hm by lia. lia. }
      intros Hlt. apply midpoint_inv; lia.
Qed.

Lemma ownerIndex_unique q1 q2 : ownerIndex q1 -> ownerIndex q2 -> q1 = q2.
Proof.
  intros (H1 & Hle1 & Hp1) (H2 & Hle2 & Hp2).
  destruct (Z.lt_trichotomy q1 q2) as [Hlt|[->|Hlt]]; [|done|].
  - destruct Hp2 as [->|Hp2]; [lia|].
    pose proof (L_mono_le q1 (q2 - 1) ltac:(lia) ltac:(lia)). lia.
  - destruct Hp1 as [->|Hp1]; [lia|].
    pose proof (L_mono_le q2 (q1 - 1) ltac:(lia) ltac:(lia)). lia.
Qed.

Lemma walkBack_stays (q : nat) :
  (0 < q)%nat -> Mach.get0 L (Z.of_nat q - 1) < Mach.get0 L (Z.of_nat q) ->
  walkBack L q = q.
Proof.
  intros Hq Hlt. destruct q as [|b]; [lia|]. simpl walkBack.
  replace (Z.of_nat (S b) - 1) with (Z.of_nat b) in Hlt by lia.
  destruct (Z.eqb_spec (Mach.get0 L (Z.of_nat (S b))) (Mach.get0 L (Z.of_nat b))); [lia|done].
Qed.

End Owner.

Section OwnerLookup.

Import ParaTree.

(** The partition [p] of a registry is not empty. *)
Definition nonEmpty (s : t) (p : Z) : Prop :=
  emptyPartition (m_partitionRangeGlobalIdx s) p = false.

(** A registry as the data model of the spec describes it: one entry per
    process; the last descendants never decrease from a rank to the next
    (an empty rank repeats the entry before it); the range of a rank that
    is not empty starts above the last descendant of the rank before it. *)
Definition registryOrdered (s : t) : Prop :=
  1 <= m_nproc s /\
  Mach.len (m_partitionLastDesc s) = m_nproc s /\
  (forall i, 0 <= i -> i + 1 < m_nproc s ->
     Mach.get0 (m_partitionLastDesc s) i <= Mach.get0 (m_partitionLastDesc s) (i + 1)) /\
  (forall p, 1 <= p < m_nproc s -> nonEmpty s p ->
     Mach.get0 (m_partitionLastDesc s) (p - 1) < Mach.get0 (m_partitionFirstDesc s) p).

(** The key [morton] lies in the range of the rank [p]. *)
Definition inRange (s : t) (morton p : Z) : Prop :=
  0 <= p < m_nproc s /\ nonEmpty s p /\
  Mach.get0 (m_partitionFirstDesc s) p <= morton <= Mach.get0 (m_partitionLastDesc s) p.

Lemma inRange_ownerIndex s morton p :
  registryOrdered s -> inRange s morton p -> 1 <= p ->
  Mach.get0 (m_partitionLastDesc s) 0 < morton /\
  ownerIndex (m_partitionLastDesc s) (m_nproc s) morton p.
Proof.
  intros (HP & Hlen & Hmono & Hfirst) (Hp & Hne & Hlo & Hhi) H1.
  specialize (Hfirst p ltac:(lia) Hne).
  pose proof (L_mono_le _ _ Hmono 0 (p - 1) ltac:(lia) ltac:(lia)).
  split; [lia|]. repeat split; lia.
Qed.

(** C5. In an ordered registry, for the key [m] of an existing octant,
    that is a key in the range of some rank [q] that is not empty,
    [findOwner(m)] returns [q] once its bisection is given at least as
    many iterations as there are processes, and [q] is the only rank that
    is not empty and has [first_desc <= m <= last_desc]: the bisection
    stops on the lowest rank whose last descendant is not below [m], and
    the walk back through equal entries leaves it there. *)
Theorem findOwner_returns_owner (s : t) (fuel : nat) (morton q : Z) :
  registryOrdered s -> inRange s morton q -> m_nproc s <= Z.of_nat fuel ->
  findOwner fuel morton s = Some q /\
  (forall p, inRange s morton p -> p = q) /\
  (forall p, 0 <= p < q -> Mach.get0 (m_partitionLastDesc s) p < morton).
Proof.
  intros Hreg Hq Hfuel.
  pose proof Hreg as (HP & Hlen & Hmono & Hfirst).
  assert (Huniq : forall p, inRange s morton p -> p = q).
  { intros p Hp. destruct (Z.eq_dec p 0) as [->|Hp0], (Z.eq_dec q 0) as [->|Hq0]; [done| | |].
    - destruct (inRange_ownerIndex s morton q Hreg Hq ltac:(destruct Hq; lia)) as [Hgt _].
      destruct Hp as (_ & _ & _ & ?). lia.
    - destruct (inRange_ownerIndex s morton p Hreg Hp ltac:(destruct Hp; lia)) as [Hgt _].
      destruct Hq as (_ & _ & _ & ?). lia.
    - destruct (inRange_ownerIndex s morton q Hreg Hq ltac:(destruct Hq; lia)) as [Hgt Hoq].
      destruct (inRange_ownerIndex s morton p Hreg Hp ltac:(destruct Hp; lia)) as [_ Hop].
      eapply ownerIndex_unique; eauto. }
  split; [|split; [exact Huniq|]].
  - unfold findOwner.
    destruct (Z.leb_spec morton (Mach.get0 (m_partitionLastDesc s) 0)) as [Hle|Hgt].
    { destruct (Z.eq_dec q 0) as [->|Hq0]; [done|].
      destruct (inRange_ownerIndex s morton q Hreg Hq ltac:(destruct Hq; lia)). lia. }
    assert (Hq1 : 1 <= q).
    { destruct (Z.eq_dec q 0) as [->|]; [|destruct Hq; lia].
      destruct Hq as (_ & _ & _ & ?). lia. }
    destruct (inRange_ownerIndex s morton q Hreg Hq Hq1) as [_ Hoq].
    pose proof Hoq as (Hqr & Hqle & Hqprev).
    pose proof (L_mono_le _ _ Hmono q (m_nproc s - 1) ltac:(lia) ltac:(lia)) as Hlast.
    destruct (Z.ltb_spec (Mach.get0 (m_partitionLastDesc s) (m_nproc s - 1)) morton); [lia|].
    destruct (bisect_finds (m_partitionLastDesc s) (m_nproc s) morton Hmono Hgt fuel
                0 (m_nproc s - 1) (Z.quot (m_nproc s) 2)) as (q' & Hb & Hoq'); [|lia|].
    { split; [lia|]. split; [lia|]. split; [lia|]. split; [by left|].
      intros Hlt. rewrite Z.quot_div_nonneg by lia.
      pose proof (Z.div_mod (m_nproc s) 2 ltac:(lia)) as Hdm.
      pose proof (Z.mod_pos_bound (m_nproc s) 2 ltac:(lia)) as Hm.
      split; [lia|]. split; [lia|].
      destruct (Z.eq_dec (m_nproc s) 2) as [H2|H2].
      - right. rewrite H2. split; [reflexivity|]. exact Hgt.
      - left. split; [lia|]. left. lia. }
    rewrite Hb.
    assert (q' = q) by (eapply ownerIndex_unique; eauto). subst q'.
    f_equal. rewrite walkBack_stays; [lia|lia|].
    rewrite Z2Nat.id by lia. destruct Hqprev as [->|?]; lia.
  - intros p Hp. destruct (Z.eq_dec q 0) as [->|Hq0]; [lia|].
    destruct (inRange_ownerIndex s morton q Hreg Hq ltac:(lia)) as [_ (_ & _ & Hprev)].
    destruct Hprev as [->|Hprev]; [lia|].
    pose proof (L_mono_le _ _ Hmono p (q - 1) ltac:(lia) ltac:(destruct Hq; lia)). lia.
Qed.

(** What [updateGlobalLasttDescMorton] builds: an empty partition repeats
    the last descendant of the partition before it. *)
Lemma fixLastDesc_other R Lv p k : k <> p -> Mach.get0 (fixLastDesc R Lv p) k = Mach.get0 Lv k.
Proof.
  intros Hne. unfold fixLastDesc, Mach.get0.
  destruct (_ =? _); [|done]. by rewrite at_set_ne.
Qed.

Lemma fixLastDesc_len R Lv p : Mach.len (fixLastDesc R Lv p) = Mach.len Lv.
Proof. unfold fixLastDesc. destruct (_ =? _); [apply len_set|done]. Qed.

Lemma fold_fixLastDesc_len R ps Lv :
  Mach.len (fold_left (fixLastDesc R) ps Lv) = Mach.len Lv.
Proof.
  revert Lv. induction ps as [|p ps IH]; intros Lv; [done|].
  simpl. by rewrite IH, fixLastDesc_len.
Qed.

Lemma fold_fixLastDesc_below R ps Lv k :
  Forall (fun p => k < p) ps ->
  Mach.get0 (fold_left (fixLastDesc R) ps Lv) k = Mach.get0 Lv k.
Proof.
  revert Lv. induction ps as [|p ps IH]; intros Lv Hps; [done|].
  inversion Hps; subst. simpl. rewrite IH by done. apply fixLastDesc_other. lia.
Qed.

Lemma seq_split3 (a n : nat) :
  (1 <= a < n)%nat ->
  seq 1 (n - 1) = seq 1 (a - 1) ++ a :: seq (S a) (n - 1 - a).
Proof.
  intros H. transitivity (seq 1 ((a - 1) + S (n - 1 - a))); [f_equal; lia|].
  rewrite seq_app. f_equal. simpl. f_equal; [lia|f_equal; lia].
Qed.

Lemma fillLastDesc_inherits nproc R gathered p :
  Mach.len gathered = nproc -> 1 <= p < nproc ->
  Mach.get0 R p = Mach.get0 R (p - 1) ->
  Mach.get0 (fillLastDesc nproc R gathered) p =
  Mach.get0 (fillLastDesc nproc R gathered) (p - 1).
Proof.
  intros Hlen Hp Hempty. unfold fillLastDesc.
  assert (Hsplit : map Z.of_nat (seq 1 (Z.to_nat nproc - 1)) =
                   map Z.of_nat (seq 1 (Z.to_nat p - 1)) ++ [p] ++
                   map Z.of_nat (seq (S (Z.to_nat p)) (Z.to_nat nproc - 1 - Z.to_nat p))).
  { rewrite (seq_split3 (Z.to_nat p) (Z.to_nat nproc)) by lia.
    rewrite map_app. simpl. by rewrite Z2Nat.id by lia. }
  rewrite Hsplit, !fold_left_app. simpl.
  set (L1 := fold_left (fixLastDesc R) (map Z.of_nat (seq 1 (Z.to_nat p - 1))) gathered).
  assert (Hl1 : Mach.len L1 = nproc) by (unfold L1; by rewrite fold_fixLastDesc_len).
  rewrite !fold_fixLastDesc_below.
  - unfold fixLastDesc. rewrite Hempty, Z.eqb_refl.
    unfold Mach.get0 at 1. rewrite at_set_eq by lia. simpl.
    unfold Mach.get0 at 2. rewrite at_set_ne by lia. reflexivity.
  - apply List.Forall_forall. intros x Hx. apply in_map_iff in Hx as (n & <- & Hn).
    apply in_seq in Hn. lia.
  - apply List.Forall_forall. intros x Hx. apply in_map_iff in Hx as (n & <- & Hn).
    apply in_seq in Hn. lia.
Qed.

End OwnerLookup.

Module OwnerExample.

Import ParaTree.

(** Four processes, the second of them empty. *)
Definition registry : t :=
  set_m_partitionFirstDesc [0; 11; 11; 21]
    (set_m_partitionLastDesc [10; 10; 20; 30]
       (set_m_partitionRangeGlobalIdx [1; 1; 3; 5]
          (set_m_nproc 4 (Example.fresh 2)))).

End OwnerExample.

(** The key 15 belongs to rank 2. *)
Lemma findOwner_returns_owner_witness :
  ParaTree.findOwner 4 15 OwnerExample.registry = Some 2 /\
  (forall p, inRange OwnerExample.registry 15 p -> p = 2) /\
  (forall p, 0 <= p < 2 ->
     Mach.get0 (ParaTree.m_partitionLastDesc OwnerExample.registry) p < 15).
Proof.
  apply (findOwner_returns_owner OwnerExample.registry 4 15 2).
  - split; [vm_compute; discriminate|]. split; [reflexivity|]. split.
    + intros i H0 H1. change (ParaTree.m_nproc OwnerExample.registry) with 4 in H1.
      assert (Hi : i = 0 \/ i = 1 \/ i = 2) by lia.
      destruct Hi as [ -> | [ -> | -> ] ]; vm_compute; discriminate.
    + intros p Hp Hne. change (ParaTree.m_nproc OwnerExample.registry) with 4 in Hp.
      assert (Hi : p = 1 \/ p = 2 \/ p = 3) by lia.
      destruct Hi as [ -> | [ -> | -> ] ]; [vm_compute in Hne; discriminate| |];
        vm_compute; reflexivity.
  - split; [vm_compute; split; [discriminate|reflexivity]|].
    split; [reflexivity|]. vm_compute. split; discriminate.
  - vm_compute. discriminate.
Defined.

(** ** Snapshots *)

Section Restore.

Import Eff ParaTree.
Local Open Scope eff_scope.
Variable E : Env.

(** A step of the restore run on a tree that satisfies [P]: it ends on a
    tree that satisfies [Q], by return or by an exception, and the only
    exception is the failure of the stream. *)
Definition triple {A} (P : t -> Prop) (m : M Reader A) (Q : t -> Prop) : Prop :=
  forall r, P (snd r) ->
    Q (snd (state_of (m r))) /\
    forall e, raised (m r) = Some e -> e = stream_failure.

Lemma triple_ret {A} P (a : A) : triple P (ret a) P.
Proof. intros r Hr. split; [exact Hr|discriminate]. Qed.

Lemma triple_bind {A B} P Q (m : M Reader A) (k : A -> M Reader B) :
  triple P m P -> (forall s, P s -> Q s) -> (forall a, triple P (k a) Q) ->
  triple P (bind m k) Q.
Proof.
  intros Hm HPQ Hk r Hr. unfold bind. specialize (Hm r Hr).
  destruct (m r) as [a r'|e r'] eqn:Hmr; simpl in *.
  - destruct Hm as [Hm _]. exact (Hk a r' Hm).
  - destruct Hm as [Hm He]. split; [by apply HPQ|exact He].
Qed.

Lemma triple_weaken {A} (P P' Q : t -> Prop) (m : M Reader A) :
  (forall s, P s -> P' s) -> triple P' m Q -> triple P m Q.
Proof. intros HP Hm r Hr. apply Hm, HP, Hr. Qed.

Lemma triple_read P n : triple P (read n) P.
Proof.
  intros r Hr. unfold read. destruct (_ <? _)%nat; simpl.
  - split; [exact Hr|]. by intros e [= <-].
  - split; [exact Hr|discriminate].
Qed.

Lemma triple_tree P : triple P tree P.
Proof. intros r Hr. split; [exact Hr|discriminate]. Qed.

Lemma triple_modify (P : t -> Prop) (f : t -> t) :
  (forall s, P s -> P (f s)) -> triple P (onTree (modify f)) P.
Proof. intros Hf r Hr. split; [by apply Hf|discriminate]. Qed.

Lemma triple_readMany {A} P (rd : M Reader A) n :
  triple P rd P -> triple P (readMany rd n) P.
Proof.
  intros Hrd. induction n as [|n IH]; simpl; [apply triple_ret|].
  apply triple_bind; [done|done|]. intros x.
  apply triple_bind; [done|done|]. intros xs. apply triple_ret.
Qed.

Lemma triple_for P (body : Z -> M Reader unit) i n :
  (forall j, triple P (body j) P) -> triple P (for_ body i n) P.
Proof.
  intros Hb. revert i. induction n as [|n IH]; intros i; simpl; [apply triple_ret|].
  apply triple_bind; [done|done|]. intros _. apply IH.
Qed.

(** Outside a pre-adaptation the setter of the codimension does not throw. *)
Lemma triple_setBalanceCodimension (P : t -> Prop) c :
  (forall s, P s -> m_lastOp s <> OP_PRE_ADAPT) ->
  (forall s f, P s -> P (on_octree f s)) ->
  triple P (onTree (setBalanceCodimension c)) P.
Proof.
  intros Hop Hf r Hr. unfold onTree, setBalanceCodimension, bind, get, throw, modify.
  destruct (decide _) as [Hpre|Hpre]; simpl.
  - by destruct (Hop _ Hr).
  - split; [by apply Hf|discriminate].
Qed.

Ltac triple_step :=
  first
    [ apply triple_ret
    | apply triple_tree
    | apply triple_read
    | apply triple_readMany
    | apply triple_for; intros ?
    | apply triple_modify; intros ? ?; assumption
    | apply triple_bind; [|done|intros ?] ].

Lemma triple_read_u8 P : triple P read_u8 P.
Proof. unfold read_u8. repeat triple_step. Qed.
Lemma triple_read_i8 P : triple P read_i8 P.
Proof. unfold read_i8. repeat triple_step. Qed.
Lemma triple_read_bool P : triple P read_bool P.
Proof. unfold read_bool. repeat triple_step. Qed.
Lemma triple_read_u32 P : triple P read_u32 P.
Proof. unfold read_u32. repeat triple_step. Qed.
Lemma triple_read_i32 P : triple P read_i32 P.
Proof. unfold read_i32. repeat triple_step. Qed.
Lemma triple_read_u64 P : triple P read_u64 P.
Proof. unfold read_u64. repeat triple_step. Qed.

Ltac triple_reads :=
  first
    [ apply triple_read_u8 | apply triple_read_i8 | apply triple_read_bool
    | apply triple_read_u32 | apply triple_read_i32 | apply triple_read_u64
    | triple_step ].

Lemma triple_readOctant P dim : triple P (readOctant dim) P.
Proof. unfold readOctant. repeat triple_reads. Qed.

(** The part of the tree that the body of the restore never changes once
    it is re-initialised. *)
Definition hasDim (d : Z) (s : t) : Prop := m_dim s = d.

Lemma triple_readPeriodic d i : triple (hasDim d) (readPeriodic E i) (hasDim d).
Proof.
  unfold readPeriodic. apply triple_bind; [apply triple_read_bool|done|].
  intros [|]; [|apply triple_ret]. apply triple_modify. by intros s Hs.
Qed.

Lemma triple_restoreFull d : triple (hasDim d) (restoreFull E) (hasDim d).
Proof.
  unfold restoreFull.
  apply triple_bind; [apply triple_read_i32|done|]. intros code.
  apply triple_bind; [by apply triple_modify|done|]. intros _.
  apply triple_bind; [apply triple_tree|done|]. intros s.
  destruct (decide _).
  - repeat first [ apply triple_modify; by intros ? ? | triple_reads ].
  - destruct (isLoadBalance _); repeat first [ apply triple_modify; by intros ? ? | triple_reads ].
Qed.

(** The body of the restore after the re-initialisation: the scalar
    settings first, then the contents. *)
Definition restoreSettings (k : M Reader unit) : M Reader unit :=
  serial <- read_bool ;;
  onTree (modify (set_m_serial serial)) ;;;
  nofGhostLayers <- read_u64 ;;
  onTree (modify (set_m_nofGhostLayers nofGhostLayers)) ;;;
  maxDepth <- read_i8 ;;
  onTree (modify (set_m_maxDepth maxDepth)) ;;;
  status <- read_u64 ;;
  onTree (modify (set_m_status status)) ;;;
  balanceCodimension <- read_bool ;;
  onTree (setBalanceCodimension (Z.b2z balanceCodimension)) ;;;
  k.

Definition restoreContents : M Reader unit :=
  s <- tree ;;
  for_ (readPeriodic E) 0 (Z.to_nat (TreeConstants.nFaces (constants E s))) ;;;
  nOctants <- read_u32 ;;
  nGlobalOctants <- read_u32 ;;
  onTree (modify (set_m_globalNumOctants nGlobalOctants)) ;;;
  octants <- readMany (readOctant (m_dim s)) (Z.to_nat nOctants) ;;
  onTree (modify (on_octree (fun lt =>
    LocalTree.updateLocalMaxDepth (LocalTree.set_m_octants octants lt)))) ;;;
  firstDesc <- readMany read_u64 (Z.to_nat (m_nproc s)) ;;
  onTree (modify (fun s' =>
    on_octree (LocalTree.set_m_firstDescMorton (Mach.get0 firstDesc (m_rank s')))
      (set_m_partitionFirstDesc firstDesc s'))) ;;;
  lastDesc <- readMany read_u64 (Z.to_nat (m_nproc s)) ;;
  onTree (modify (fun s' =>
    on_octree (LocalTree.set_m_lastDescMorton (Mach.get0 lastDesc (m_rank s')))
      (set_m_partitionLastDesc lastDesc s'))) ;;;
  rangeGlobalIdx <- readMany read_u64 (Z.to_nat (m_nproc s)) ;;
  onTree (modify (set_m_partitionRangeGlobalIdx rangeGlobalIdx)) ;;;
  onTree (modify (fun s' => if m_serial s' then s' else computeGhostHalo E s')) ;;;
  onTree (modify (fun s' =>
    set_m_partitionRangeGlobalIdx0 (replicate (Z.to_nat (m_nproc s')) 0)
      (set_m_mapIdx [] s'))) ;;;
  full <- read_bool ;;
  if full then restoreFull E
  else onTree (modify (set_m_lastOp OP_INIT)).

Lemma restoreBody_parts dimension :
  restoreBody E dimension =
  (onTree (modify (on_octree (LocalTree.initialize dimension))) ;;;
   onTree (reinitialize E dimension) ;;;
   onTree (modify (reset false)) ;;;
   restoreSettings restoreContents).
Proof. reflexivity. Qed.

Lemma triple_restoreContents d : triple (hasDim d) restoreContents (hasDim d).
Proof.
  unfold restoreContents.
  repeat first
    [ apply triple_readOctant | apply triple_readPeriodic | apply triple_restoreFull
    | apply triple_modify; by intros ? ?
    | apply triple_modify; intros s' ?; by destruct (m_serial s')
    | match goal with |- triple _ (if ?b then _ else _) _ => destruct b end
    | triple_reads ].
Qed.

(** The state in which the settings are read: re-initialised for the
    dimension of the snapshot. *)
Definition reinitialised (d : Z) (s : t) : Prop := m_dim s = d /\ m_lastOp s = OP_INIT.

Lemma triple_restoreSettings d :
  triple (reinitialised d) (restoreSettings restoreContents) (hasDim d).
Proof.
  unfold restoreSettings.
  repeat (apply triple_bind;
          [ first [ apply triple_read_bool | apply triple_read_u64 | apply triple_read_i8
                  | apply triple_modify; by intros ? ? ]
          | by intros ? [? ?] | intros ? ]).
  apply triple_bind.
  - apply triple_setBalanceCodimension.
    + intros s [_ Hop]. by rewrite Hop.
    + by intros s f [? ?].
  - by intros ? [? ?].
  - intros _. apply (triple_weaken _ (hasDim d)); [by intros ? [? ?]|].
    apply triple_restoreContents.
Qed.

Lemma m_dim_reinit dimension s :
  m_dim (reset false (_initializePartitions
           (_initialize E dimension (on_octree (LocalTree.initialize dimension) s)))) =
  dimension.
Proof.
  unfold _initialize, setDim. destruct (dimension =? 0) eqn:Hd; [|reflexivity].
  apply Z.eqb_eq in Hd. subst. reflexivity.
Qed.


Lemma byteZ_zbyte z : byteZ (zbyte z) = z mod 256.
Proof.
  unfold byteZ, zbyte.
  pose proof (Z.mod_pos_bound z 256 ltac:(lia)) as Hm.
  destruct (Byte.of_N (Z.to_N (z mod 256))) as [b|] eqn:Hb.
  - simpl. apply Byte.to_of_N in Hb. rewrite Hb. lia.
  - exfalso. pose proof (Byte.of_N_None_iff (Z.to_N (z mod 256))) as Hn.
    apply Hn in Hb. lia.
Qed.

Lemma le_decode_encode n z :
  le_decode (le_encode n z) = z mod 256 ^ Z.of_nat n.
Proof.
  revert z. induction n as [|n IH]; intros z.
  - simpl. by rewrite Z.mod_1_r.
  - cbn [le_encode le_decode]. rewrite IH, byteZ_zbyte.
    rewrite Nat2Z.inj_succ, Z.pow_succ_r by lia.
    rewrite Z.rem_mul_r by lia. lia.
Qed.

Lemma le_encode_length n z : length (le_encode n z) = n.
Proof. revert z. induction n; intros; simpl; [done|]. by rewrite IHn. Qed.

Lemma read_app n z rest s :
  read n (le_encode n z ++ rest, s) = Ok (le_encode n z) (rest, s).
Proof.
  unfold read. simpl.
  rewrite length_app, le_encode_length.
  destruct (Nat.ltb_spec (n + length rest) n); [lia|].
  rewrite take_app_length', drop_app_length' by (by rewrite le_encode_length). reflexivity.
Qed.

Lemma i32_u32 x : - 2 ^ 31 <= x < 2 ^ 31 -> Mach.i32 (Mach.u32 x mod 256 ^ 4) = x.
Proof.
  intros H. unfold Mach.i32, Mach.swrap, Mach.u32, Mach.wrap.
  change (256 ^ 4) with (2 ^ 32). rewrite !Z.mod_mod by lia.
  change (2 ^ (32 - 1)) with (2 ^ 31).
  destruct (Z_lt_dec x 0).
  - replace (x mod 2 ^ 32) with (x + 2 ^ 32).
    + destruct (Z.ltb_spec (x + 2 ^ 32) (2 ^ 31)); lia.
    + apply Z.mod_unique with (q := -1); lia.
  - rewrite Z.mod_small by lia. destruct (Z.ltb_spec x (2 ^ 31)); lia.
Qed.

Lemma read_i32_header x rest s :
  - 2 ^ 31 <= x < 2 ^ 31 ->
  read_i32 (write_i32 x ++ rest, s) = Ok x (rest, s).
Proof.
  intros H. unfold read_i32, write_i32, bind. rewrite read_app. unfold ret.
  by rewrite le_decode_encode, i32_u32.
Qed.


Lemma bind_Ok {S A B} (m : M S A) (k : A -> M S B) s a s' :
  m s = Ok a s' -> bind m k s = k a s'.
Proof. intros H. unfold bind. by rewrite H. Qed.

Lemma bind_Throw {S A B} (m : M S A) (k : A -> M S B) s e s' :
  m s = Throw e s' -> bind m k s = Throw e s'.
Proof. intros H. unfold bind. by rewrite H. Qed.


Lemma restoreBody_run dimension rest s :
  2 <= dimension <= 3 ->
  restoreBody E dimension (rest, s) =
  restoreSettings restoreContents
    (rest, reset false (_initializePartitions
             (_initialize E dimension (on_octree (LocalTree.initialize dimension) s)))).
Proof.
  intros Hok. rewrite restoreBody_parts.
  assert (Hb : (dimension <? 2) || (3 <? dimension) = false).
  { destruct (Z.ltb_spec dimension 2), (Z.ltb_spec 3 dimension); simpl; lia. }
  erewrite bind_Ok by reflexivity.
  erewrite bind_Ok.
  2:{ unfold onTree, reinitialize. rewrite Hb. reflexivity. }
  erewrite bind_Ok by reflexivity. reflexivity.
Qed.


(** The guard shared by the setters throws before the tree is touched. *)
Lemma guarded_throw_unchanged (f : t -> t) s e s' :
  (s0 <- get ;;
   if decide (m_lastOp s0 = OP_PRE_ADAPT) then throw (runtime_error MSG_LOCKED)
   else modify f) s = Throw e s' -> s' = s.
Proof.
  unfold bind, get, throw, modify. destruct (decide _); [|discriminate].
  by intros [= _ <-].
Qed.

Lemma read_i32_cases r :
  (read_i32 r = Throw stream_failure r /\ (length (fst r) < 4)%nat) \/
  (exists v, read_i32 r = Ok v (drop 4 (fst r), snd r) /\ (4 <= length (fst r))%nat).
Proof.
  unfold read_i32, bind, read.
  destruct (Nat.ltb_spec (length (fst r)) 4); [left|right]; [done|].
  eexists. split; [reflexivity|done].
Qed.

Lemma read_u8_cases r :
  (read_u8 r = Throw stream_failure r /\ (length (fst r) < 1)%nat) \/
  (exists v, read_u8 r = Ok v (drop 1 (fst r), snd r) /\ (1 <= length (fst r))%nat).
Proof.
  unfold read_u8, bind, read.
  destruct (Nat.ltb_spec (length (fst r)) 1); [left|right]; [done|].
  eexists. split; [reflexivity|done].
Qed.

(** What the body of the restore can throw. *)
Lemma restoreBody_raises dimension r e r' :
  restoreBody E dimension r = Throw e r' ->
  e = stream_failure \/ e = runtime_error MSG_DIMENSION.
Proof.
  destruct r as [rest s]. intros H.
  destruct (decide (2 <= dimension <= 3)) as [Hok|Hbad].
  - rewrite restoreBody_run in H by done.
    match type of H with
    | restoreSettings restoreContents ?r0 = _ =>
        destruct (triple_restoreSettings dimension r0) as [_ Hexn];
        [ split; [apply m_dim_reinit|reflexivity] | ]
    end.
    rewrite H in Hexn. left. by apply Hexn.
  - rewrite restoreBody_parts in H.
    assert (Hb : (dimension <? 2) || (3 <? dimension) = true).
    { destruct (Z.ltb_spec dimension 2), (Z.ltb_spec 3 dimension); simpl; lia. }
    erewrite bind_Ok in H by reflexivity.
    erewrite bind_Throw in H.
    2:{ unfold onTree, reinitialize. rewrite Hb. reflexivity. }
    right. congruence.
Qed.

(** A restore that fails on its header leaves the tree as it was. *)
Lemma restore_header_failure stream s e s' :
  restore E stream s = Throw e s' ->
  e = runtime_error MSG_VERSION \/ e = runtime_error MSG_NPROCS \/
  (length stream < 9)%nat ->
  s' = s.
Proof.
  unfold restore, restoreReader. intros H Hcase.
  destruct (read_i32_cases (stream, s)) as [[Hr Hl]|[version [Hr Hl]]].
  { rewrite (bind_Throw _ _ _ _ _ Hr) in H. by injection H as _ <-. }
  rewrite (bind_Ok _ _ _ _ _ Hr) in H. cbn [fst snd] in *.
  destruct (negb (version =? getDumpVersion)); [by injection H as _ <-|].
  destruct (read_i32_cases (drop 4 stream, s)) as [[Hr2 Hl2]|[nProcs [Hr2 Hl2]]].
  { rewrite (bind_Throw _ _ _ _ _ Hr2) in H. by injection H as _ <-. }
  rewrite (bind_Ok _ _ _ _ _ Hr2) in H. cbn [fst snd] in *.
  rewrite (bind_Ok tree _ (_, s) s (_, s) eq_refl) in H.
  destruct (negb (nProcs =? m_nproc s)); [by injection H as _ <-|].
  destruct (read_u8_cases (drop 4 (drop 4 stream), s)) as [[Hr3 Hl3]|[dimension [Hr3 Hl3]]].
  { rewrite (bind_Throw _ _ _ _ _ Hr3) in H. by injection H as _ <-. }
  rewrite (bind_Ok _ _ _ _ _ Hr3) in H. cbn [fst snd] in *.
  exfalso.
  destruct (restoreBody E dimension (drop 1 (drop 4 (drop 4 stream)), s))
    as [a r'|e' r'] eqn:Hbody; [discriminate|].
  injection H as <- _.
  apply restoreBody_raises in Hbody.
  destruct Hcase as [->|[->|Hlen]].
  - by destruct Hbody.
  - by destruct Hbody.
  - cbn [fst] in Hl, Hl2, Hl3. rewrite !length_drop in Hl3. lia.
Qed.

(** C3, as the code has it.  No operation rolls anything back: an error
    leaves the tree as it was when it is raised before the first
    modification.  This is so for the setters of the markers, of the
    balance flags and of the balance codimension, for [setNofGhostLayers],
    for [getMapping], for [reinitialize], and for a [restore] that fails
    on the version, on the number of processes, or on a stream that ends
    within the header (nine bytes: version, number of processes,
    dimension).  A [restore] that fails later has already re-initialised
    the tree. *)
Theorem errors_before_modification_keep_state (s : t) :
  (forall idx marker e s', setMarker idx marker s = Throw e s' -> s' = s) /\
  (forall idx b e s', setBalance idx b s = Throw e s' -> s' = s) /\
  (forall oct marker e s', setMarkerPtr oct marker s = Throw e s' -> s' = s) /\
  (forall oct b e s', setBalancePtr oct b s = Throw e s' -> s' = s) /\
  (forall c e s', setBalanceCodimension c s = Throw e s' -> s' = s) /\
  (forall n e s', setNofGhostLayers n s = Throw e s' -> s' = s) /\
  (forall idx e s', getMapping E idx s = Throw e s' -> s' = s) /\
  (forall dim e s', reinitialize E dim s = Throw e s' -> s' = s) /\
  (forall stream e s',
     restore E stream s = Throw e s' ->
     e = runtime_error MSG_VERSION \/ e = runtime_error MSG_NPROCS \/
     (length stream < 9)%nat ->
     s' = s).
Proof.
  repeat split.
  - intros idx marker e s'. apply guarded_throw_unchanged.
  - intros idx b e s'. apply guarded_throw_unchanged.
  - intros oct marker e s'. apply guarded_throw_unchanged.
  - intros oct b e s'. apply guarded_throw_unchanged.
  - intros c e s'. apply guarded_throw_unchanged.
  - intros n e s'. unfold setNofGhostLayers, bind, get, throw, modify.
    destruct (_ =? 0); [by intros [= _ <-]|].
    destruct (_ <? _); [by intros [= _ <-]|discriminate].
  - intros idx e s'. unfold getMapping, bind, get, throw, ret.
    destruct (_ <=? _); [by intros [= _ <-]|].
    destruct (getIsNewC _ _); discriminate.
  - intros dim e s'. unfold reinitialize, throw, modify.
    destruct (_ || _); [by intros [= _ <-]|discriminate].
  - intros stream e s'. apply restore_header_failure.
Qed.

End Restore.



(** C3, counterexample.  A two-dimensional tree with a halo of two
    layers is given the first nine bytes of the snapshot of a
    three-dimensional tree.  The header is accepted, the tree is
    re-initialised for dimension 3, and the first read after the header
    fails.  The error leaves the tree with another dimension, another
    halo width, no octant and another partition registry. *)
Lemma restore_truncated_changes_state :
  let s := ParaTree.set_m_nofGhostLayers 2 (Example.fresh 2) in
  let stream := take 9 (ParaTree.dump Example.env false (Example.fresh 3)) in
  let s' := Eff.state_of (ParaTree.restore Example.env stream s) in
  Eff.raised (ParaTree.restore Example.env stream s) = Some Eff.stream_failure /\
  ParaTree.SnapshotCorrupt Eff.stream_failure /\
  (ParaTree.getDim s = 2 /\ ParaTree.getDim s' = 3) /\
  (ParaTree.getNofGhostLayers s = 2 /\ ParaTree.getNofGhostLayers s' = 1) /\
  (ParaTree.getNumOctants s = 1 /\ ParaTree.getNumOctants s' = 0) /\
  (ParaTree.m_partitionRangeGlobalIdx s = [0] /\
   ParaTree.m_partitionRangeGlobalIdx s' = [Mach.UINT64_MAX]).
Proof. vm_compute. repeat split. Qed.


(** ** Conservation of the octants by the partitions *)

(** A two-dimensional tree of depth 3 over two processes: three octants
    of level 1 and the sixteen octants of level 3 that fill the fourth
    quadrant, in Morton order.  The first process holds four octants, the
    second one the other fifteen. *)
Module FamilyExample.

Import ParaTree.

Definition h : Z := 2 ^ 19.
Definition q : Z := 2 ^ 17.
Definition big (x y : Z) : Octant.t := Octant.make 2 1 x y 0.
Definition small (a b : Z) : Octant.t := Octant.make 2 3 (h + a * q) (h + b * q) 0.

Definition block : list Octant.t :=
  [small 0 0; small 1 0; small 0 1; small 1 1;
   small 2 0; small 3 0; small 2 1; small 3 1;
   small 0 2; small 1 2; small 0 3; small 1 3;
   small 2 2; small 3 2; small 2 3; small 3 3].

Definition globalOcts : list Octant.t := [big 0 0; big h 0; big 0 h] ++ block.

Definition rankState (rank : Z) (octs : list Octant.t) : t :=
  mk [0; 0] [0; 0] [3; 18] [0; 0] 19 2 rank 3 1
     (LocalTree.mk octs [] [] [] 0 0 3 1 2 [false; false; false; false])
     [] false 2 [false; false; false; false] 0 OP_LOADBALANCE.

Definition world : list t :=
  [rankState 0 (take 4 globalOcts); rankState 1 (drop 4 globalOcts)].

End FamilyExample.

Section Conservation.

Import ParaTree.

Lemma updateLoadBalance_globalNumOctants E s :
  m_globalNumOctants (updateLoadBalance E s) = m_globalNumOctants s.
Proof.
  unfold updateLoadBalance, updateGlobalLasttDescMorton, updateGlobalFirstDescMorton.
  cbv zeta. repeat (destruct (emptyPartition _ _); cbn); reflexivity.
Qed.

(** C4.  The partition that keeps the families compact does not conserve
    the octants when the correction of a boundary falls back to the local
    count.  In the tree of [FamilyExample], 19 octants over two
    processes with the families of level 1 kept compact (level_ = 2), the
    uniform counts are 10 and 9; the boundary falls on the second
    process, none of whose fifteen octants starts a family, so that both
    searches give the local count 15 and the displacement is -15.  The
    counts come out as 10 - 15, stored in 32 bits without sign, and
    9 + 15: they sum to 2^32 + 19 and not to 19, on both processes.  The
    uniform counts themselves sum to 19, and [updateLoadBalance] leaves
    the global count alone. *)
Theorem family_compact_fallback_loses_conservation :
  let world := FamilyExample.world in
  let s1 := FamilyExample.rankState 1 (drop 4 FamilyExample.globalOcts) in
  let octs1 := LocalTree.m_octants (m_octree s1) in
  let ok := aligned (familySize Example.env 2 s1) (m_dim s1) in
  map getNumOctants world = [4; 15] /\
  map getGlobalNumOctants world = [19; 19] /\
  map computePartition world = [[10; 9]; [10; 9]] /\
  forwardCorrection ok octs1 6 = 15 /\
  backwardCorrection ok octs1 6 = 15 /\
  localDeplace Example.env 2 s1 10 = Some (-15) /\
  computePartition_level Example.env 2 world 0 = Some [4294967291; 24] /\
  computePartition_level Example.env 2 world 1 = Some [4294967291; 24] /\
  Mach.sumZ [4294967291; 24] = 2 ^ 32 + 19 /\
  (forall s, m_globalNumOctants (updateLoadBalance Example.env s) = m_globalNumOctants s).
Proof.
  cbv zeta. do 9 (split; [vm_compute; reflexivity|]).
  apply updateLoadBalance_globalNumOctants.
Qed.

End Conservation.

(** ** The map of an adapt *)

Section Flags.

(** Two octants that stand for the same cell with the same new-octant
    flags: what markers, balance and halo bits do not change. *)
Definition kin (a b : Octant.t) : Prop :=
  Octant.cell a = Octant.cell b /\
  Octant.getIsNewR a = Octant.getIsNewR b /\
  Octant.getIsNewC a = Octant.getIsNewC b.

Definition sameCell (a b : Octant.t) : Prop := Octant.cell a = Octant.cell b.

Lemma kin_refl a : kin a a.
Proof. by repeat split. Qed.

Lemma kin_trans a b c : kin a b -> kin b c -> kin a c.
Proof. intros (? & ? & ?) (? & ? & ?). repeat split; congruence. Qed.

Lemma kin_setMarker m o : kin o (Octant.setMarker m o).
Proof. by repeat split. Qed.

Lemma at_set_outside {A} (v : list A) i x :
  ~ 0 <= i < Mach.len v -> Mach.at_ (Mach.set_ v i x) i = None.
Proof.
  unfold Mach.at_, Mach.set_, Mach.len. intros H.
  destruct (Z.ltb_spec i 0); [reflexivity|].
  apply lookup_ge_None. rewrite length_insert. lia.
Qed.

Lemma get_info_set_false i v o :
  Octant.get_info i (Octant.set_m_info (Mach.set_ v i false) o) = false.
Proof.
  unfold Octant.get_info. cbn.
  destruct (decide (0 <= i < Mach.len v)) as [H|H].
  - by rewrite at_set_eq.
  - by rewrite at_set_outside.
Qed.

Lemma get_info_set_ne i j b v o :
  i <> j ->
  Octant.get_info j (Octant.set_m_info (Mach.set_ v i b) o) =
  Octant.get_info j (Octant.set_m_info v o).
Proof. intros H. unfold Octant.get_info. cbn. by rewrite at_set_ne. Qed.

Lemma clearNew_newR o : Octant.getIsNewR (ParaTree.clearNew o) = false.
Proof.
  unfold ParaTree.clearNew, Octant.getIsNewR, Octant.set_info.
  rewrite get_info_set_ne by discriminate.
  apply (get_info_set_false Octant.INFO_NEW4REFINEMENT _ o).
Qed.

Lemma clearNew_newC o : Octant.getIsNewC (ParaTree.clearNew o) = false.
Proof.
  unfold ParaTree.clearNew, Octant.getIsNewC, Octant.set_info.
  apply get_info_set_false.
Qed.

Lemma clearNew_cell o : sameCell o (ParaTree.clearNew o).
Proof. reflexivity. Qed.

Lemma child_newC tc k o : Octant.getIsNewC (Octant.child tc k o) = false.
Proof.
  unfold Octant.getIsNewC, Octant.child.
  apply (get_info_set_false Octant.INFO_NEW4COARSENING _
           (Octant.mk 0 0 0 0 0 0 0 [])).
Qed.

Lemma child_cell tc k a b :
  sameCell a b -> sameCell (Octant.child tc k a) (Octant.child tc k b).
Proof.
  unfold sameCell, Octant.cell. intros [= Hl Hx Hy Hz]. cbn.
  by rewrite Hl, Hx, Hy, Hz.
Qed.

Lemma buildFather_cell tc a b :
  sameCell a b -> sameCell (Octant.buildFather tc a) (Octant.buildFather tc b).
Proof.
  unfold sameCell, Octant.cell. intros [= Hl Hx Hy Hz]. cbn.
  by rewrite Hl, Hx, Hy, Hz.
Qed.

(** The halo bits of a face leave the new-octant flags alone: a cell has
    at most six faces. *)
Lemma applyPbound_kin bits o :
  (length bits <= 6)%nat -> kin o (ParaTree.applyPbound bits o).
Proof.
  unfold ParaTree.applyPbound. intros Hlen.
  assert (Hgen : forall (ps : list (Z * bool)) o',
             Forall (fun p => 0 <= fst p < 6) ps ->
             kin o o' ->
             kin o (fold_left (fun o'' p => Octant.setPbound (fst p) (snd p) o'') ps o')).
  { induction ps as [|p ps IH]; intros o' Hps Hk; [exact Hk|].
    inversion Hps as [|? ? Hp Hps']; subst. simpl. apply IH; [done|].
    eapply kin_trans; [exact Hk|].
    unfold kin, Octant.setPbound, Octant.set_info, Octant.getIsNewR, Octant.getIsNewC.
    split; [reflexivity|].
    split.
    - symmetry. rewrite get_info_set_ne; [by destruct o'|].
      unfold Octant.INFO_PBOUNDFACE0, Octant.INFO_NEW4REFINEMENT. lia.
    - symmetry. rewrite get_info_set_ne; [by destruct o'|].
      unfold Octant.INFO_PBOUNDFACE0, Octant.INFO_NEW4COARSENING. lia. }
  apply Hgen; [|apply kin_refl].
  apply List.Forall_forall. intros p Hp.
  apply list_elem_of_In, list_elem_of_lookup in Hp as [i Hi].
  apply lookup_zip_with_Some in Hi as (a & b & -> & Ha & Hb).
  apply lookup_lt_Some in Hb as Hlt.
  rewrite iota_lookup in Ha by lia.
  injection Ha as <-. simpl. lia.
Qed.

End Flags.

Section Pointwise.

(** Markers are written octant by octant: the list keeps its cells and
    its flags. *)
Lemma applyMarkers_kin ms octs : Forall2 kin octs (ParaTree.applyMarkers ms octs).
Proof.
  apply Forall2_same_length_lookup_2.
  - unfold ParaTree.applyMarkers. by rewrite length_imap.
  - intros i x y Hx Hy. unfold ParaTree.applyMarkers in Hy.
    rewrite list_lookup_imap, Hx in Hy. simpl in Hy. injection Hy as <-.
    destruct (ms !! i); [apply kin_setMarker|apply kin_refl].
Qed.

Lemma map_setMarker_kin m octs : Forall2 kin octs (map (Octant.setMarker m) octs).
Proof. induction octs; simpl; constructor; [apply kin_setMarker|done]. Qed.

Lemma Forall2_kin_trans a b c : Forall2 kin a b -> Forall2 kin b c -> Forall2 kin a c.
Proof.
  intros Hab. revert c. induction Hab as [|x y l k Hxy Hlk IH]; intros c Hbc.
  - inversion Hbc. constructor.
  - inversion Hbc as [|? z ? k' Hyz Hk']; subst. constructor.
    + by eapply kin_trans.
    + by apply IH.
Qed.

Lemma Forall2_kin_refl a : Forall2 kin a a.
Proof. induction a; constructor; [apply kin_refl|done]. Qed.

Lemma Forall2_kin_newC a b :
  Forall2 kin a b -> Forall (fun o => Octant.getIsNewC o = false) a ->
  Forall (fun o => Octant.getIsNewC o = false) b.
Proof.
  induction 1 as [|x y l k (_ & _ & Hc) _ IH]; intros Ha; [constructor|].
  inversion Ha; subst. constructor; [congruence|by apply IH].
Qed.

Lemma Forall2_kin_newR a b :
  Forall2 kin a b -> Forall (fun o => Octant.getIsNewR o = false) a ->
  Forall (fun o => Octant.getIsNewR o = false) b.
Proof.
  induction 1 as [|x y l k (_ & Hr & _) _ IH]; intros Ha; [constructor|].
  inversion Ha; subst. constructor; [congruence|by apply IH].
Qed.

Lemma Forall2_kin_sameCell a b : Forall2 kin a b -> Forall2 sameCell a b.
Proof. intros H. eapply Forall2_impl; [exact H|]. by intros x y (? & _). Qed.

Lemma map_clearNew_cells octs : Forall2 sameCell octs (map ParaTree.clearNew octs).
Proof. induction octs; simpl; constructor; [apply clearNew_cell|done]. Qed.

Lemma map_clearNew_newR octs :
  Forall (fun o => Octant.getIsNewR o = false) (map ParaTree.clearNew octs).
Proof. apply List.Forall_forall. intros o (x & <- & _)%in_map_iff. apply clearNew_newR. Qed.

Lemma map_clearNew_newC octs :
  Forall (fun o => Octant.getIsNewC o = false) (map ParaTree.clearNew octs).
Proof. apply List.Forall_forall. intros o (x & <- & _)%in_map_iff. apply clearNew_newC. Qed.

Lemma Forall2_sameCell_trans a b c :
  Forall2 sameCell a b -> Forall2 sameCell b c -> Forall2 sameCell a c.
Proof.
  intros Hab. revert c. induction Hab as [|x y l k Hxy Hlk IH]; intros c Hbc.
  - inversion Hbc. constructor.
  - inversion Hbc as [|? z ? k' Hyz Hk']; subst. constructor.
    + unfold sameCell in *. congruence.
    + by apply IH.
Qed.

Lemma sameCell_at a b i y :
  Forall2 sameCell a b -> Mach.at_ b i = Some y ->
  exists x, Mach.at_ a i = Some x /\ sameCell x y.
Proof.
  unfold Mach.at_. intros H Hy. destruct (i <? 0); [discriminate|].
  destruct (Forall2_lookup_r _ _ _ _ _ H Hy) as (x & Hx & Hxy). eauto.
Qed.

End Pointwise.

Section RefineLists.

Variable tc : TreeConstants.t.

Lemma refineOctant_nonempty o :
  1 <= TreeConstants.nChildren tc -> LocalTree.refineOctant tc o <> [].
Proof.
  intros Hn. unfold LocalTree.refineOctant, Octant.buildChildren.
  destruct (LocalTree.splits tc o).
  - destruct (Z.to_nat (TreeConstants.nChildren tc)) as [|k] eqn:Hk; [lia|].
    unfold Mach.iota. simpl. discriminate.
  - destruct (0 <? Octant.getMarker o); discriminate.
Qed.

(** What a pass makes of one octant: its children, which are new by
    refinement, or the octant itself up to its marker. *)
Lemma refineOctant_cases o c :
  In c (LocalTree.refineOctant tc o) ->
  (exists k, 0 <= k < TreeConstants.nChildren tc /\ c = Octant.child tc k o) \/
  (kin o c /\ LocalTree.refineOctant tc o = [c]).
Proof.
  unfold LocalTree.refineOctant, Octant.buildChildren.
  destruct (LocalTree.splits tc o).
  - intros (k & <- & Hk)%in_map_iff. left. exists k. split; [|done].
    unfold Mach.iota in Hk. apply in_map_iff in Hk as (i & <- & Hi%in_seq). lia.
  - destruct (0 <? Octant.getMarker o); intros [<-|[]]; right.
    + split; [apply kin_setMarker|done].
    + split; [apply kin_refl|done].
Qed.

(** The octant and the map entry found at one index of the new lists
    come from one index of the old ones. *)
Lemma refine_lookup (l : list Octant.t) (js : list Z) idx c :
  length l = length js ->
  flat_map (LocalTree.refineOctant tc) l !! idx = Some c ->
  exists k o j, l !! k = Some o /\ js !! k = Some j /\
    LocalTree.refineMap tc l js !! idx = Some j /\
    In c (LocalTree.refineOctant tc o).
Proof.
  unfold LocalTree.refineMap.
  revert js idx. induction l as [|o r IH]; intros js idx Hlen Hc; [done|].
  destruct js as [|j js]; [done|]. simpl in *.
  destruct (decide (idx < length (LocalTree.refineOctant tc o))%nat) as [Hlt|Hge].
  - rewrite lookup_app_l in Hc by done.
    exists 0%nat, o, j. repeat split.
    + rewrite lookup_app_l by (by rewrite length_replicate).
      by apply lookup_replicate_2.
    + apply list_elem_of_In. by apply list_elem_of_lookup_2 in Hc.
  - rewrite lookup_app_r in Hc by lia.
    destruct (IH js _ ltac:(lia) Hc) as (k & o' & j' & Hk & Hj & Hm & Hin).
    exists (S k), o', j'. repeat split; [done|done| |done].
    rewrite lookup_app_r by (rewrite length_replicate; lia).
    by rewrite length_replicate.
Qed.

Lemma refineMap_length (l : list Octant.t) (js : list Z) :
  length l = length js ->
  length (LocalTree.refineMap tc l js) = length (flat_map (LocalTree.refineOctant tc) l).
Proof.
  unfold LocalTree.refineMap.
  revert js. induction l as [|o r IH]; intros js Hlen; destruct js as [|j js]; try done.
  simpl in *. rewrite !length_app, length_replicate. f_equal. apply IH. lia.
Qed.

(** The new lists, entry by entry. *)
Lemma refine_zip (l : list Octant.t) (js : list Z) :
  length l = length js ->
  zip (flat_map (LocalTree.refineOctant tc) l) (LocalTree.refineMap tc l js) =
  flat_map (fun x => map (fun c => (c, snd x)) (LocalTree.refineOctant tc (fst x)))
           (zip l js).
Proof.
  unfold LocalTree.refineMap.
  revert js. induction l as [|o r IH]; intros js Hlen; destruct js as [|j js]; try done.
  simpl in *. rewrite zip_with_app by (by rewrite length_replicate).
  f_equal; [|apply IH; lia].
  generalize (LocalTree.refineOctant tc o). intros cs.
  induction cs as [|c cs IHc]; simpl; [done|]. by rewrite IHc.
Qed.

End RefineLists.

Section Families.

Variable tc : TreeConstants.t.

(** The octant of an entry, when it is new by coarsening, stands for a
    family of the lists [olds] and [ghosts]: it is the parent of the
    owned octants that start at the index of the entry, all of the family
    but the ghosts of [G], and of the ghosts of [G]. *)
Definition family (olds ghosts : list Octant.t) (G : list Z) (x : Octant.t * Z) : Prop :=
  Octant.getIsNewC (fst x) = true ->
  0 <= snd x /\
  (length G <= Z.to_nat (TreeConstants.nChildren tc))%nat /\
  (forall i, (i < Z.to_nat (TreeConstants.nChildren tc) - length G)%nat ->
     exists c, olds !! (Z.to_nat (snd x) + i)%nat = Some c /\
               sameCell (Octant.buildFather tc c) (fst x)) /\
  (forall g, In g G ->
     exists c, Mach.at_ ghosts g = Some c /\
               sameCell (Octant.buildFather tc c) (fst x)).

(** Every entry stands for a family of owned octants; the last one may
    take the ghosts of [G]. *)
Fixpoint families (olds ghosts : list Octant.t) (G : list Z)
    (entries : list (Octant.t * Z)) : Prop :=
  match entries with
  | [] => True
  | x :: rest =>
      match rest with
      | [] => family olds ghosts G x
      | _ :: _ => family olds ghosts [] x /\ families olds ghosts G rest
      end
  end.

Definition sameEntry (x y : Octant.t * Z) : Prop := kin (fst x) (fst y) /\ snd x = snd y.

Lemma family_kin olds ghosts G x y :
  sameEntry x y -> family olds ghosts G x -> family olds ghosts G y.
Proof.
  intros [(Hc & _ & Hn) Hs] Hx Hy. rewrite <- Hn in Hy.
  destruct (Hx Hy) as (H0 & HG & Ho & Hg). rewrite <- Hs.
  unfold sameCell in *. split; [done|]. split; [done|]. split.
  - intros i Hi. destruct (Ho i Hi) as (c & ? & ?). exists c. split; [done|congruence].
  - intros g Hin. destruct (Hg g Hin) as (c & ? & ?). exists c. split; [done|congruence].
Qed.

Lemma family_cells olds ghosts olds' ghosts' G x :
  Forall2 sameCell olds' olds -> Forall2 sameCell ghosts' ghosts ->
  family olds ghosts G x -> family olds' ghosts' G x.
Proof.
  intros Ho Hg Hx Hn. destruct (Hx Hn) as (H0 & HG & Hown & Hgh).
  split; [done|]. split; [done|]. split.
  - intros i Hi. destruct (Hown i Hi) as (c & Hc & Hcell).
    destruct (Forall2_lookup_r _ _ _ _ _ Ho Hc) as (c' & Hc' & Hcc).
    exists c'. split; [done|].
    pose proof (buildFather_cell tc _ _ Hcc). unfold sameCell in *. congruence.
  - intros g Hin. destruct (Hgh g Hin) as (c & Hc & Hcell).
    destruct (sameCell_at _ _ _ _ Hg Hc) as (c' & Hc' & Hcc).
    exists c'. split; [done|].
    pose proof (buildFather_cell tc _ _ Hcc). unfold sameCell in *. congruence.
Qed.

Lemma family_old olds ghosts G x :
  Octant.getIsNewC (fst x) = false -> family olds ghosts G x.
Proof. intros H H'. congruence. Qed.

Lemma families_cons olds ghosts G x rest :
  family olds ghosts [] x -> (rest = [] -> family olds ghosts G x) ->
  families olds ghosts G rest ->
  families olds ghosts G (x :: rest).
Proof. intros H1 H2 H3. destruct rest; simpl; [by apply H2|done]. Qed.

Lemma families_old olds ghosts G entries :
  Forall (fun x => Octant.getIsNewC (fst x) = false) entries ->
  families olds ghosts G entries.
Proof.
  induction 1 as [|x rest Hx Hrest IH]; [done|].
  apply families_cons; [by apply family_old|intros _; by apply family_old|done].
Qed.

Lemma families_app olds ghosts G a b :
  Forall (family olds ghosts []) a -> families olds ghosts G b -> b <> [] ->
  families olds ghosts G (a ++ b).
Proof.
  intros Ha Hb Hne. induction Ha as [|x a Hx Ha IH]; [done|].
  simpl. apply families_cons; [done| |done].
  intros Hnil. by destruct a, b.
Qed.

Lemma families_cells olds ghosts olds' ghosts' G entries :
  Forall2 sameCell olds' olds -> Forall2 sameCell ghosts' ghosts ->
  families olds ghosts G entries -> families olds' ghosts' G entries.
Proof.
  intros Ho Hg. induction entries as [|x rest IH]; [done|].
  destruct rest as [|y rest]; simpl.
  - by apply family_cells.
  - intros [Hx Hr]. split; [by eapply family_cells|by apply IH].
Qed.

Lemma families_kin olds ghosts G entries entries' :
  Forall2 sameEntry entries entries' ->
  families olds ghosts G entries -> families olds ghosts G entries'.
Proof.
  induction 1 as [|x y rest rest' Hxy Hrest IH]; [done|].
  destruct Hrest as [|x2 y2 rest rest' Hxy2 Hrest]; simpl.
  - by apply family_kin.
  - intros [Hx Hr]. split; [by eapply family_kin|]. apply IH. exact Hr.
Qed.

(** The family of the entry at an index: with the ghosts when it is the
    last one, whole otherwise. *)
Lemma families_lookup olds ghosts G entries idx x :
  families olds ghosts G entries -> entries !! idx = Some x ->
  family olds ghosts (if decide (S idx = length entries) then G else []) x.
Proof.
  revert idx. induction entries as [|y rest IH]; intros idx Hf Hx; [done|].
  destruct idx as [|idx]; simpl in Hx.
  - injection Hx as ->. destruct rest as [|z rest]; simpl in *.
    + exact Hf.
    + exact (proj1 Hf).
  - destruct rest as [|z rest]; [done|]. destruct Hf as [_ Hr].
    specialize (IH idx Hr Hx). simpl length in *.
    destruct (decide (S idx = S (length rest))), (decide (S (S idx) = S (S (length rest))));
      try lia; exact IH.
Qed.

Lemma zip_sameEntry (a b : list Octant.t) (m : list Z) :
  Forall2 kin a b -> Forall2 sameEntry (zip a m) (zip b m).
Proof.
  intros H. revert m. induction H as [|x y a b Hxy Hab IH]; intros m; [constructor|].
  destruct m as [|j m]; simpl; [constructor|]. constructor; [by split|apply IH].
Qed.

(** A refinement pass keeps the families: an entry that stays keeps its
    place in the order, and the children are not new by coarsening. *)
Lemma families_refine olds ghosts G entries :
  1 <= TreeConstants.nChildren tc ->
  families olds ghosts G entries ->
  families olds ghosts G
    (flat_map (fun x => map (fun c => (c, snd x)) (LocalTree.refineOctant tc (fst x)))
              entries).
Proof.
  intros Hn.
  assert (Hone : forall G' x, family olds ghosts G' x ->
            families olds ghosts G'
              (map (fun c => (c, snd x)) (LocalTree.refineOctant tc (fst x))) /\
            Forall (family olds ghosts G')
              (map (fun c => (c, snd x)) (LocalTree.refineOctant tc (fst x)))).
  { intros G' x Hx.
    assert (Hall : Forall (family olds ghosts G')
              (map (fun c => (c, snd x)) (LocalTree.refineOctant tc (fst x)))).
    { apply List.Forall_forall. intros y (c & <- & Hc)%in_map_iff.
      destruct (refineOctant_cases tc _ _ Hc) as [(k & _ & ->)|[Hk _]].
      - apply family_old. apply child_newC.
      - eapply family_kin; [|exact Hx]. by split. }
    split; [|exact Hall].
    destruct (LocalTree.refineOctant tc (fst x)) as [|c cs] eqn:Hr; [done|].
    assert (Hc : In c (LocalTree.refineOctant tc (fst x))) by (rewrite Hr; by left).
    destruct (refineOctant_cases tc _ _ Hc) as [(k & _ & ->)|[Hk Hsingle]].
    - apply families_old. apply List.Forall_forall.
      intros y (c' & <- & Hc')%in_map_iff. rewrite <- Hr in Hc'.
      destruct (refineOctant_cases tc _ _ Hc') as [(k' & _ & ->)|[_ Hs]].
      + apply child_newC.
      + rewrite Hs in Hr. injection Hr as -> _. apply child_newC.
    - rewrite Hsingle in Hr. injection Hr as <-. simpl.
      eapply family_kin; [|exact Hx]. by split. }
  induction entries as [|x rest IH]; [done|].
  intros Hf. simpl flat_map. destruct rest as [|y rest].
  - simpl. rewrite app_nil_r. by apply Hone.
  - destruct Hf as [Hx Hr]. apply families_app.
    + by apply Hone.
    + by apply IH.
    + simpl. intros Hnil. apply app_eq_nil in Hnil as [Hnil _].
      apply map_eq_nil in Hnil. by apply refineOctant_nonempty in Hnil.
Qed.

End Families.

Section Scan.

Variable tc : TreeConstants.t.
Variables L ghosts : list Octant.t.

Lemma sibling_cell a b :
  Octant.sibling tc a b = true ->
  sameCell (Octant.buildFather tc b) (Octant.buildFather tc a).
Proof. unfold Octant.sibling, sameCell. intros H%bool_decide_eq_true. done. Qed.

Lemma ghostBros_In o g :
  In g (LocalTree.ghostBros tc o ghosts) ->
  exists c, Mach.at_ ghosts g = Some c /\ Octant.sibling tc o c = true.
Proof.
  unfold LocalTree.ghostBros. intros (p & <- & Hp)%in_map_iff.
  apply filter_In in Hp as [Hp Hs].
  apply list_elem_of_In, list_elem_of_lookup in Hp as [i Hi].
  apply lookup_zip_with_Some in Hi as (a & b & -> & Ha & Hb).
  apply lookup_lt_Some in Hb as Hlt.
  rewrite iota_lookup in Ha by lia. injection Ha as <-.
  exists b. simpl in *. split; [|done]. by rewrite at_nat.
Qed.

Lemma keepOctant_newC o :
  Octant.getIsNewC (LocalTree.keepOctant o) = Octant.getIsNewC o.
Proof. unfold LocalTree.keepOctant. by destruct (LocalTree.wantsCoarse o). Qed.

(** The scan of a coarsening pass over octants none of which is new by
    coarsening: the parents it makes stand for the families they
    replace, and only the last one takes ghosts. *)
Lemma coarseScan_families l skip j :
  0 <= j -> drop (Z.to_nat j) L = l ->
  Forall (fun o => Octant.getIsNewC o = false) l ->
  families tc L ghosts (snd (LocalTree.coarseScan tc ghosts skip j l))
           (fst (LocalTree.coarseScan tc ghosts skip j l)) /\
  (fst (LocalTree.coarseScan tc ghosts skip j l) = [] ->
   snd (LocalTree.coarseScan tc ghosts skip j l) = []) /\
  Forall (fun x => j <= snd x < j + Z.of_nat (length l))
         (fst (LocalTree.coarseScan tc ghosts skip j l)).
Proof.
  revert skip j. induction l as [|o r IH]; intros skip j Hj Hdrop Hnew.
  { simpl. repeat split; constructor. }
  inversion Hnew as [|? ? Ho Hr]; subst.
  assert (Hhead : L !! Z.to_nat j = Some o).
  { rewrite <- (Nat.add_0_r (Z.to_nat j)), <- lookup_drop, Hdrop. reflexivity. }
  assert (Hdrop' : drop (Z.to_nat (j + 1)) L = r).
  { rewrite Z2Nat.inj_add by lia. change (Z.to_nat 1) with 1%nat.
    rewrite Nat.add_1_r. rewrite (drop_S _ _ _ Hhead) in Hdrop. by injection Hdrop. }
  assert (Hshift : forall k, Forall (fun x => j + 1 <= snd x < j + 1 + Z.of_nat (length r))
                     (fst (LocalTree.coarseScan tc ghosts k (j + 1) r)) ->
                   Forall (fun x => j <= snd x < j + Z.of_nat (length (o :: r)))
                     (fst (LocalTree.coarseScan tc ghosts k (j + 1) r))).
  { intros k H. eapply Forall_impl; [exact H|]. simpl. intros; lia. }
  rewrite coarseScan_cons.
  destruct skip as [|k].
  2:{ destruct (IH k (j + 1) ltac:(lia) Hdrop' Hr) as (H1 & H2 & H3).
      split; [done|]. split; [done|]. by apply Hshift. }
  destruct (LocalTree.familyAt tc (o :: r)) eqn:Hfam.
  { destruct (IH (Z.to_nat (TreeConstants.nChildren tc) - 1)%nat (j + 1)
                ltac:(lia) Hdrop' Hr) as (H1 & H2 & H3).
    cbn [fst snd]. split; [|split].
    - assert (Hx : family tc L ghosts [] (Octant.buildFather tc o, j)).
      { intros _. split; [done|]. split; [simpl; lia|]. split; [|by intros g []].
        intros i Hi. simpl in Hi. rewrite Nat.sub_0_r in Hi. cbn [fst snd].
        unfold LocalTree.familyAt in Hfam.
        apply andb_true_iff in Hfam as [Hfam Hall].
        apply andb_true_iff in Hfam as [_ Hlen]. apply Nat.leb_le in Hlen.
        rewrite forallb_forall in Hall.
        destruct (lookup_lt_is_Some_2 (take (Z.to_nat (TreeConstants.nChildren tc)) (o :: r)) i)
          as [c Hc].
        { rewrite length_take. lia. }
        exists c. split.
        - rewrite lookup_take_lt in Hc by done.
          by rewrite <- lookup_drop, Hdrop.
        - apply list_elem_of_lookup_2, list_elem_of_In, Hall in Hc.
          apply andb_true_iff in Hc as [Hc _]. by apply sibling_cell. }
      apply families_cons; [done| |done].
      intros Hnil. by rewrite (H2 Hnil).
    - discriminate.
    - constructor; [simpl; lia|by apply Hshift]. }
  destruct (LocalTree.trailingFamily tc ghosts (o :: r)) eqn:Htrail.
  { cbn [fst snd]. split; [|split].
    - simpl. intros _. cbn [fst snd].
      unfold LocalTree.trailingFamily in Htrail.
      repeat (apply andb_true_iff in Htrail as [Htrail ?]).
      match goal with H : (_ =? _)%nat = true |- _ => apply Nat.eqb_eq in H; rename H into Hsum end.
      match goal with H : forallb _ (o :: r) = true |- _ =>
        rewrite forallb_forall in H; rename H into Hall end.
      split; [done|]. split; [lia|]. split.
      + intros i Hi.
        destruct (lookup_lt_is_Some_2 (o :: r) i) as [c Hc]; [lia|].
        exists c. split.
        * by rewrite <- lookup_drop, Hdrop.
        * apply list_elem_of_lookup_2, list_elem_of_In, Hall in Hc.
          apply andb_true_iff in Hc as [Hc _]. by apply sibling_cell.
      + intros g Hg. destruct (ghostBros_In _ _ Hg) as (c & Hc & Hs).
        exists c. split; [done|]. by apply sibling_cell.
    - discriminate.
    - repeat constructor; simpl; lia. }
  destruct (IH 0%nat (j + 1) ltac:(lia) Hdrop' Hr) as (H1 & H2 & H3).
  cbn [fst snd]. split; [|split].
  - apply families_cons; [| |done].
    + apply family_old. cbn [fst]. by rewrite keepOctant_newC.
    + intros _. apply family_old. cbn [fst]. by rewrite keepOctant_newC.
  - discriminate.
  - constructor; [simpl; lia|by apply Hshift].
Qed.

End Scan.

Section Views.

Import ParaTree.
Variable E : Env.

(** One bit of partition bound per face: a row of the halo has at most
    six entries. *)
Definition haloRows : Prop :=
  forall s row, In row (haloPbound E s) -> (length row <= 6)%nat.

Definition octantsOf (s : t) : list Octant.t := LocalTree.m_octants (m_octree s).
Definition ghostsOf (s : t) : list Octant.t := LocalTree.m_ghosts (m_octree s).
Definition lastGhostBrosOf (s : t) : list Z := LocalTree.m_lastGhostBros (m_octree s).

(** What [getMapping] reads, up to markers and halo bits. *)
Definition sameView (s s' : t) : Prop :=
  Forall2 kin (octantsOf s) (octantsOf s') /\
  m_mapIdx s' = m_mapIdx s /\
  lastGhostBrosOf s' = lastGhostBrosOf s /\
  m_dim s' = m_dim s.

Lemma sameView_refl s : sameView s s.
Proof. split; [apply Forall2_kin_refl|done]. Qed.

Lemma sameView_trans a b c : sameView a b -> sameView b c -> sameView a c.
Proof.
  intros (H1 & H2 & H3 & H4) (H1' & H2' & H3' & H4').
  split; [by eapply Forall2_kin_trans|]. repeat split; congruence.
Qed.

Lemma updateAdapt_view s : sameView s (updateAdapt E s).
Proof.
  unfold updateAdapt. destruct (m_serial s); (split; [apply Forall2_kin_refl|done]).
Qed.

Lemma updateGlobalDesc_view s :
  sameView s (updateGlobalLasttDescMorton E (updateGlobalFirstDescMorton E s)).
Proof.
  unfold updateGlobalLasttDescMorton, updateGlobalFirstDescMorton. cbv zeta.
  repeat (destruct (emptyPartition _ _); cbn); (split; [apply Forall2_kin_refl|done]).
Qed.

Lemma updateAfterCoarse_view s : sameView s (updateAfterCoarse E s).
Proof.
  unfold updateAfterCoarse. cbv zeta.
  destruct (m_serial (updateAdapt E s)); [apply updateAdapt_view|].
  eapply sameView_trans; [apply updateAdapt_view|apply updateGlobalDesc_view].
Qed.

Lemma balance21_view verbose balanceNew s : sameView s (balance21 E verbose balanceNew s).
Proof. split; [apply applyMarkers_kin|done]. Qed.

Lemma balance21_ghosts verbose balanceNew s :
  Forall2 kin (ghostsOf s) (ghostsOf (balance21 E verbose balanceNew s)).
Proof. apply applyMarkers_kin. Qed.

Lemma computeGhostHalo_view s : haloRows -> sameView s (computeGhostHalo E s).
Proof.
  intros Hrows. split; [|done].
  unfold computeGhostHalo, octantsOf. cbn.
  apply Forall2_same_length_lookup_2; [by rewrite length_imap|].
  intros i x y Hx Hy. rewrite list_lookup_imap, Hx in Hy. simpl in Hy.
  injection Hy as <-.
  destruct (haloPbound E s !! i) as [row|] eqn:Hrow; [|apply kin_refl].
  apply applyPbound_kin, (Hrows s).
  apply list_elem_of_In. by apply list_elem_of_lookup_2 in Hrow.
Qed.

Lemma halo_view (serial : bool) s :
  haloRows -> sameView s (if serial then s else computeGhostHalo E s).
Proof. intros H. destruct serial; [apply sameView_refl|by apply computeGhostHalo_view]. Qed.

Lemma set_m_lastOp_view op s : sameView s (set_m_lastOp op s).
Proof. split; [apply Forall2_kin_refl|done]. Qed.

(** [startAdapt]: the flags are cleared and the map is the identity. *)
Lemma startAdapt_octants keepMap s :
  octantsOf (startAdapt keepMap s) = map clearNew (octantsOf s).
Proof. reflexivity. Qed.

Lemma startAdapt_mapIdx s :
  Mach.len (octantsOf s) < 2 ^ 32 ->
  m_mapIdx (startAdapt true s) = Mach.iota (length (octantsOf s)).
Proof.
  intros H. unfold startAdapt. cbn. unfold getNumOctants, LocalTree.getNumOctants.
  unfold Mach.u32, Mach.wrap, octantsOf, Mach.len in *.
  rewrite Z.mod_small by lia. by rewrite Nat2Z.id.
Qed.

(** *** What [getMapping] returns *)

Lemma getMapping_single s idx j :
  Mach.at_ (m_mapIdx s) idx = Some j -> getIsNewC idx s = false ->
  getMapping E idx s = Eff.Ok ([j], [false]) s.
Proof.
  intros Hj Hn. unfold getMapping, Eff.bind, Eff.get, Eff.ret.
  apply at_Some_bounds in Hj as Hb.
  destruct (Z.leb_spec (Mach.len (m_mapIdx s)) idx); [lia|].
  rewrite Hn. unfold Mach.get0. by rewrite Hj.
Qed.

Lemma map_get0_iota (G : list Z) : map (Mach.get0 G) (Mach.iota (length G)) = G.
Proof.
  apply list_eq. intros i. rewrite list_lookup_fmap.
  destruct (decide (i < length G)%nat) as [Hlt|Hge].
  - rewrite iota_lookup by done. simpl. unfold Mach.get0. rewrite at_nat.
    destruct (lookup_lt_is_Some_2 G i Hlt) as [g Hg]. by rewrite Hg.
  - rewrite (proj2 (lookup_ge_None _ _)) by (rewrite iota_length; lia).
    symmetry. apply lookup_ge_None. lia.
Qed.

Lemma getMapping_family s idx j :
  Mach.at_ (m_mapIdx s) idx = Some j -> getIsNewC idx s = true ->
  Mach.len (octantsOf s) < 2 ^ 32 ->
  0 <= TreeConstants.nChildren (constants E s) ->
  let n := Z.to_nat (TreeConstants.nChildren (constants E s)) in
  let G := if decide (S (Z.to_nat idx) = length (octantsOf s))
           then lastGhostBrosOf s else [] in
  (length G <= n)%nat ->
  getMapping E idx s =
  Eff.Ok (map (fun i => Mach.u32 (j + i)) (Mach.iota (n - length G)) ++ G,
          replicate (n - length G) false ++ replicate (length G) true) s.
Proof.
  intros Hj Hn Hfit Hnc n G HG. unfold getMapping, Eff.bind, Eff.get, Eff.ret.
  apply at_Some_bounds in Hj as Hb.
  destruct (Z.leb_spec (Mach.len (m_mapIdx s)) idx); [lia|].
  rewrite Hn. unfold Mach.get0 at 1. rewrite Hj. cbn [default].
  assert (Hoct : exists o, getOctant idx s = Some o).
  { unfold getIsNewC in Hn. destruct (getOctant idx s); [eauto|discriminate]. }
  destruct Hoct as [o Ho]. apply at_Some_bounds in Ho.
  fold (octantsOf s) in Ho. fold (lastGhostBrosOf s).
  unfold getNumOctants, LocalTree.getNumOctants. fold (octantsOf s).
  unfold Mach.len in *.
  assert (Hu : Mach.u32 (Mach.u32 (Z.of_nat (length (octantsOf s))) - 1) =
               Z.of_nat (length (octantsOf s)) - 1).
  { unfold Mach.u32, Mach.wrap. rewrite (Z.mod_small (Z.of_nat _)) by lia.
    apply Z.mod_small. lia. }
  rewrite Hu. subst G n.
  destruct (Z.eqb_spec idx (Z.of_nat (length (octantsOf s)) - 1)) as [Heq|Hne].
  - destruct (decide _) as [_|Hd]; [|lia].
    replace (Z.to_nat (TreeConstants.nChildren (constants E s) -
                       Z.of_nat (length (lastGhostBrosOf s))))
      with (Z.to_nat (TreeConstants.nChildren (constants E s)) -
            length (lastGhostBrosOf s))%nat by lia.
    replace (Z.to_nat (TreeConstants.nChildren (constants E s) -
                       (TreeConstants.nChildren (constants E s) -
                        Z.of_nat (length (lastGhostBrosOf s)))))
      with (length (lastGhostBrosOf s)) by lia.
    by rewrite map_get0_iota.
  - destruct (decide _) as [Hd|_]; [lia|].
    rewrite Z.sub_diag. simpl length. rewrite Nat.sub_0_r. reflexivity.
Qed.

End Views.

Section GlobalRefine.

Import ParaTree.
Variable E : Env.

Lemma globalRefinePass_once s : fst (globalRefinePass E s) = false.
Proof.
  unfold globalRefinePass, lift_pass, LocalTree.globalRefine, LocalTree.refine.
  cbn. induction (LocalTree.m_octants (m_octree s)) as [|o l IH]; [done|].
  simpl. rewrite IH. by rewrite andb_false_r.
Qed.

Lemma globalRefinePass_octants s :
  octantsOf (snd (globalRefinePass E s)) =
  flat_map (LocalTree.refineOctant (constants E s))
           (map (Octant.setMarker 1) (octantsOf s)).
Proof. reflexivity. Qed.

Lemma globalRefinePass_mapIdx s :
  m_mapIdx (snd (globalRefinePass E s)) =
  LocalTree.refineMap (constants E s) (map (Octant.setMarker 1) (octantsOf s)) (m_mapIdx s).
Proof. reflexivity. Qed.

(** The state [adaptGlobalRefine] returns. *)
Definition afterGlobalRefine (mapper_flag : bool) (s : t) : t :=
  let s2 := snd (globalRefinePass E (startAdapt true s)) in
  let s3 := updateAdapt E s2 in
  set_m_lastOp (adaptOperation mapper_flag)
    (if m_serial s then s3 else computeGhostHalo E s3).

Lemma adaptGlobalRefine_returns fuel mapper_flag s :
  exists done, adaptGlobalRefine E (S fuel) mapper_flag s =
               Some (done, afterGlobalRefine mapper_flag s).
Proof.
  unfold adaptGlobalRefine. cbv zeta.
  rewrite loop_once by apply globalRefinePass_once.
  unfold bindO. eexists. reflexivity.
Qed.

Lemma afterGlobalRefine_view mapper_flag s :
  haloRows E ->
  sameView (snd (globalRefinePass E (startAdapt true s))) (afterGlobalRefine mapper_flag s).
Proof.
  intros Hrows. unfold afterGlobalRefine. cbv zeta.
  eapply sameView_trans; [apply updateAdapt_view|].
  eapply sameView_trans; [by apply (halo_view E (m_serial s))|].
  apply set_m_lastOp_view.
Qed.

(** After a global refinement every octant new by refinement maps to one
    old index, the one of the octant it is a child of. *)
Lemma globalRefine_mapping mapper_flag s idx :
  haloRows E ->
  Mach.len (octantsOf s) < 2 ^ 32 ->
  getIsNewR idx (afterGlobalRefine mapper_flag s) = true ->
  exists j k p c,
    getMapping E idx (afterGlobalRefine mapper_flag s) =
      Eff.Ok ([j], [false]) (afterGlobalRefine mapper_flag s) /\
    getOctant j s = Some p /\
    getOctant idx (afterGlobalRefine mapper_flag s) = Some c /\
    0 <= k < TreeConstants.nChildren (constants E s) /\
    sameCell c (Octant.child (constants E s) k p).
Proof.
  intros Hrows Hfit Hnew.
  destruct (afterGlobalRefine_view mapper_flag s Hrows) as (Hoct & Hmap & _ & _).
  set (s' := afterGlobalRefine mapper_flag s) in *.
  unfold getIsNewR in Hnew.
  destruct (getOctant idx s') as [c|] eqn:Hc; [|discriminate]. simpl in Hnew.
  pose proof Hc as Hc0. unfold getOctant, Mach.at_ in Hc.
  destruct (Z.ltb_spec idx 0) as [|Hidx]; [discriminate|]. fold (octantsOf s') in Hc.
  destruct (Forall2_lookup_r _ _ _ _ _ Hoct Hc) as (c2 & Hc2 & (Hcell & HnR & HnC)).
  rewrite globalRefinePass_octants, startAdapt_octants in Hc2.
  rewrite globalRefinePass_mapIdx, startAdapt_octants, startAdapt_mapIdx in Hmap by done.
  change (constants E (startAdapt true s)) with (constants E s) in *.
  assert (Hlen : length (map (Octant.setMarker 1) (map clearNew (octantsOf s))) =
                 length (Mach.iota (length (octantsOf s))))
    by (by rewrite !length_map, iota_length).
  destruct (refine_lookup (constants E s) _ _ _ _ Hlen Hc2)
    as (i & o & j & Ho & Hj & Hm & Hin).
  rewrite !list_lookup_fmap in Ho.
  destruct (octantsOf s !! i) as [p|] eqn:Hp; [|discriminate]. simpl in Ho.
  injection Ho as <-.
  apply lookup_lt_Some in Hp as Hlt. rewrite iota_lookup in Hj by done.
  injection Hj as <-.
  destruct (refineOctant_cases _ _ _ Hin) as [(k & Hk & ->)|[(_ & HR & _) _]].
  2:{ change (Octant.getIsNewR (Octant.setMarker 1 (clearNew p)))
        with (Octant.getIsNewR (clearNew p)) in HR.
      rewrite clearNew_newR in HR. congruence. }
  exists (Z.of_nat i), k, p, c. split; [|split; [|split; [|split]]].
  - apply getMapping_single.
    + unfold Mach.at_. destruct (Z.ltb_spec idx 0); [lia|]. by rewrite Hmap.
    + unfold getIsNewC. rewrite Hc0. simpl. rewrite <- HnC. apply child_newC.
  - unfold getOctant. by rewrite at_nat.
  - done.
  - done.
  - unfold sameCell in *. rewrite <- Hcell. reflexivity.
Qed.

End GlobalRefine.

Section GlobalCoarse.

Import ParaTree.
Variable E : Env.

(** The map of a state stands for the families of the octants [olds] and
    of the ghosts [oldGhosts]. *)
Definition mapped (d : Z) (olds oldGhosts : list Octant.t) (s : t) : Prop :=
  m_dim s = d /\
  length (octantsOf s) = length (m_mapIdx s) /\
  families (treeConstants E d) olds oldGhosts (lastGhostBrosOf s)
           (zip (octantsOf s) (m_mapIdx s)).

Lemma mapped_view d olds oldGhosts s s' :
  sameView s s' -> mapped d olds oldGhosts s -> mapped d olds oldGhosts s'.
Proof.
  intros (Hoct & Hmap & Hbros & Hdim) (Hd & Hlen & Hfam).
  split; [congruence|]. split.
  - rewrite Hmap, <- Hlen. symmetry. by eapply Forall2_length.
  - rewrite Hmap, Hbros. eapply families_kin; [|exact Hfam]. by apply zip_sameEntry.
Qed.

Lemma refinePass_mapped d olds oldGhosts s :
  1 <= TreeConstants.nChildren (treeConstants E d) ->
  mapped d olds oldGhosts s -> mapped d olds oldGhosts (snd (refinePass E s)).
Proof.
  intros Hn (Hd & Hlen & Hfam).
  assert (Hoct : octantsOf (snd (refinePass E s)) =
                 flat_map (LocalTree.refineOctant (treeConstants E d)) (octantsOf s)).
  { unfold constants. by rewrite <- Hd. }
  assert (Hmap : m_mapIdx (snd (refinePass E s)) =
                 LocalTree.refineMap (treeConstants E d) (octantsOf s) (m_mapIdx s)).
  { unfold constants. by rewrite <- Hd. }
  split; [exact Hd|]. split.
  - rewrite Hoct, Hmap. symmetry. by apply refineMap_length.
  - rewrite Hoct, Hmap, refine_zip by done.
    change (lastGhostBrosOf (snd (refinePass E s))) with (lastGhostBrosOf s).
    by apply families_refine.
Qed.

Lemma refine_loop_mapped d olds oldGhosts fuel s s' :
  1 <= TreeConstants.nChildren (treeConstants E d) ->
  loop fuel (refinePass E) s = Some s' ->
  mapped d olds oldGhosts s -> mapped d olds oldGhosts s'.
Proof.
  intros Hn. revert s. induction fuel as [|fuel IH]; intros s Hl Hm; [discriminate|].
  rewrite loop_S in Hl. destruct (fst (refinePass E s)).
  - apply (IH _ Hl). by apply refinePass_mapped.
  - injection Hl as <-. by apply refinePass_mapped.
Qed.

Lemma globalCoarsePass_once s : fst (globalCoarsePass E s) = false.
Proof.
  destruct (fst (globalCoarsePass E s)) eqn:Hf; [|done].
  unfold globalCoarsePass, lift_pass, LocalTree.globalCoarse in Hf. cbn [fst] in Hf.
  apply (coarse_more _ _ _ 1) in Hf; [lia|].
  unfold markersAtLeast. cbn.
  apply List.Forall_forall. intros o (x & <- & _)%in_map_iff. cbn. lia.
Qed.

Lemma zip_map_fst_snd {A B} (l : list (A * B)) : zip (map fst l) (map snd l) = l.
Proof. induction l as [|[a b] l IH]; simpl; [done|]. by rewrite IH. Qed.

Lemma at_iota n j : 0 <= j < Z.of_nat n -> Mach.at_ (Mach.iota n) j = Some j.
Proof.
  intros Hj. unfold Mach.at_. destruct (Z.ltb_spec j 0); [lia|].
  rewrite iota_lookup by lia. f_equal. lia.
Qed.

Lemma map_at_iota {A} n (l : list (A * Z)) :
  Forall (fun x => 0 <= snd x < Z.of_nat n) l ->
  map (fun p => default 0 (Mach.at_ (Mach.iota n) (snd p))) l = map snd l.
Proof.
  induction 1 as [|x l Hx Hl IH]; [done|]. simpl. rewrite IH. f_equal.
  by rewrite at_iota.
Qed.

(** The octants, the map and the ghost siblings a global coarsening pass
    leaves. *)
Definition coarseInput (s : t) : list Octant.t :=
  map (Octant.setMarker (-1)) (octantsOf s).
Definition coarseGhosts (s : t) : list Octant.t :=
  map (Octant.setMarker (-1)) (ghostsOf s).
Definition coarseLead (s : t) : nat :=
  fst (LocalTree.leadingAbsorbed (constants E s) (coarseGhosts s) (coarseInput s)).
Definition coarseResult (s : t) : list (Octant.t * Z) * list Z :=
  LocalTree.coarseScan (constants E s) (coarseGhosts s) 0 (Z.of_nat (coarseLead s))
    (drop (coarseLead s) (coarseInput s)).

Lemma globalCoarsePass_octants s :
  octantsOf (snd (globalCoarsePass E s)) = map fst (fst (coarseResult s)).
Proof. reflexivity. Qed.

Lemma globalCoarsePass_bros s :
  lastGhostBrosOf (snd (globalCoarsePass E s)) = snd (coarseResult s).
Proof. reflexivity. Qed.

Lemma globalCoarsePass_mapIdx s :
  m_mapIdx (snd (globalCoarsePass E s)) =
  match m_mapIdx s with
  | [] => []
  | _ => map (fun p => default 0 (Mach.at_ (m_mapIdx s) (snd p))) (fst (coarseResult s))
  end.
Proof. reflexivity. Qed.

Lemma globalCoarsePass_mapped olds oldGhosts s :
  m_mapIdx s = Mach.iota (length (octantsOf s)) ->
  Forall (fun o => Octant.getIsNewC o = false) (octantsOf s) ->
  Forall2 sameCell olds (octantsOf s) ->
  Forall2 sameCell oldGhosts (ghostsOf s) ->
  mapped (m_dim s) olds oldGhosts (snd (globalCoarsePass E s)).
Proof.
  intros Hmap Hnew Holds Hghosts.
  assert (HnewL : Forall (fun o => Octant.getIsNewC o = false) (coarseInput s)).
  { eapply Forall2_kin_newC; [apply map_setMarker_kin|exact Hnew]. }
  destruct (coarseScan_families (constants E s) (coarseInput s) (coarseGhosts s)
              (drop (coarseLead s) (coarseInput s)) 0 (Z.of_nat (coarseLead s))
              ltac:(lia) ltac:(by rewrite Nat2Z.id) ltac:(by apply Forall_drop))
    as (Hfam & Hnil & Hbounds).
  fold (coarseResult s) in Hfam, Hnil, Hbounds.
  assert (Hidx : m_mapIdx (snd (globalCoarsePass E s)) = map snd (fst (coarseResult s))).
  { rewrite globalCoarsePass_mapIdx, Hmap.
    assert (Hext : map (fun p => default 0 (Mach.at_ (Mach.iota (length (octantsOf s))) (snd p)))
                     (fst (coarseResult s)) = map snd (fst (coarseResult s))).
    { apply map_at_iota. eapply Forall_impl; [exact Hbounds|].
      intros x Hx. cbv beta in Hx. rewrite length_drop in Hx.
      unfold coarseInput in Hx. rewrite length_map in Hx. lia. }
    destruct (Mach.iota (length (octantsOf s))) eqn:Hi; [|exact Hext].
    destruct (octantsOf s) as [|o l] eqn:Ho; [|discriminate].
    unfold coarseResult, coarseInput. rewrite Ho. cbn [map]. by rewrite drop_nil. }
  split; [reflexivity|]. split.
  - rewrite Hidx, globalCoarsePass_octants. by rewrite !length_map.
  - rewrite Hidx, globalCoarsePass_octants, globalCoarsePass_bros, zip_map_fst_snd.
    change (treeConstants E (m_dim s)) with (constants E s).
    eapply families_cells; [| |exact Hfam].
    + eapply Forall2_sameCell_trans; [exact Holds|].
      apply Forall2_kin_sameCell, map_setMarker_kin.
    + eapply Forall2_sameCell_trans; [exact Hghosts|].
      apply Forall2_kin_sameCell, map_setMarker_kin.
Qed.

End GlobalCoarse.

Section GlobalAdaptMapping.

Import ParaTree.
Variable E : Env.

Lemma loop_single body fuel s s' :
  fst (body s) = false -> loop fuel body s = Some s' -> s' = snd (body s).
Proof.
  intros Hb Hl. destruct fuel as [|fuel]; [discriminate|].
  rewrite loop_S, Hb in Hl. by injection Hl.
Qed.

Lemma adaptGlobalCoarse_mapped fuel s done s' :
  haloRows E ->
  Mach.len (octantsOf s) < 2 ^ 32 ->
  1 <= TreeConstants.nChildren (constants E s) ->
  adaptGlobalCoarse E fuel true s = Some (done, s') ->
  mapped E (m_dim s) (octantsOf s) (ghostsOf s) s'.
Proof.
  intros Hrows Hfit Hn. unfold adaptGlobalCoarse. cbv zeta.
  set (s2 := balance21 E true false (startAdapt true s)).
  destruct (loop fuel (globalCoarsePass E) s2) as [s3|] eqn:H3; [|discriminate].
  cbn [bindO].
  set (s6 := balance21 E false true _).
  destruct (loop fuel (refinePass E) s6) as [s7|] eqn:H7; [|discriminate].
  cbn [bindO]. intros [= _ <-].
  apply loop_single in H3; [|apply globalCoarsePass_once].
  assert (Hkin2 : Forall2 kin (map clearNew (octantsOf s)) (octantsOf s2)).
  { apply (balance21_view E true false (startAdapt true s)). }
  assert (Hm3 : mapped E (m_dim s) (octantsOf s) (ghostsOf s) s3).
  { rewrite H3. apply (globalCoarsePass_mapped E (octantsOf s) (ghostsOf s) s2).
    - change (m_mapIdx s2) with (m_mapIdx (startAdapt true s)).
      rewrite startAdapt_mapIdx by done. f_equal.
      rewrite <- (Forall2_length _ _ _ Hkin2). by rewrite length_map.
    - eapply Forall2_kin_newC; [exact Hkin2|apply map_clearNew_newC].
    - eapply Forall2_sameCell_trans; [apply map_clearNew_cells|].
      by apply Forall2_kin_sameCell.
    - apply Forall2_kin_sameCell.
      apply (balance21_ghosts E true false (startAdapt true s)). }
  assert (Hm6 : mapped E (m_dim s) (octantsOf s) (ghostsOf s) s6).
  { eapply mapped_view; [|exact Hm3]. subst s6.
    eapply sameView_trans; [apply updateAfterCoarse_view|].
    eapply sameView_trans; [by apply (halo_view E (m_serial s))|].
    apply balance21_view. }
  assert (Hm7 : mapped E (m_dim s) (octantsOf s) (ghostsOf s) s7).
  { by eapply refine_loop_mapped. }
  eapply mapped_view; [|exact Hm7].
  eapply sameView_trans; [apply updateAdapt_view|].
  by apply (halo_view E (m_serial s)).
Qed.

Lemma adaptGlobalCoarse_total mapper_flag s :
  exists fuel r, adaptGlobalCoarse E fuel mapper_flag s = Some r.
Proof.
  unfold adaptGlobalCoarse. cbv zeta.
  set (s2 := balance21 E true false (startAdapt mapper_flag s)).
  set (s6 := balance21 E false true
               (if m_serial s then updateAfterCoarse E (snd (globalCoarsePass E s2))
                else computeGhostHalo E (updateAfterCoarse E (snd (globalCoarsePass E s2))))).
  destruct (refine_loop_total E s6) as (f & s7 & H7).
  exists (S f). eexists.
  rewrite loop_once by apply globalCoarsePass_once. cbn [bindO].
  fold s6. rewrite (loop_mono _ _ _ _ _ H7) by lia. cbn [bindO]. reflexivity.
Qed.

Lemma map_iota_ext (f g : Z -> Z) n :
  (forall i, (i < n)%nat -> f (Z.of_nat i) = g (Z.of_nat i)) ->
  map f (Mach.iota n) = map g (Mach.iota n).
Proof.
  intros H. unfold Mach.iota. rewrite !map_map. apply map_ext_in.
  intros i Hi%in_seq. apply H. lia.
Qed.

(** What [getMapping] returns for an octant new by coarsening when the
    map stands for the families of [olds] and [oldGhosts]. *)
Lemma mapped_getMapping d olds oldGhosts s idx :
  mapped E d olds oldGhosts s ->
  0 <= TreeConstants.nChildren (treeConstants E d) ->
  Mach.len olds < 2 ^ 32 ->
  Mach.len (octantsOf s) < 2 ^ 32 ->
  getIsNewC idx s = true ->
  exists j c G,
    getOctant idx s = Some c /\
    (length G <= Z.to_nat (TreeConstants.nChildren (treeConstants E d)))%nat /\
    getMapping E idx s =
      Eff.Ok (map (fun i => j + i)
                (Mach.iota (Z.to_nat (TreeConstants.nChildren (treeConstants E d)) - length G))
                ++ G,
              replicate (Z.to_nat (TreeConstants.nChildren (treeConstants E d)) - length G) false
                ++ replicate (length G) true) s /\
    (forall i, 0 <= i < TreeConstants.nChildren (treeConstants E d) - Mach.len G ->
       exists p, Mach.at_ olds (j + i) = Some p /\
                 sameCell (Octant.buildFather (treeConstants E d) p) c) /\
    (forall g, In g G ->
       exists p, Mach.at_ oldGhosts g = Some p /\
                 sameCell (Octant.buildFather (treeConstants E d) p) c).
Proof.
  intros (Hd & Hlen & Hfam) Hn Hfit Hfit' Hnew.
  pose proof Hnew as Hnew0. unfold getIsNewC in Hnew.
  destruct (getOctant idx s) as [c|] eqn:Hc; [|discriminate]. simpl in Hnew.
  pose proof Hc as Hc0. unfold getOctant, Mach.at_ in Hc.
  destruct (Z.ltb_spec idx 0) as [|Hidx]; [discriminate|]. fold (octantsOf s) in Hc.
  destruct (lookup_lt_is_Some_2 (m_mapIdx s) (Z.to_nat idx)) as [j Hj].
  { rewrite <- Hlen. by apply lookup_lt_Some in Hc. }
  assert (Hentry : zip (octantsOf s) (m_mapIdx s) !! Z.to_nat idx = Some (c, j)).
  { apply lookup_zip_with_Some. by exists c, j. }
  pose proof (families_lookup _ _ _ _ _ _ _ Hfam Hentry) as Hx.
  rewrite length_zip_with, <- Hlen, Nat.min_id in Hx.
  set (G := if decide (S (Z.to_nat idx) = length (octantsOf s))
            then lastGhostBrosOf s else []) in *.
  destruct (Hx Hnew) as (Hj0 & HG & Hown & Hgh). cbn [fst snd] in *.
  exists j, c, G. split; [done|]. split; [done|]. split; [|split].
  - rewrite (getMapping_family E s idx j); unfold constants; rewrite ?Hd; try done.
    + fold G. rewrite (map_iota_ext (fun i => Mach.u32 (j + i)) (fun i => j + i)); [done|].
      intros i Hi.
      destruct (Hown i Hi) as (p & Hp & _). apply lookup_lt_Some in Hp.
      unfold Mach.u32, Mach.wrap, Mach.len in *. apply Z.mod_small. lia.
    + unfold Mach.at_. destruct (Z.ltb_spec idx 0); [lia|done].
  - intros i Hi. unfold Mach.len in Hi.
    destruct (Hown (Z.to_nat i) ltac:(lia)) as (p & Hp & Hcell).
    exists p. split; [|done]. unfold Mach.at_.
    destruct (Z.ltb_spec (j + i) 0); [lia|].
    by replace (Z.to_nat (j + i)) with (Z.to_nat j + Z.to_nat i)%nat by lia.
  - exact Hgh.
Qed.

End GlobalAdaptMapping.

Section MappingRoundTrip.

Import ParaTree.

(** After [adaptGlobalRefine] every octant new by refinement maps to
    exactly one old index, which is not a ghost: the index, before the
    adapt, of the octant it is a child of. *)
Definition mapsToParent (E : Env) (s : t) : Prop :=
  (forall fuel, exists r, adaptGlobalRefine E (S fuel) true s = Some r) /\
  (forall fuel done s' idx,
     adaptGlobalRefine E fuel true s = Some (done, s') ->
     getIsNewR idx s' = true ->
     exists j k p c,
       getMapping E idx s' = Eff.Ok ([j], [false]) s' /\
       getOctant j s = Some p /\
       getOctant idx s' = Some c /\
       0 <= k < 2 ^ getDim s /\
       Octant.cell c = Octant.cell (Octant.child (constants E s) k p)).

(** After [adaptGlobalCoarse] with the map kept every octant new by
    coarsening maps to exactly [2^dim] old indices: the owned ones first,
    consecutive and not ghosts, then the ghost ones, flagged as ghosts;
    each is the index, before the adapt, of an octant, owned or ghost,
    whose parent cell is the cell of the new octant. *)
Definition mapsToChildren (E : Env) (s : t) : Prop :=
  (exists fuel r, adaptGlobalCoarse E fuel true s = Some r) /\
  (forall fuel done s' idx,
     adaptGlobalCoarse E fuel true s = Some (done, s') ->
     Mach.len (octantsOf s') < 2 ^ 32 ->
     getIsNewC idx s' = true ->
     exists j c G owned,
       getOctant idx s' = Some c /\
       owned = map (fun i => j + i) (Mach.iota (Z.to_nat (2 ^ getDim s) - length G)) /\
       getMapping E idx s' =
         Eff.Ok (owned ++ G,
                 replicate (length owned) false ++ replicate (length G) true) s' /\
       length (owned ++ G) = Z.to_nat (2 ^ getDim s) /\
       (forall i, In i owned ->
          exists p, getOctant i s = Some p /\
                    Octant.cell (Octant.buildFather (constants E s) p) = Octant.cell c) /\
       (forall g, In g G ->
          exists p, getGhostOctant g s = Some p /\
                    Octant.cell (Octant.buildFather (constants E s) p) = Octant.cell c)).

(** C6.  Over the passes of the local tree as the spec describes them
    (4.3), with one halo bit per face, a number of octants that fits 32
    bits and [2^dim] children per octant: [adaptGlobalRefine] returns,
    and for every octant flagged new by refinement [getMapping] returns
    exactly one old index, flagged not ghost, the index before the adapt
    of its parent; [adaptGlobalCoarse] with the map kept returns, and for
    every octant flagged new by coarsening [getMapping] returns exactly
    [2^dim] old indices, each the index before the adapt of one of its
    children, the ghost siblings, and only them, flagged as ghosts. *)
Theorem getMapping_after_global_adapt (E : Env) (s : t) :
  haloRows E ->
  Mach.len (octantsOf s) < 2 ^ 32 ->
  0 <= getDim s ->
  TreeConstants.nChildren (constants E s) = 2 ^ getDim s ->
  mapsToParent E s /\ mapsToChildren E s.
Proof.
  intros Hrows Hfit Hdim Hn.
  assert (Hn1 : 1 <= TreeConstants.nChildren (constants E s)).
  { rewrite Hn. pose proof (Z.pow_pos_nonneg 2 (getDim s) ltac:(lia) Hdim). lia. }
  split; split.
  - intros fuel. destruct (adaptGlobalRefine_returns E fuel true s) as [done H]. eauto.
  - intros fuel done s' idx Hrun Hnew.
    destruct fuel as [|fuel]; [discriminate|].
    destruct (adaptGlobalRefine_returns E fuel true s) as [done' H].
    rewrite H in Hrun. injection Hrun as _ <-.
    destruct (globalRefine_mapping E true s idx Hrows Hfit Hnew)
      as (j & k & p & c & Hm & Hp & Hc & Hk & Hcell).
    exists j, k, p, c. rewrite <- Hn.
    split; [done|]. split; [done|]. split; [done|]. split; [done|exact Hcell].
  - apply adaptGlobalCoarse_total.
  - intros fuel done s' idx Hrun Hfit' Hnew.
    pose proof (adaptGlobalCoarse_mapped E fuel s done s' Hrows Hfit Hn1 Hrun) as Hm.
    destruct (mapped_getMapping E _ _ _ _ idx Hm ltac:(unfold constants in Hn1; lia)
                Hfit Hfit' Hnew)
      as (j & c & G & Hc & HG & Hmap & Hown & Hgh).
    change (treeConstants E (m_dim s)) with (constants E s) in *.
    rewrite Hn in HG, Hmap, Hown.
    exists j, c, G, (map (fun i => j + i) (Mach.iota (Z.to_nat (2 ^ getDim s) - length G))).
    split; [done|]. split; [done|]. split; [|split; [|split]].
    + by rewrite length_map, iota_length.
    + rewrite length_app, length_map, iota_length. lia.
    + intros i (i' & <- & Hi')%in_map_iff.
      unfold Mach.iota in Hi'. apply in_map_iff in Hi' as (k & <- & Hk%in_seq).
      apply Hown. unfold Mach.len. lia.
    + exact Hgh.
Qed.

End MappingRoundTrip.

(** The two-dimensional root refined once, four octants, on one process. *)
Lemma getMapping_after_global_adapt_witness :
  let s := afterGlobalRefine Example.env true (Example.fresh 2) in
  Mach.len (octantsOf s) = 4 /\
  mapsToParent Example.env s /\ mapsToChildren Example.env s.
Proof.
  cbv zeta. split; [reflexivity|].
  apply (getMapping_after_global_adapt Example.env
           (afterGlobalRefine Example.env true (Example.fresh 2))).
  - intros s row [].
  - vm_compute. reflexivity.
  - vm_compute. discriminate.
  - vm_compute. reflexivity.
Defined.

(** ** Global and local indices *)

Section Indices.

Import ParaTree.

Lemma u32_u64_sub a b : Mach.u32 (Mach.u64 a - b) = Mach.u32 (a - b).
Proof.
  unfold Mach.u32, Mach.u64, Mach.wrap.
  rewrite (Z.mod_eq a (2 ^ 64)) by lia.
  replace (a - 2 ^ 64 * (a / 2 ^ 64) - b)
    with (a - b + (- 2 ^ 32 * (a / 2 ^ 64)) * 2 ^ 32) by lia.
  apply Z_mod_plus_full.
Qed.

Lemma u32_u64 a : Mach.u32 (Mach.u64 a) = Mach.u32 a.
Proof. rewrite <- (Z.sub_0_r (Mach.u64 a)), u32_u64_sub. by rewrite Z.sub_0_r. Qed.

Lemma u32_sub_u32 a b : Mach.u32 (Mach.u32 a - b) = Mach.u32 (a - b).
Proof.
  unfold Mach.u32, Mach.wrap. by rewrite Zminus_mod_idemp_l.
Qed.

Lemma u32_sub_u64_r a b : Mach.u32 (a - Mach.u64 b) = Mach.u32 (a - b).
Proof.
  unfold Mach.u32, Mach.u64, Mach.wrap.
  rewrite (Z.mod_eq b (2 ^ 64)) by lia.
  replace (a - (b - 2 ^ 64 * (b / 2 ^ 64)))
    with (a - b + (2 ^ 32 * (b / 2 ^ 64)) * 2 ^ 32) by lia.
  apply Z_mod_plus_full.
Qed.

(** X1.  The local index of the global index of an octant is the octant's
    index again, for every 32-bit index and whatever the registry holds:
    the wrap-arounds of the two conversions cancel. *)
Theorem getLocalIdx_getGlobalIdx (s : t) (idx : Z) :
  0 <= idx < 2 ^ 32 ->
  getLocalIdxHere (getGlobalIdx idx s) s = idx.
Proof.
  intros Hidx. unfold getLocalIdxHere, getLocalIdx, getGlobalIdx.
  destruct (m_rank s =? 0).
  - unfold Mach.u32, Mach.wrap. apply Z.mod_small. lia.
  - rewrite u32_u64. set (r := Mach.get0 _ _).
    replace (Mach.u64 (r + Mach.u32 (idx + 1)) - 1 - r)
      with (Mach.u64 (r + Mach.u32 (idx + 1)) - (1 + r)) by lia.
    rewrite u32_u64_sub.
    replace (r + Mach.u32 (idx + 1) - (1 + r)) with (Mach.u32 (idx + 1) - 1) by lia.
    rewrite u32_sub_u32. replace (idx + 1 - 1) with idx by lia.
    unfold Mach.u32, Mach.wrap. apply Z.mod_small. lia.
Qed.

(** A vector that never decreases. *)
Definition nondecreasing (v : list Z) : Prop :=
  forall i j, 0 <= i -> i <= j -> j < Mach.len v -> Mach.get0 v i <= Mach.get0 v j.

Lemma lower_bound_sorted (v : list Z) (val : Z) fuel first len :
  nondecreasing v ->
  0 <= first -> 0 <= len -> first + len <= Mach.len v -> len <= Z.of_nat fuel ->
  (forall i, 0 <= i < first -> Mach.get0 v i < val) ->
  (forall i, first + len <= i < Mach.len v -> val <= Mach.get0 v i) ->
  let r := lower_bound fuel v first len val in
  0 <= r <= Mach.len v /\
  (forall i, 0 <= i < r -> Mach.get0 v i < val) /\
  (forall i, r <= i < Mach.len v -> val <= Mach.get0 v i).
Proof.
  intros Hsorted. revert first len.
  induction fuel as [|fuel IH]; intros first len Hf Hl Hfit Hfuel Hlo Hhi; cbv zeta.
  { simpl. assert (len = 0) by lia. subst. split; [lia|]. split; [done|].
    intros i Hi. apply Hhi. lia. }
  simpl. destruct (Z.ltb_spec 0 len) as [Hpos|Hz].
  2:{ assert (len = 0) by lia. subst. split; [lia|]. split; [done|].
      intros i Hi. apply Hhi. lia. }
  rewrite Z.shiftr_div_pow2 by lia. change (2 ^ 1) with 2.
  pose proof (Z.div_mod len 2 ltac:(lia)) as Hdm.
  pose proof (Z.mod_pos_bound len 2 ltac:(lia)) as Hm.
  destruct (Z.ltb_spec (Mach.get0 v (first + len / 2)) val) as [Hlt|Hge].
  - apply IH; try lia.
    + intros i Hi. destruct (Z_lt_dec i first); [apply Hlo; lia|].
      pose proof (Hsorted i (first + len / 2) ltac:(lia) ltac:(lia) ltac:(lia)). lia.
    + intros i Hi. apply Hhi. lia.
  - apply IH; try lia; [exact Hlo|].
    intros i Hi. destruct (Z_le_dec (first + len) i); [apply Hhi; lia|].
    pose proof (Hsorted (first + len / 2) i ltac:(lia) ltac:(lia) ltac:(lia)). lia.
Qed.

(** The owner rank by cases, in the form the comparison with the rank of
    a process uses. *)
Lemma getOwnerRank_cases (s : t) (g : Z) :
  nondecreasing (m_partitionRangeGlobalIdx s) ->
  Mach.len (m_partitionRangeGlobalIdx s) < 2 ^ 31 ->
  let R := m_partitionRangeGlobalIdx s in
  let p := getOwnerRank g s in
  (p = -1 /\ forall i, 0 <= i < Mach.len R -> Mach.get0 R i < g) \/
  (0 <= p < Mach.len R /\ g <= Mach.get0 R p /\
   forall i, 0 <= i < p -> Mach.get0 R i < g).
Proof.
  intros Hsorted Hfit. cbv zeta. unfold getOwnerRank. cbv zeta.
  set (R := m_partitionRangeGlobalIdx s) in *.
  assert (H1 : forall i, 0 <= i < 0 -> Mach.get0 R i < g) by (intros; lia).
  assert (H2 : forall i, 0 + Mach.len R <= i < Mach.len R -> g <= Mach.get0 R i)
    by (intros; lia).
  destruct (lower_bound_sorted R g (length R) 0 (Mach.len R) Hsorted
              ltac:(lia) ltac:(unfold Mach.len; lia) ltac:(lia)
              ltac:(unfold Mach.len; lia) H1 H2)
    as (Hr & Hlo & Hhi).
  set (r := lower_bound (length R) R 0 (Mach.len R) g) in *.
  destruct (Z.eqb_spec r (Mach.len R)) as [Heq|Hne].
  - left. split; [done|]. intros i Hi. apply Hlo. lia.
  - right.
    assert (Hi32 : Mach.i32 r = r).
    { unfold Mach.i32, Mach.swrap. rewrite Z.mod_small by lia.
      change (2 ^ (32 - 1)) with (2 ^ 31).
      destruct (Z.ltb_spec r (2 ^ 31)); lia. }
    rewrite Hi32. split; [lia|]. split; [apply Hhi; lia|exact Hlo].
Qed.

(** X2.  Over a registry that never decreases, [getOwnerRank(g)] is the
    lowest rank whose last global index is not below [g], and -1 when
    every rank ends below [g]. *)
Theorem getOwnerRank_lowest (s : t) (g : Z) :
  nondecreasing (m_partitionRangeGlobalIdx s) ->
  Mach.len (m_partitionRangeGlobalIdx s) < 2 ^ 31 ->
  let R := m_partitionRangeGlobalIdx s in
  let p := getOwnerRank g s in
  (p = -1 /\ forall i, 0 <= i < Mach.len R -> Mach.get0 R i < g) \/
  (0 <= p < Mach.len R /\ g <= Mach.get0 R p /\
   forall i, 0 <= i < p -> Mach.get0 R i < g).
Proof.
  intros Hsorted Hfit. cbv zeta. unfold getOwnerRank. cbv zeta.
  set (R := m_partitionRangeGlobalIdx s) in *.
  assert (H1 : forall i, 0 <= i < 0 -> Mach.get0 R i < g) by (intros; lia).
  assert (H2 : forall i, 0 + Mach.len R <= i < Mach.len R -> g <= Mach.get0 R i)
    by (intros; lia).
  destruct (lower_bound_sorted R g (length R) 0 (Mach.len R) Hsorted
              ltac:(lia) ltac:(unfold Mach.len; lia) ltac:(lia)
              ltac:(unfold Mach.len; lia) H1 H2)
    as (Hr & Hlo & Hhi).
  set (r := lower_bound (length R) R 0 (Mach.len R) g) in *.
  destruct (Z.eqb_spec r (Mach.len R)) as [Heq|Hne].
  - left. split; [done|]. intros i Hi. apply Hlo. lia.
  - right.
    assert (Hi32 : Mach.i32 r = r).
    { unfold Mach.i32, Mach.swrap. rewrite Z.mod_small by lia.
      change (2 ^ (32 - 1)) with (2 ^ 31).
      destruct (Z.ltb_spec r (2 ^ 31)); lia. }
    rewrite Hi32. split; [lia|]. split; [apply Hhi; lia|exact Hlo].
Qed.

(** X3.  Over a registry that never decreases, with one entry per
    process, a global index is internal to the process exactly when the
    process is its owner rank. *)
Theorem isInternal_iff_getOwnerRank (s : t) (g : Z) :
  nondecreasing (m_partitionRangeGlobalIdx s) ->
  Mach.len (m_partitionRangeGlobalIdx s) = m_nproc s ->
  m_nproc s < 2 ^ 31 ->
  0 <= m_rank s < m_nproc s ->
  isInternal g s = true <-> getOwnerRank g s = m_rank s.
Proof.
  intros Hsorted Hlen Hfit Hrank.
  pose proof (getOwnerRank_cases s g Hsorted ltac:(lia)) as Hown.
  set (R := m_partitionRangeGlobalIdx s) in *.
  set (p := getOwnerRank g s) in *.
  unfold isInternal. fold R.
  destruct (Z.ltb_spec (Mach.get0 R (m_rank s)) g) as [Hgt|Hle].
  { split; [discriminate|]. intros Hp.
    destruct Hown as [[Hm _]|(_ & Hge & _)]; [lia|]. rewrite Hp in Hge. lia. }
  destruct (Z.eqb_spec (m_rank s) 0) as [H0|Hn0]; simpl.
  { split; [|done]. intros _.
    destruct Hown as [[_ Hall]|(Hp & Hge & Hlo)].
    - specialize (Hall (m_rank s) ltac:(lia)). lia.
    - destruct (Z_lt_dec (m_rank s) p); [|lia].
      specialize (Hlo (m_rank s) ltac:(lia)). lia. }
  destruct (Z.leb_spec g (Mach.get0 R (m_rank s - 1))) as [Hprev|Hprev].
  { split; [discriminate|]. intros Hp.
    destruct Hown as [[Hm _]|(_ & _ & Hlo)]; [lia|].
    specialize (Hlo (m_rank s - 1) ltac:(lia)). lia. }
  split; [|done]. intros _.
  destruct Hown as [[_ Hall]|(Hp & Hge & Hlo)].
  - specialize (Hall (m_rank s) ltac:(lia)). lia.
  - destruct (Z_lt_dec (m_rank s) p) as [Hlt|Hnlt].
    { specialize (Hlo (m_rank s) ltac:(lia)). lia. }
    destruct (Z_lt_dec p (m_rank s)) as [Hlt'|]; [|lia].
    pose proof (Hsorted p (m_rank s - 1) ltac:(lia) ltac:(lia) ltac:(lia)). lia.
Qed.

End Indices.

Section IndicesOfProcess.

Import ParaTree.

(** X4.  The global index of a local index is internal to the process
    exactly when the local index is below the number of octants the
    registry gives the process: the end of its range minus the end of the
    range before it, the end plus one on rank 0. *)
Theorem isInternal_getGlobalIdx (s : t) (idx : Z) :
  0 <= idx < 2 ^ 32 - 1 ->
  0 <= m_rank s ->
  (m_rank s <> 0 ->
   0 <= Mach.get0 (m_partitionRangeGlobalIdx s) (m_rank s - 1) < 2 ^ 64 - 2 ^ 32) ->
  isInternal (getGlobalIdx idx s) s =
  (idx <? (if m_rank s =? 0
           then Mach.get0 (m_partitionRangeGlobalIdx s) 0 + 1
           else Mach.get0 (m_partitionRangeGlobalIdx s) (m_rank s)
                - Mach.get0 (m_partitionRangeGlobalIdx s) (m_rank s - 1))).
Proof.
  intros Hidx Hrank Hprev. unfold isInternal, getGlobalIdx.
  destruct (Z.eqb_spec (m_rank s) 0) as [H0|Hn0].
  - rewrite H0. simpl.
    destruct (Z.ltb_spec (Mach.get0 (m_partitionRangeGlobalIdx s) 0) idx),
             (Z.ltb_spec idx (Mach.get0 (m_partitionRangeGlobalIdx s) 0 + 1)); lia.
  - specialize (Hprev Hn0). set (r := Mach.get0 _ (m_rank s - 1)) in *.
    set (e := Mach.get0 _ (m_rank s)).
    assert (Hg : Mach.u64 (r + Mach.u32 (idx + 1)) = r + idx + 1).
    { unfold Mach.u64, Mach.u32, Mach.wrap.
      rewrite (Z.mod_small (idx + 1)) by lia. rewrite Z.mod_small by lia. lia. }
    rewrite Hg. simpl.
    destruct (Z.ltb_spec e (r + idx + 1)), (Z.ltb_spec idx (e - r)); try lia.
    destruct (Z.leb_spec (r + idx + 1) r); [lia|reflexivity].
Qed.

Lemma firstRangeFrom_spec (R0 : list Z) (g : Z) n i :
  match firstRangeFrom R0 g i n with
  | Some p => i <= p < i + Z.of_nat n /\ g <= Mach.get0 R0 p /\
              forall k, i <= k < p -> Mach.get0 R0 k < g
  | None => forall k, i <= k < i + Z.of_nat n -> Mach.get0 R0 k < g
  end.
Proof.
  revert i. induction n as [|n IH]; intros i; simpl; [intros; lia|].
  destruct (Z.leb_spec g (Mach.get0 R0 i)) as [Hle|Hgt].
  - split; [lia|]. split; [done|]. intros; lia.
  - specialize (IH (i + 1)). destruct (firstRangeFrom R0 g (i + 1) n) as [p|].
    + destruct IH as (Hp & Hge & Hlo). split; [lia|]. split; [done|].
      intros k Hk. destruct (Z.eq_dec k i) as [->|]; [done|]. apply Hlo. lia.
    + intros k Hk. destruct (Z.eq_dec k i) as [->|]; [done|]. apply IH. lia.
Qed.

Lemma resize_one_set {A} (d x : A) (v : list A) :
  Mach.set_ (Mach.resize_ 1 d v) 0 x = [x].
Proof.
  unfold Mach.resize_, Mach.set_. change (Z.to_nat 1) with 1%nat. simpl.
  destruct v as [|a v]; reflexivity.
Qed.

(** X5.  After a load balance [getMapping] with ranks gives, for the
    octant of local index [idx], one entry that is not a ghost: the
    process [p] whose range before the load balance held the global index
    of the octant, that is the lowest [p] whose old range ends at or
    after it, and the local index the octant had there; after the first
    load balance the rank reported is the one of the calling process.
    What the three vectors held before the call does not matter. *)
Theorem getMappingRank_after_loadBalance (E : Env) (s : t) (idx p : Z)
    (mapper : list Z) (isghost : list bool) (rank : list Z) :
  m_lastOp s = OP_LOADBALANCE \/ m_lastOp s = OP_LOADBALANCE_FIRST ->
  0 <= p < m_nproc s ->
  getGlobalIdx idx s <= Mach.get0 (m_partitionRangeGlobalIdx0 s) p ->
  (forall k, 0 <= k < p -> Mach.get0 (m_partitionRangeGlobalIdx0 s) k < getGlobalIdx idx s) ->
  let base := if p =? 0 then 0 else Mach.get0 (m_partitionRangeGlobalIdx0 s) (p - 1) + 1 in
  0 <= getGlobalIdx idx s - base < 2 ^ 32 ->
  getMappingRank E idx mapper isghost rank s =
  Eff.Ok ([getGlobalIdx idx s - base], [false],
          [if decide (m_lastOp s = OP_LOADBALANCE_FIRST) then m_rank s else p]) s.
Proof.
  intros Hop Hp Hge Hlo base Hfit.
  unfold getMappingRank, Eff.bind, Eff.get, Eff.ret.
  destruct (decide (m_lastOp s = OP_ADAPT_MAPPED)) as [Hm|_].
  { destruct Hop as [Hop|Hop]; rewrite Hop in Hm; discriminate. }
  rewrite bool_decide_eq_true_2 by done.
  set (g := getGlobalIdx idx s) in *. set (R0 := m_partitionRangeGlobalIdx0 s) in *.
  pose proof (firstRangeFrom_spec R0 g (Z.to_nat (m_nproc s)) 0) as Hspec.
  destruct (firstRangeFrom R0 g 0 (Z.to_nat (m_nproc s))) as [q|].
  2:{ specialize (Hspec p ltac:(lia)). lia. }
  destruct Hspec as (Hq & Hqge & Hqlo).
  assert (q = p).
  { destruct (Z_lt_dec q p); [specialize (Hlo q ltac:(lia)); lia|].
    destruct (Z_lt_dec p q); [specialize (Hqlo p ltac:(lia)); lia|lia]. }
  subst q.
  assert (Hm : (if 0 <? p
                then Mach.u32 (Mach.u64 (Mach.u32 g - Mach.u64 (Mach.get0 R0 (p - 1) + 1)))
                else Mach.u32 g) = g - base).
  { subst base.
    destruct (Z.ltb_spec 0 p) as [Hpos|Hz]; destruct (Z.eqb_spec p 0) as [H0|Hn0]; try lia.
    - rewrite u32_u64, u32_sub_u64_r, u32_sub_u32.
      unfold Mach.u32, Mach.wrap. apply Z.mod_small. lia.
    - rewrite Z.sub_0_r in *. unfold Mach.u32, Mach.wrap. apply Z.mod_small. lia. }
  rewrite Hm, !resize_one_set. reflexivity.
Qed.

End IndicesOfProcess.

(** Index 5 on the second of two processes, the first of which ends at
    global index 3. *)
Lemma getLocalIdx_getGlobalIdx_witness :
  ParaTree.getLocalIdxHere
    (ParaTree.getGlobalIdx 5 (FamilyExample.rankState 1 [])) (FamilyExample.rankState 1 []) = 5.
Proof. apply (getLocalIdx_getGlobalIdx (FamilyExample.rankState 1 []) 5). lia. Defined.

Lemma getOwnerRank_lowest_witness :
  let s := FamilyExample.rankState 1 [] in
  let R := ParaTree.m_partitionRangeGlobalIdx s in
  let p := ParaTree.getOwnerRank 7 s in
  (p = -1 /\ forall i, 0 <= i < Mach.len R -> Mach.get0 R i < 7) \/
  (0 <= p < Mach.len R /\ 7 <= Mach.get0 R p /\
   forall i, 0 <= i < p -> Mach.get0 R i < 7).
Proof.
  apply (getOwnerRank_lowest (FamilyExample.rankState 1 []) 7).
  - intros i j Hi Hij Hj. change (Mach.len _) with 2 in Hj.
    assert (Hc : (i = 0 \/ i = 1) /\ (j = 0 \/ j = 1)) by lia.
    destruct Hc as [[-> | ->] [-> | ->]]; vm_compute; try discriminate; lia.
  - vm_compute. reflexivity.
Defined.

Lemma isInternal_iff_getOwnerRank_witness :
  ParaTree.isInternal 7 (FamilyExample.rankState 1 []) = true <->
  ParaTree.getOwnerRank 7 (FamilyExample.rankState 1 []) =
  ParaTree.m_rank (FamilyExample.rankState 1 []).
Proof.
  apply (isInternal_iff_getOwnerRank (FamilyExample.rankState 1 []) 7).
  - intros i j Hi Hij Hj. change (Mach.len _) with 2 in Hj.
    assert (Hc : (i = 0 \/ i = 1) /\ (j = 0 \/ j = 1)) by lia.
    destruct Hc as [[-> | ->] [-> | ->]]; vm_compute; try discriminate; lia.
  - reflexivity.
  - vm_compute. reflexivity.
  - vm_compute. split; [discriminate|reflexivity].
Defined.

Lemma isInternal_getGlobalIdx_witness :
  ParaTree.isInternal (ParaTree.getGlobalIdx 14 (FamilyExample.rankState 1 []))
                      (FamilyExample.rankState 1 []) =
  (14 <? 18 - 3).
Proof.
  apply (isInternal_getGlobalIdx (FamilyExample.rankState 1 []) 14).
  - lia.
  - vm_compute. discriminate.
  - intros _. vm_compute. split; [discriminate|reflexivity].
Defined.

(** The second of two processes, the first of which ends at global index
    3 before and after the load balance: its local octant 2 has global
    index 6, which the same process held before at local index 2. *)
Lemma getMappingRank_after_loadBalance_witness :
  let s := ParaTree.set_m_partitionRangeGlobalIdx0 [3; 18]
             (ParaTree.set_m_partitionRangeGlobalIdx [3; 18] (FamilyExample.rankState 1 [])) in
  ParaTree.getMappingRank Example.env 2 [] [] [] s = Eff.Ok ([2], [false], [1]) s.
Proof.
  cbv zeta.
  apply (getMappingRank_after_loadBalance Example.env
           (ParaTree.set_m_partitionRangeGlobalIdx0 [3; 18]
              (ParaTree.set_m_partitionRangeGlobalIdx [3; 18] (FamilyExample.rankState 1 [])))
           2 1 [] [] []).
  - left. reflexivity.
  - vm_compute. split; [discriminate|reflexivity].
  - vm_compute. discriminate.
  - intros k Hk. assert (k = 0) by lia. subst k. vm_compute. reflexivity.
  - vm_compute. split; [discriminate|reflexivity].
Defined.

(** ** Conservation of the octants by the partitions, continued *)

Section UniformConservation.

Import ParaTree.

(** X6.  The counts of the uniform partition add up to the global number
    of octants, for every count the processes can hold. *)
Theorem uniform_partition_conserves (s : t) :
  0 < m_nproc s <= Mach.UINT32_MAX ->
  0 <= m_globalNumOctants s <= m_nproc s * Mach.UINT32_MAX ->
  Mach.sumZ (computePartition s) = m_globalNumOctants s /\
  Forall (fun c => 0 <= c) (computePartition s).
Proof.
  intros HP HN. split; [by apply computePartition_sum|].
  rewrite computePartition_unfold by done.
  pose proof (Z.mod_pos_bound (m_globalNumOctants s) (m_nproc s) (proj1 HP)) as Hm.
  pose proof (Z.div_pos (m_globalNumOctants s) (m_nproc s) ltac:(lia) ltac:(lia)).
  apply List.Forall_forall. intros c (i & <- & _)%in_map_iff.
  destruct (i <? _); lia.
Qed.

End UniformConservation.

Section WeightedConservation.

Import ParaTree.

Context {W : Type}.
Variable wzero : W.
Variable wadd : W -> W -> W.
Variable wdiv : W -> Z -> W.
Variable wlt : W -> W -> bool.

(** X7.  The counts of the weighted partition are not negative and add up
    to the global number of octants, whatever the weights are. *)
Theorem weighted_partition_conserves (gw : list W) (s : t) :
  1 <= m_nproc s ->
  0 <= m_globalNumOctants s <= Mach.UINT32_MAX ->
  m_globalNumOctants s <= Mach.len gw ->
  Mach.sumZ (computePartition_weight wzero wadd wdiv wlt gw s) = m_globalNumOctants s /\
  Forall (fun c => 0 <= c) (computePartition_weight wzero wadd wdiv wlt gw s).
Proof.
  intros HP HN Hgw. unfold computePartition_weight. cbv zeta.
  set (N := m_globalNumOctants s) in *.
  set (ws := take (Z.to_nat N) gw).
  assert (Hws : Mach.len ws = N).
  { unfold ws, Mach.len in *. rewrite length_take. lia. }
  set (r := sweep wzero wadd wdiv wlt (Z.to_nat (m_nproc s - 1)) (m_nproc s) 0 ws).
  pose proof (sweep_taken wzero wadd wdiv wlt (Z.to_nat (m_nproc s - 1)) (m_nproc s) 0 ws)
    as Htk. fold r in Htk.
  destruct (sweep_sum wzero wadd wdiv wlt (Z.to_nat (m_nproc s - 1)) (m_nproc s) 0 ws)
    as [Hsum Hnn]; [lia|]. fold r in Hsum, Hnn.
  assert (Hlast : Mach.u32 (N - Mach.u32 (snd r)) = N - snd r).
  { rewrite (u32_small (snd r)) by lia. apply u32_small. lia. }
  rewrite Hlast. split.
  - rewrite sumZ_app, Hsum. unfold Mach.sumZ. simpl. lia.
  - apply Forall_app. split; [done|]. constructor; [lia|constructor].
Qed.

End WeightedConservation.

Section FamilyConservation.

Import ParaTree.

Lemma u32_quot x : exists q, Mach.u32 x = x + 2 ^ 32 * q.
Proof.
  exists (- (x / 2 ^ 32)). unfold Mach.u32, Mach.wrap.
  rewrite (Z.mod_eq x (2 ^ 32)) by lia. lia.
Qed.

(** The count of a process after the corrections. *)
Definition corrected (temp deplace : list Z) (iproc : nat) : Z :=
  let p0 := if (S iproc <? length temp)%nat
            then Mach.u32 (Mach.get0 temp (Z.of_nat iproc)
                           + Mach.get0 deplace (Z.of_nat iproc))
            else Mach.get0 temp (Z.of_nat iproc) in
  match iproc with
  | O => p0
  | S k => Mach.u32 (p0 - Mach.get0 deplace (Z.of_nat k))
  end.

Lemma applyDeplace_prefix (temp deplace : list Z) (k : nat) :
  (k <= length temp)%nat ->
  exists q,
    Mach.sumZ (map (corrected temp deplace) (seq 0 k)) =
    Mach.sumZ (map (fun i => Mach.get0 temp (Z.of_nat i)) (seq 0 k))
    + (if ((0 <? k) && (k <? length temp))%nat
       then Mach.get0 deplace (Z.of_nat (k - 1)) else 0)
    + 2 ^ 32 * q.
Proof.
  induction k as [|k IH]; intros Hk.
  { exists 0. simpl. unfold Mach.sumZ. simpl. lia. }
  destruct (IH ltac:(lia)) as [q Hq].
  rewrite seq_S, !map_app, !sumZ_app, Hq. simpl map.
  unfold Mach.sumZ at 2 4. simpl fold_right. rewrite !Z.add_0_r.
  change (0 + k)%nat with k.
  replace (S k - 1)%nat with k by lia.
  unfold corrected. cbv zeta.
  destruct (Nat.ltb_spec (S k) (length temp)) as [Hlt|Hge].
  - destruct (u32_quot (Mach.get0 temp (Z.of_nat k) + Mach.get0 deplace (Z.of_nat k)))
      as [q1 Hq1].
    destruct k as [|k'].
    + simpl. rewrite Hq1. exists (q + q1). lia.
    + destruct (u32_quot (Mach.u32 (Mach.get0 temp (Z.of_nat (S k'))
                                     + Mach.get0 deplace (Z.of_nat (S k')))
                          - Mach.get0 deplace (Z.of_nat k'))) as [q2 Hq2].
      rewrite Hq2, Hq1.
      replace (S k' - 1)%nat with k' by lia.
      destruct (Nat.ltb_spec 0 (S k')); [|lia].
      destruct (Nat.ltb_spec (S k') (length temp)); [|lia].
      destruct (Nat.ltb_spec 0 (S (S k'))); [|lia].
      simpl andb. cbv iota. exists (q + q1 + q2). lia.
  - destruct (Nat.ltb_spec (S k) (length temp)) as [|_]; [lia|].
    rewrite andb_false_r.
    destruct k as [|k'].
    + simpl. exists q. lia.
    + destruct (u32_quot (Mach.get0 temp (Z.of_nat (S k'))
                          - Mach.get0 deplace (Z.of_nat k'))) as [q2 Hq2].
      rewrite Hq2.
      replace (S k' - 1)%nat with k' by lia.
      destruct (Nat.ltb_spec 0 (S k')); [|lia].
      destruct (Nat.ltb_spec (S k') (length temp)); [|lia].
      simpl andb. cbv iota. exists (q + q2). lia.
Qed.

(** X8.  The corrections that keep the families compact move octants
    between neighbouring processes only: whatever the displacements are,
    the corrected counts add up to the counts before the correction
    modulo [2^32], the width of a count.  (A displacement larger than a
    count wraps it, and the sum is then off by a multiple of [2^32].) *)
Theorem applyDeplace_conserves_modulo (temp deplace : list Z) :
  Mach.sumZ (applyDeplace temp deplace) mod 2 ^ 32 = Mach.sumZ temp mod 2 ^ 32.
Proof.
  destruct (applyDeplace_prefix temp deplace (length temp) ltac:(lia)) as [q Hq].
  rewrite Nat.ltb_irrefl, andb_false_r, Z.add_0_r in Hq.
  assert (Htemp : map (fun i => Mach.get0 temp (Z.of_nat i)) (seq 0 (length temp)) = temp).
  { pose proof (map_get0_iota temp) as H. unfold Mach.iota in H.
    rewrite map_map in H. exact H. }
  rewrite Htemp in Hq.
  change (applyDeplace temp deplace) with (map (corrected temp deplace) (seq 0 (length temp))).
  rewrite Hq, (Z.mul_comm (2 ^ 32) q). apply Z_mod_plus_full.
Qed.

End FamilyConservation.

(** Five octants over three processes. *)
Lemma uniform_partition_conserves_witness :
  let s := ParaTree.set_m_nproc 3 (ParaTree.set_m_globalNumOctants 5 (Example.fresh 2)) in
  Mach.sumZ (ParaTree.computePartition s) = ParaTree.m_globalNumOctants s /\
  Forall (fun c => 0 <= c) (ParaTree.computePartition s).
Proof.
  apply (uniform_partition_conserves
           (ParaTree.set_m_nproc 3 (ParaTree.set_m_globalNumOctants 5 (Example.fresh 2))));
    vm_compute; split; first [reflexivity|discriminate].
Defined.

(** Five octants of weights 3, 1, 1, 1, 1 over three processes. *)
Lemma weighted_partition_conserves_witness :
  let s := ParaTree.set_m_nproc 3 (ParaTree.set_m_globalNumOctants 5 (Example.fresh 2)) in
  Mach.sumZ (ParaTree.computePartition_Q [3#1; 1#1; 1#1; 1#1; 1#1] s) =
    ParaTree.m_globalNumOctants s /\
  Forall (fun c => 0 <= c) (ParaTree.computePartition_Q [3#1; 1#1; 1#1; 1#1; 1#1] s).
Proof.
  apply (weighted_partition_conserves 0%Q Qplus ParaTree.Qdiv_int ParaTree.Qlt_bool
           [3#1; 1#1; 1#1; 1#1; 1#1]
           (ParaTree.set_m_nproc 3 (ParaTree.set_m_globalNumOctants 5 (Example.fresh 2))));
    vm_compute; try split; discriminate.
Defined.

(** ** The registry after an adapt or a load balance *)

Section Registry.

Import ParaTree.
Variable E : Env.

Lemma prefixCounts_length rbuff : length (prefixCounts rbuff) = length rbuff.
Proof. unfold prefixCounts. by rewrite length_map, length_seq. Qed.

Lemma prefixCounts_get rbuff p :
  0 <= p < Mach.len rbuff ->
  Mach.get0 (prefixCounts rbuff) p =
  Mach.u64 (Mach.sumZ (take (S (Z.to_nat p)) rbuff) - 1).
Proof.
  intros Hp. unfold Mach.get0, Mach.at_, prefixCounts, Mach.len in *.
  destruct (Z.ltb_spec p 0); [lia|].
  rewrite list_lookup_fmap, lookup_seq_lt by lia. reflexivity.
Qed.

Lemma sumZ_take_S (l : list Z) (n : nat) x :
  l !! n = Some x -> Mach.sumZ (take (S n) l) = Mach.sumZ (take n l) + x.
Proof.
  intros H. rewrite (take_S_r _ _ _ H), sumZ_app. unfold Mach.sumZ at 2. simpl. lia.
Qed.

Lemma sumZ_take_bounds (l : list Z) (n : nat) :
  Forall (fun c => 0 <= c) l -> 0 <= Mach.sumZ (take n l) <= Mach.sumZ l.
Proof.
  intros H. revert n. induction H as [|x l Hx Hl IH]; intros n.
  - rewrite take_nil. unfold Mach.sumZ. simpl. lia.
  - destruct n as [|n]; unfold Mach.sumZ in *; simpl.
    + specialize (IH 0%nat). rewrite take_0 in IH. simpl in IH. lia.
    + specialize (IH n). lia.
Qed.

Lemma sumZ_take_mono (l : list Z) (n m : nat) :
  Forall (fun c => 0 <= c) l -> (n <= m)%nat ->
  Mach.sumZ (take n l) <= Mach.sumZ (take m l).
Proof.
  intros H Hnm.
  replace (take n l) with (take n (take m l)) by (rewrite take_take; f_equal; lia).
  apply sumZ_take_bounds. by apply Forall_take.
Qed.

(** The registry written from the gathered local counts: when the first
    process holds an octant and the total fits 64 bits, nothing wraps. *)
Lemma prefixCounts_exact rbuff p :
  Forall (fun c => 0 <= c) rbuff ->
  1 <= Mach.get0 rbuff 0 ->
  Mach.sumZ rbuff < 2 ^ 64 ->
  0 <= p < Mach.len rbuff ->
  Mach.get0 (prefixCounts rbuff) p = Mach.sumZ (take (S (Z.to_nat p)) rbuff) - 1.
Proof.
  intros Hnn Hfirst Hfit Hp. rewrite prefixCounts_get by done.
  pose proof (sumZ_take_bounds rbuff (S (Z.to_nat p)) Hnn) as Hb.
  pose proof (sumZ_take_mono rbuff 1 (S (Z.to_nat p)) Hnn ltac:(lia)) as Hm.
  assert (H1 : Mach.sumZ (take 1 rbuff) = Mach.get0 rbuff 0).
  { destruct rbuff as [|c r]; [unfold Mach.len in Hp; simpl in Hp; lia|].
    change (take 1 (c :: r)) with (c :: take 0 r).
    rewrite take_0. unfold Mach.sumZ, Mach.get0. simpl. lia. }
  unfold Mach.u64, Mach.wrap. apply Z.mod_small. lia.
Qed.

Lemma prefixCounts_registry rbuff :
  Forall (fun c => 0 <= c) rbuff ->
  1 <= Mach.get0 rbuff 0 ->
  Mach.sumZ rbuff < 2 ^ 64 ->
  nondecreasing (prefixCounts rbuff) /\
  Mach.get0 (prefixCounts rbuff) 0 + 1 = Mach.get0 rbuff 0 /\
  (forall p, 1 <= p < Mach.len rbuff ->
     Mach.get0 (prefixCounts rbuff) p - Mach.get0 (prefixCounts rbuff) (p - 1) =
     Mach.get0 rbuff p) /\
  Mach.get0 (prefixCounts rbuff) (Mach.len rbuff - 1) + 1 = Mach.sumZ rbuff.
Proof.
  intros Hnn Hfirst Hfit.
  assert (Hlen : 1 <= Mach.len rbuff).
  { destruct rbuff; [unfold Mach.get0 in Hfirst; simpl in Hfirst; lia|].
    unfold Mach.len. simpl. lia. }
  split; [|split; [|split]].
  - intros i j Hi Hij Hj. unfold Mach.len in Hj. rewrite prefixCounts_length in Hj.
    rewrite !prefixCounts_exact by (try done; unfold Mach.len; lia).
    pose proof (sumZ_take_mono rbuff (S (Z.to_nat i)) (S (Z.to_nat j)) Hnn ltac:(lia)). lia.
  - rewrite prefixCounts_exact by (try done; lia).
    destruct rbuff as [|c r]; [unfold Mach.len in Hlen; simpl in Hlen; lia|].
    change (take (S (Z.to_nat 0)) (c :: r)) with (c :: take 0 r).
    rewrite take_0. unfold Mach.sumZ, Mach.get0. simpl. lia.
  - intros p Hp. rewrite !prefixCounts_exact by (try done; lia).
    destruct (lookup_lt_is_Some_2 rbuff (Z.to_nat p)) as [x Hx];
      [unfold Mach.len in Hp; lia|].
    rewrite (sumZ_take_S _ _ _ Hx).
    replace (S (Z.to_nat (p - 1))) with (Z.to_nat p) by lia.
    unfold Mach.get0, Mach.at_. destruct (Z.ltb_spec p 0); [lia|]. rewrite Hx. simpl. lia.
  - rewrite prefixCounts_exact by (try done; lia).
    rewrite take_ge by (unfold Mach.len in *; lia). lia.
Qed.

(** X9.  [updateAdapt] on a partitioned tree, from the gathered local
    counts [c] (none negative, the first process not empty, a total that
    fits 64 bits): the registry before the call is kept as the old
    registry, the global count is the total, and the new registry never
    decreases, ends the first range at [c[0] - 1], gives every further
    process exactly [c[p]] indices and ends the last range at the global
    count minus one. *)
Theorem updateAdapt_registry (s : t) :
  m_serial s = false ->
  let c := gatherNumOctants E (set_m_partitionRangeGlobalIdx0 (m_partitionRangeGlobalIdx s) s) in
  Forall (fun n => 0 <= n) c ->
  1 <= Mach.get0 c 0 ->
  Mach.sumZ c < 2 ^ 64 ->
  let s' := updateAdapt E s in
  m_partitionRangeGlobalIdx0 s' = m_partitionRangeGlobalIdx s /\
  m_globalNumOctants s' = Mach.sumZ c /\
  Mach.len (m_partitionRangeGlobalIdx s') = Mach.len c /\
  nondecreasing (m_partitionRangeGlobalIdx s') /\
  Mach.get0 (m_partitionRangeGlobalIdx s') 0 + 1 = Mach.get0 c 0 /\
  (forall p, 1 <= p < Mach.len c ->
     Mach.get0 (m_partitionRangeGlobalIdx s') p
     - Mach.get0 (m_partitionRangeGlobalIdx s') (p - 1) = Mach.get0 c p) /\
  Mach.get0 (m_partitionRangeGlobalIdx s') (Mach.len c - 1) + 1 = m_globalNumOctants s'.
Proof.
  intros Hser c Hnn Hfirst Hfit s'.
  destruct (prefixCounts_registry c Hnn Hfirst Hfit) as (Hmono & H0 & Hdiff & Hlast).
  assert (HR : m_partitionRangeGlobalIdx s' = prefixCounts c).
  { subst s'. unfold updateAdapt. rewrite Hser. reflexivity. }
  assert (HN : m_globalNumOctants s' = Mach.u64 (Mach.sumZ c)).
  { subst s'. unfold updateAdapt. rewrite Hser. reflexivity. }
  assert (Hsum : Mach.u64 (Mach.sumZ c) = Mach.sumZ c).
  { pose proof (sumZ_take_bounds c (length c) Hnn) as Hb.
    rewrite take_ge in Hb by lia. apply u64_small. unfold Mach.UINT64_MAX. lia. }
  rewrite HR, HN, Hsum.
  split; [subst s'; unfold updateAdapt; by rewrite Hser|].
  split; [done|]. split; [unfold Mach.len; by rewrite prefixCounts_length|].
  by repeat split.
Qed.


(** X11.  [updateLoadBalance], from the gathered local counts [c] (none
    negative, the first process not empty, a total that fits 64 bits):
    the tree is no longer serial, the registry before the call is kept
    as the old registry, the global count is left as it was, and the new
    registry never decreases and gives every process exactly the number
    of octants it holds. *)
Theorem updateLoadBalance_registry (s : t) :
  let c := gatherNumOctants E (on_octree LocalTree.updateLocalMaxDepth s) in
  Forall (fun n => 0 <= n) c ->
  1 <= Mach.get0 c 0 ->
  Mach.sumZ c < 2 ^ 64 ->
  let s' := updateLoadBalance E s in
  m_serial s' = false /\
  m_partitionRangeGlobalIdx0 s' = m_partitionRangeGlobalIdx s /\
  m_globalNumOctants s' = m_globalNumOctants s /\
  nondecreasing (m_partitionRangeGlobalIdx s') /\
  Mach.get0 (m_partitionRangeGlobalIdx s') 0 + 1 = Mach.get0 c 0 /\
  (forall p, 1 <= p < Mach.len c ->
     Mach.get0 (m_partitionRangeGlobalIdx s') p
     - Mach.get0 (m_partitionRangeGlobalIdx s') (p - 1) = Mach.get0 c p) /\
  Mach.get0 (m_partitionRangeGlobalIdx s') (Mach.len c - 1) + 1 = Mach.sumZ c.
Proof.
  intros c Hnn Hfirst Hfit s'.
  destruct (prefixCounts_registry c Hnn Hfirst Hfit) as (Hmono & H0 & Hdiff & Hlast).
  assert (Hfields : m_serial s' = false /\
                    m_partitionRangeGlobalIdx0 s' = m_partitionRangeGlobalIdx s /\
                    m_globalNumOctants s' = m_globalNumOctants s /\
                    m_partitionRangeGlobalIdx s' = prefixCounts c).
  { subst s'. unfold updateLoadBalance, updateGlobalLasttDescMorton,
      updateGlobalFirstDescMorton. cbv zeta.
    repeat (destruct (emptyPartition _ _); cbn); by repeat split. }
  destruct Hfields as (H1 & H2 & H3 & H4). rewrite H4.
  by repeat split.
Qed.

End Registry.

(** The collectives on the two processes of [FamilyExample]: the gathered
    counts are the local counts of the two trees. *)
Module WorldExample.

Import ParaTree.

Definition env : Env :=
  mkEnv TreeConstants.standard
    (balancedMarkers Example.env)
    (haloPbound Example.env)
    (haloGhosts Example.env)
    (fun _ => map getNumOctants FamilyExample.world)
    (reduceMaxDepth Example.env)
    (gatherFirstDesc Example.env)
    (gatherLastDesc Example.env)
    (reduceOr Example.env)
    (operationCode Example.env)
    (operationOfCode Example.env).

Definition second : t := FamilyExample.rankState 1 (drop 4 FamilyExample.globalOcts).

Lemma gathered (s : t) : gatherNumOctants env s = [4; 15].
Proof. vm_compute. reflexivity. Qed.

End WorldExample.

Lemma updateAdapt_registry_witness :
  let s := WorldExample.second in
  let c := ParaTree.gatherNumOctants WorldExample.env
             (ParaTree.set_m_partitionRangeGlobalIdx0 (ParaTree.m_partitionRangeGlobalIdx s) s) in
  let s' := ParaTree.updateAdapt WorldExample.env s in
  ParaTree.m_partitionRangeGlobalIdx0 s' = ParaTree.m_partitionRangeGlobalIdx s /\
  ParaTree.m_globalNumOctants s' = Mach.sumZ c /\
  Mach.len (ParaTree.m_partitionRangeGlobalIdx s') = Mach.len c /\
  nondecreasing (ParaTree.m_partitionRangeGlobalIdx s') /\
  Mach.get0 (ParaTree.m_partitionRangeGlobalIdx s') 0 + 1 = Mach.get0 c 0 /\
  (forall p, 1 <= p < Mach.len c ->
     Mach.get0 (ParaTree.m_partitionRangeGlobalIdx s') p
     - Mach.get0 (ParaTree.m_partitionRangeGlobalIdx s') (p - 1) = Mach.get0 c p) /\
  Mach.get0 (ParaTree.m_partitionRangeGlobalIdx s') (Mach.len c - 1) + 1 =
  ParaTree.m_globalNumOctants s'.
Proof.
  cbv zeta. apply (updateAdapt_registry WorldExample.env WorldExample.second).
  - reflexivity.
  - rewrite WorldExample.gathered. repeat constructor; lia.
  - rewrite WorldExample.gathered. vm_compute. discriminate.
  - rewrite WorldExample.gathered. vm_compute. reflexivity.
Defined.


Lemma updateLoadBalance_registry_witness :
  let s := WorldExample.second in
  let c := ParaTree.gatherNumOctants WorldExample.env
             (ParaTree.on_octree LocalTree.updateLocalMaxDepth s) in
  let s' := ParaTree.updateLoadBalance WorldExample.env s in
  ParaTree.m_serial s' = false /\
  ParaTree.m_partitionRangeGlobalIdx0 s' = ParaTree.m_partitionRangeGlobalIdx s /\
  ParaTree.m_globalNumOctants s' = ParaTree.m_globalNumOctants s /\
  nondecreasing (ParaTree.m_partitionRangeGlobalIdx s') /\
  Mach.get0 (ParaTree.m_partitionRangeGlobalIdx s') 0 + 1 = Mach.get0 c 0 /\
  (forall p, 1 <= p < Mach.len c ->
     Mach.get0 (ParaTree.m_partitionRangeGlobalIdx s') p
     - Mach.get0 (ParaTree.m_partitionRangeGlobalIdx s') (p - 1) = Mach.get0 c p) /\
  Mach.get0 (ParaTree.m_partitionRangeGlobalIdx s') (Mach.len c - 1) + 1 = Mach.sumZ c.
Proof.
  cbv zeta. apply (updateLoadBalance_registry WorldExample.env WorldExample.second).
  - rewrite WorldExample.gathered. repeat constructor; lia.
  - rewrite WorldExample.gathered. vm_compute. discriminate.
  - rewrite WorldExample.gathered. vm_compute. reflexivity.
Defined.

(** ** The owner of any key *)

Section OwnerOfAnyKey.

Import ParaTree.

(** X12.  Over last descendants that never decrease, one per process,
    [findOwner] returns for every key, with as many iterations as there
    are processes: -1 when every process ends below the key, and
    otherwise the lowest rank whose last descendant is not below the key.
    This covers the keys that no process holds: a key in the gap between
    two ranges goes to the rank after the gap. *)
Theorem findOwner_lowest (s : t) (fuel : nat) (morton : Z) :
  1 <= m_nproc s ->
  Mach.len (m_partitionLastDesc s) = m_nproc s ->
  nondecreasing (m_partitionLastDesc s) ->
  m_nproc s <= Z.of_nat fuel ->
  exists p, findOwner fuel morton s = Some p /\
    ((p = -1 /\
      forall i, 0 <= i < m_nproc s -> Mach.get0 (m_partitionLastDesc s) i < morton) \/
     (0 <= p < m_nproc s /\ morton <= Mach.get0 (m_partitionLastDesc s) p /\
      forall i, 0 <= i < p -> Mach.get0 (m_partitionLastDesc s) i < morton)).
Proof.
  intros HP Hlen Hsorted Hfuel.
  set (L := m_partitionLastDesc s) in *.
  assert (Hmono : forall i, 0 <= i -> i + 1 < m_nproc s ->
                            Mach.get0 L i <= Mach.get0 L (i + 1)).
  { intros i Hi Hi1. apply Hsorted; lia. }
  unfold findOwner. fold L.
  destruct (Z.leb_spec morton (Mach.get0 L 0)) as [Hle|Hgt].
  { exists 0. split; [reflexivity|]. right. split; [lia|]. split; [exact Hle|]. intros; lia. }
  destruct (Z.ltb_spec (Mach.get0 L (m_nproc s - 1)) morton) as [Habove|Hin].
  { exists (-1). split; [reflexivity|]. left. split; [reflexivity|].
    intros i Hi. pose proof (Hsorted i (m_nproc s - 1) ltac:(lia) ltac:(lia) ltac:(lia)). lia. }
  destruct (bisect_finds L (m_nproc s) morton Hmono Hgt fuel
              0 (m_nproc s - 1) (Z.quot (m_nproc s) 2)) as (q & Hb & Hq); [|lia|].
  { split; [lia|]. split; [lia|]. split; [lia|]. split; [by left|].
    intros Hlt. rewrite Z.quot_div_nonneg by lia.
    pose proof (Z.div_mod (m_nproc s) 2 ltac:(lia)) as Hdm.
    pose proof (Z.mod_pos_bound (m_nproc s) 2 ltac:(lia)) as Hm.
    split; [lia|]. split; [lia|].
    destruct (Z.eq_dec (m_nproc s) 2) as [H2|H2].
    - right. rewrite H2. split; [reflexivity|]. exact Hgt.
    - left. split; [lia|]. left. lia. }
  rewrite Hb. destruct Hq as (Hqr & Hqle & Hqprev).
  assert (Hq0 : q <> 0) by (intros ->; lia).
  destruct Hqprev as [?|Hqprev]; [done|].
  assert (Hstay : Z.of_nat (walkBack L (Z.to_nat q)) = q).
  { rewrite walkBack_stays; [lia|lia|]. rewrite Z2Nat.id by lia. lia. }
  exists q. split; [by rewrite Hstay|]. right.
  split; [lia|]. split; [exact Hqle|].
  intros i Hi. pose proof (Hsorted i (q - 1) ltac:(lia) ltac:(lia) ltac:(lia)). lia.
Qed.

End OwnerOfAnyKey.

(** The key 35 is above every last descendant of [OwnerExample]. *)
Lemma findOwner_lowest_witness :
  exists p, ParaTree.findOwner 4 35 OwnerExample.registry = Some p /\
    ((p = -1 /\
      forall i, 0 <= i < ParaTree.m_nproc OwnerExample.registry ->
        Mach.get0 (ParaTree.m_partitionLastDesc OwnerExample.registry) i < 35) \/
     (0 <= p < ParaTree.m_nproc OwnerExample.registry /\
      35 <= Mach.get0 (ParaTree.m_partitionLastDesc OwnerExample.registry) p /\
      forall i, 0 <= i < p ->
        Mach.get0 (ParaTree.m_partitionLastDesc OwnerExample.registry) i < 35)).
Proof.
  apply (findOwner_lowest OwnerExample.registry 4 35).
  - vm_compute. discriminate.
  - reflexivity.
  - intros i j Hi Hij Hj. change (Mach.len _) with 4 in Hj.
    assert (Hc : (i = 0 \/ i = 1 \/ i = 2 \/ i = 3) /\ (j = 0 \/ j = 1 \/ j = 2 \/ j = 3))
      by lia.
    destruct Hc as [[-> | [-> | [-> | ->]]] [-> | [-> | [-> | ->]]]];
      vm_compute; try discriminate; lia.
  - vm_compute. discriminate.
Defined.

(** ** The registries of first and last descendants *)

Section Descendants.

Import ParaTree.
Variable E : Env.

(** A pass whose step [p] writes the entry [p] only leaves the entries it
    does not visit as they were. *)
Lemma fold_only (f : list Z -> Z -> list Z) ps F k :
  (forall F p k, k <> p -> Mach.get0 (f F p) k = Mach.get0 F k) ->
  ~ In k ps -> Mach.get0 (fold_left f ps F) k = Mach.get0 F k.
Proof.
  intros Hf. revert F. induction ps as [|p ps IH]; intros F Hk; [done|].
  simpl. rewrite IH by (intros ?; apply Hk; by right).
  apply Hf. intros ->. apply Hk. by left.
Qed.

Lemma in_ranks x a n : In x (map Z.of_nat (seq a n)) <-> Z.of_nat a <= x < Z.of_nat (a + n).
Proof.
  rewrite in_map_iff. split.
  - intros (k & <- & Hk%in_seq). lia.
  - intros Hx. exists (Z.to_nat x). split; [lia|]. apply in_seq. lia.
Qed.

Lemma fillLastDesc_keeps nproc R gathered p :
  0 <= p < nproc -> emptyPartition R p = false ->
  Mach.get0 (fillLastDesc nproc R gathered) p = Mach.get0 gathered p.
Proof.
  intros Hp Hne. unfold fillLastDesc.
  destruct (Z.eq_dec p 0) as [->|Hp0].
  { apply fold_only; [intros; by apply fixLastDesc_other|].
    rewrite in_ranks. lia. }
  assert (Hsplit : map Z.of_nat (seq 1 (Z.to_nat nproc - 1)) =
                   map Z.of_nat (seq 1 (Z.to_nat p - 1)) ++ [p] ++
                   map Z.of_nat (seq (S (Z.to_nat p)) (Z.to_nat nproc - 1 - Z.to_nat p))).
  { rewrite (seq_split3 (Z.to_nat p) (Z.to_nat nproc)) by lia.
    rewrite map_app. simpl. by rewrite Z2Nat.id by lia. }
  rewrite Hsplit, !fold_left_app. simpl.
  rewrite fold_only; [|intros; by apply fixLastDesc_other|rewrite in_ranks; lia].
  unfold emptyPartition in Hne.
  destruct (Z.ltb_spec 0 p); [|lia]. simpl in Hne.
  unfold fixLastDesc at 1. rewrite Hne.
  apply fold_only; [intros; by apply fixLastDesc_other|]. rewrite in_ranks. lia.
Qed.

(** The nearest rank at or below [p] that is not empty. *)
Definition inheritsFrom (R : list Z) (p q : Z) : Prop :=
  0 <= q <= p /\ emptyPartition R q = false /\
  forall k, q < k <= p -> emptyPartition R k = true.

Lemma fillLastDesc_nearest nproc R gathered (n : nat) :
  Mach.len gathered = nproc -> Z.of_nat n < nproc ->
  exists q, inheritsFrom R (Z.of_nat n) q /\
            Mach.get0 (fillLastDesc nproc R gathered) (Z.of_nat n) = Mach.get0 gathered q.
Proof.
  intros Hlen. induction n as [|n IH]; intros Hn.
  - exists 0. split; [|by apply fillLastDesc_keeps; [lia|]].
    split; [simpl; lia|]. split; [reflexivity|]. intros; lia.
  - destruct (emptyPartition R (Z.of_nat (S n))) eqn:Hemp.
    + destruct IH as (q & (Hq & Hqne & Hbetween) & Hval); [lia|].
      exists q. split.
      * split; [lia|]. split; [exact Hqne|]. intros k Hk.
        destruct (Z.eq_dec k (Z.of_nat (S n))) as [->|]; [exact Hemp|apply Hbetween; lia].
      * rewrite fillLastDesc_inherits; [|done|lia|].
        -- replace (Z.of_nat (S n) - 1) with (Z.of_nat n) by lia. exact Hval.
        -- unfold emptyPartition in Hemp. apply andb_true_iff in Hemp as [_ Heq].
           by apply Z.eqb_eq in Heq.
    + exists (Z.of_nat (S n)). split; [|apply fillLastDesc_keeps; [lia|done]].
      split; [lia|]. split; [exact Hemp|]. intros; lia.
Qed.

(** X13.  [updateGlobalLasttDescMorton]: every rank gets the gathered
    last descendant of the nearest rank at or below it that is not empty
    (rank 0 counts as not empty), so a rank that is not empty keeps its
    own; and when the gathered values of the ranks that are not empty
    never decrease with the rank, the registry never decreases. *)
Theorem updateGlobalLasttDescMorton_registry (s : t) :
  Mach.len (gatherLastDesc E s) = m_nproc s ->
  let R := m_partitionRangeGlobalIdx s in
  let G := gatherLastDesc E s in
  let L := m_partitionLastDesc (updateGlobalLasttDescMorton E s) in
  Mach.len L = m_nproc s /\
  (forall p, 0 <= p < m_nproc s ->
     exists q, inheritsFrom R p q /\ Mach.get0 L p = Mach.get0 G q) /\
  ((forall a b, 0 <= a <= b -> b < m_nproc s ->
      emptyPartition R a = false -> emptyPartition R b = false ->
      Mach.get0 G a <= Mach.get0 G b) ->
   nondecreasing L).
Proof.
  intros Hlen R G L.
  assert (HL : L = fillLastDesc (m_nproc s) R G).
  { subst L. unfold updateGlobalLasttDescMorton. cbv zeta.
    destruct (emptyPartition _ _); reflexivity. }
  assert (Hnear : forall p, 0 <= p < m_nproc s ->
            exists q, inheritsFrom R p q /\ Mach.get0 L p = Mach.get0 G q).
  { intros p Hp. rewrite HL.
    destruct (fillLastDesc_nearest (m_nproc s) R G (Z.to_nat p) Hlen ltac:(lia))
      as (q & Hq & Hval).
    rewrite Z2Nat.id in * by lia. by exists q. }
  assert (HlenL : Mach.len L = m_nproc s).
  { rewrite HL. unfold fillLastDesc. by rewrite fold_fixLastDesc_len. }
  split; [exact HlenL|]. split; [exact Hnear|].
  intros HG i j Hi Hij Hj. rewrite HlenL in Hj.
  destruct (Hnear i ltac:(lia)) as (qi & (Hqi & Hnei & Hbi) & ->).
  destruct (Hnear j ltac:(lia)) as (qj & (Hqj & Hnej & Hbj) & ->).
  assert (qi <= qj).
  { destruct (Z_le_dec qi qj); [done|].
    rewrite (Hbj qi) in Hnei by lia. discriminate. }
  apply HG; (done || lia).
Qed.

Lemma fixFirstDesc_other R Fv p k :
  k <> p -> Mach.get0 (fixFirstDesc R Fv p) k = Mach.get0 Fv k.
Proof.
  intros Hne. unfold fixFirstDesc, Mach.get0.
  destruct (_ =? _); [|done]. by rewrite at_set_ne.
Qed.

Lemma fixFirstDesc_len R Fv p : Mach.len (fixFirstDesc R Fv p) = Mach.len Fv.
Proof. unfold fixFirstDesc. destruct (_ =? _); [apply len_set|done]. Qed.

Lemma fold_fixFirstDesc_len R ps Fv :
  Mach.len (fold_left (fixFirstDesc R) ps Fv) = Mach.len Fv.
Proof.
  revert Fv. induction ps as [|p ps IH]; intros Fv; [done|].
  simpl. by rewrite IH, fixFirstDesc_len.
Qed.

Lemma fillFirstDesc_len nproc R gathered :
  Mach.len (fillFirstDesc nproc R gathered) = Mach.len gathered.
Proof.
  unfold fillFirstDesc. cbv zeta. rewrite fold_fixFirstDesc_len.
  destruct (_ =? _); [apply len_set|done].
Qed.

(** The ranks the backward pass visits: first those above [p], then [p],
    then those below it. *)
Lemma rev_ranks_split (p pp : nat) :
  (1 <= p < pp)%nat ->
  rev (map Z.of_nat (seq 1 (pp - 1))) =
  rev (map Z.of_nat (seq (S p) (pp - 1 - p))) ++ [Z.of_nat p] ++
  rev (map Z.of_nat (seq 1 (p - 1))).
Proof.
  intros H. rewrite (seq_split3 p pp) by lia.
  rewrite map_app, rev_app_distr. simpl. by rewrite <- app_assoc.
Qed.

Lemma in_rev_ranks x a n :
  In x (rev (map Z.of_nat (seq a n))) <-> Z.of_nat a <= x < Z.of_nat (a + n).
Proof. rewrite <- in_rev. apply in_ranks. Qed.

Lemma fillFirstDesc_last nproc R gathered :
  2 <= nproc -> Mach.len gathered = nproc ->
  Mach.get0 (fillFirstDesc nproc R gathered) (nproc - 1) =
  if emptyPartition R (nproc - 1) then Mach.UINT64_MAX
  else Mach.get0 gathered (nproc - 1).
Proof.
  intros HP Hlen. unfold fillFirstDesc. cbv zeta.
  rewrite fold_only; [|intros; by apply fixFirstDesc_other|rewrite in_rev_ranks; lia].
  unfold emptyPartition. destruct (Z.ltb_spec 0 (nproc - 1)); [|lia]. simpl.
  destruct (_ =? _); [|done].
  unfold Mach.get0. by rewrite at_set_eq by lia.
Qed.

Lemma fillFirstDesc_keeps nproc R gathered p :
  2 <= nproc -> 0 <= p < nproc - 1 -> emptyPartition R p = false ->
  Mach.get0 (fillFirstDesc nproc R gathered) p = Mach.get0 gathered p.
Proof.
  intros HP Hp Hne. unfold fillFirstDesc. cbv zeta.
  set (F0 := if _ =? _ then _ else _).
  assert (HF0 : Mach.get0 F0 p = Mach.get0 gathered p).
  { subst F0. destruct (_ =? _); [|done]. unfold Mach.get0. by rewrite at_set_ne by lia. }
  destruct (Z.eq_dec p 0) as [->|Hp0].
  { rewrite fold_only; [done|intros; by apply fixFirstDesc_other|].
    rewrite in_rev_ranks. lia. }
  rewrite (rev_ranks_split (Z.to_nat p) (Z.to_nat (nproc - 1))) by lia.
  rewrite !fold_left_app. simpl. rewrite Z2Nat.id by lia.
  rewrite fold_only; [|intros; by apply fixFirstDesc_other|rewrite in_rev_ranks; lia].
  unfold emptyPartition in Hne. destruct (Z.ltb_spec 0 p); [|lia]. simpl in Hne.
  unfold fixFirstDesc at 1. rewrite Hne.
  rewrite fold_only; [done|intros; by apply fixFirstDesc_other|].
  rewrite in_rev_ranks. lia.
Qed.

Lemma fillFirstDesc_inherits nproc R gathered p :
  2 <= nproc -> Mach.len gathered = nproc ->
  1 <= p < nproc - 1 -> emptyPartition R p = true ->
  Mach.get0 (fillFirstDesc nproc R gathered) p =
  Mach.get0 (fillFirstDesc nproc R gathered) (p + 1).
Proof.
  intros HP Hlen Hp Hemp. unfold fillFirstDesc. cbv zeta.
  set (F0 := if _ =? _ then _ else _).
  assert (HlenF0 : Mach.len F0 = nproc).
  { subst F0. destruct (_ =? _); [by rewrite len_set|done]. }
  rewrite (rev_ranks_split (Z.to_nat p) (Z.to_nat (nproc - 1))) by lia.
  rewrite !fold_left_app. simpl. rewrite Z2Nat.id by lia.
  set (F1 := fold_left (fixFirstDesc R) _ F0).
  assert (HlenF1 : Mach.len F1 = nproc).
  { subst F1. by rewrite fold_fixFirstDesc_len. }
  rewrite !fold_only;
    [|intros; by apply fixFirstDesc_other|rewrite in_rev_ranks; lia
     |intros; by apply fixFirstDesc_other|rewrite in_rev_ranks; lia].
  unfold emptyPartition in Hemp. apply andb_true_iff in Hemp as [_ Heq].
  unfold fixFirstDesc. rewrite Heq.
  unfold Mach.get0 at 1. rewrite at_set_eq by lia. simpl.
  unfold Mach.get0 at 2. by rewrite at_set_ne by lia.
Qed.

(** The nearest rank at or above [p] that is not empty, when there is
    one. *)
Definition takesFrom (R : list Z) (nproc p q : Z) : Prop :=
  p <= q < nproc /\ emptyPartition R q = false /\
  forall k, p <= k < q -> emptyPartition R k = true.

Lemma fillFirstDesc_nearest nproc R gathered (d : nat) :
  2 <= nproc -> Mach.len gathered = nproc -> Z.of_nat d <= nproc - 1 ->
  let p := nproc - 1 - Z.of_nat d in
  (exists q, takesFrom R nproc p q /\
             Mach.get0 (fillFirstDesc nproc R gathered) p = Mach.get0 gathered q) \/
  ((forall k, p <= k < nproc -> emptyPartition R k = true) /\
   Mach.get0 (fillFirstDesc nproc R gathered) p = Mach.UINT64_MAX).
Proof.
  intros HP Hlen. induction d as [|d IH]; intros Hd; cbv zeta.
  - replace (nproc - 1 - Z.of_nat 0) with (nproc - 1) by lia.
    rewrite fillFirstDesc_last by done.
    destruct (emptyPartition R (nproc - 1)) eqn:Hemp.
    + right. split; [|done]. intros k Hk. by replace k with (nproc - 1) by lia.
    + left. exists (nproc - 1). split; [|done].
      split; [lia|]. split; [done|]. intros; lia.
  - set (p := nproc - 1 - Z.of_nat (S d)).
    destruct (emptyPartition R p) eqn:Hemp.
    + assert (Hp1 : 1 <= p).
      { unfold emptyPartition in Hemp. apply andb_true_iff in Hemp as [Hpos _].
        apply Z.ltb_lt in Hpos. lia. }
      rewrite fillFirstDesc_inherits by (done || lia).
      replace (p + 1) with (nproc - 1 - Z.of_nat d) by lia.
      destruct IH as [(q & (Hq & Hqne & Hbetween) & Hval)|[Hall Hval]]; [lia| |].
      * left. exists q. split; [|exact Hval].
        split; [lia|]. split; [done|]. intros k Hk.
        destruct (Z.eq_dec k p) as [->|]; [done|apply Hbetween; lia].
      * right. split; [|exact Hval]. intros k Hk.
        destruct (Z.eq_dec k p) as [->|]; [done|apply Hall; lia].
    + left. exists p. split; [|apply fillFirstDesc_keeps; (done || lia)].
      split; [lia|]. split; [done|]. intros; lia.
Qed.

(** X14.  [updateGlobalFirstDescMorton] on two processes or more: every
    rank gets the gathered first descendant of the nearest rank at or
    above it that is not empty (rank 0 counts as not empty), and the
    largest 64-bit key when every rank from it to the last one is
    empty. *)
Theorem updateGlobalFirstDescMorton_registry (s : t) (p : Z) :
  2 <= m_nproc s ->
  Mach.len (gatherFirstDesc E s) = m_nproc s ->
  0 <= p < m_nproc s ->
  let R := m_partitionRangeGlobalIdx s in
  let G := gatherFirstDesc E s in
  let F := m_partitionFirstDesc (updateGlobalFirstDescMorton E s) in
  Mach.len F = m_nproc s /\
  ((exists q, takesFrom R (m_nproc s) p q /\ Mach.get0 F p = Mach.get0 G q) \/
   ((forall k, p <= k < m_nproc s -> emptyPartition R k = true) /\
    Mach.get0 F p = Mach.UINT64_MAX)).
Proof.
  intros HP Hlen Hp R G F.
  assert (HF : F = fillFirstDesc (m_nproc s) R G).
  { subst F. unfold updateGlobalFirstDescMorton. cbv zeta.
    destruct (emptyPartition _ _); reflexivity. }
  rewrite HF. split; [by rewrite fillFirstDesc_len|].
  pose proof (fillFirstDesc_nearest (m_nproc s) R G (Z.to_nat (m_nproc s - 1 - p))
                HP Hlen ltac:(lia)) as H.
  cbv zeta in H.
  replace (m_nproc s - 1 - Z.of_nat (Z.to_nat (m_nproc s - 1 - p))) with p in H by lia.
  exact H.
Qed.

End Descendants.

(** Four processes, the second of them empty, each contributing the
    descendants the registry of [OwnerExample] holds. *)
Lemma updateGlobalLasttDescMorton_registry_witness :
  let s := OwnerExample.registry in
  let R := ParaTree.m_partitionRangeGlobalIdx s in
  let G := ParaTree.gatherLastDesc Example.env s in
  let L := ParaTree.m_partitionLastDesc (ParaTree.updateGlobalLasttDescMorton Example.env s) in
  Mach.len L = ParaTree.m_nproc s /\
  (forall p, 0 <= p < ParaTree.m_nproc s ->
     exists q, inheritsFrom R p q /\ Mach.get0 L p = Mach.get0 G q) /\
  ((forall a b, 0 <= a <= b -> b < ParaTree.m_nproc s ->
      ParaTree.emptyPartition R a = false -> ParaTree.emptyPartition R b = false ->
      Mach.get0 G a <= Mach.get0 G b) ->
   nondecreasing L).
Proof.
  cbv zeta. apply (updateGlobalLasttDescMorton_registry Example.env OwnerExample.registry).
  reflexivity.
Defined.

Lemma updateGlobalFirstDescMorton_registry_witness :
  let s := OwnerExample.registry in
  let R := ParaTree.m_partitionRangeGlobalIdx s in
  let G := ParaTree.gatherFirstDesc Example.env s in
  let F := ParaTree.m_partitionFirstDesc (ParaTree.updateGlobalFirstDescMorton Example.env s) in
  Mach.len F = ParaTree.m_nproc s /\
  ((exists q, takesFrom R (ParaTree.m_nproc s) 1 q /\ Mach.get0 F 1 = Mach.get0 G q) \/
   ((forall k, 1 <= k < ParaTree.m_nproc s -> ParaTree.emptyPartition R k = true) /\
    Mach.get0 F 1 = Mach.UINT64_MAX)).
Proof.
  cbv zeta. apply (updateGlobalFirstDescMorton_registry Example.env OwnerExample.registry 1).
  - vm_compute. discriminate.
  - reflexivity.
  - vm_compute. split; [discriminate|reflexivity].
Defined.

(** ** What the adapts leave alone *)

Section Bookkeeping.

Import Eff ParaTree.
Variable E : Env.

(** The members that no pass over the octants writes: the counter of the
    adapts, the tag of the last operation, and the settings of the tree. *)
Definition settings (s : t) : Z * Operation * (Z * Z * Z) * (bool * Z * list bool) :=
  (m_status s, m_lastOp s, (m_nproc s, m_rank s, m_dim s),
   (m_serial s, m_nofGhostLayers s, m_periodic s)).

Lemma settings_startAdapt keepMap s : settings (startAdapt keepMap s) = settings s.
Proof. reflexivity. Qed.

Lemma settings_balance21 v b s : settings (balance21 E v b s) = settings s.
Proof. reflexivity. Qed.

Lemma settings_computeGhostHalo s : settings (computeGhostHalo E s) = settings s.
Proof. reflexivity. Qed.

Lemma settings_updateAdapt s : settings (updateAdapt E s) = settings s.
Proof. unfold updateAdapt. cbv zeta. destruct (m_serial s) eqn:Hs; unfold settings; cbn; by rewrite ?Hs. Qed.

Lemma settings_updateGlobalFirstDescMorton s :
  settings (updateGlobalFirstDescMorton E s) = settings s.
Proof. unfold updateGlobalFirstDescMorton. cbv zeta. by destruct (emptyPartition _ _). Qed.

Lemma settings_updateGlobalLasttDescMorton s :
  settings (updateGlobalLasttDescMorton E s) = settings s.
Proof. unfold updateGlobalLasttDescMorton. cbv zeta. by destruct (emptyPartition _ _). Qed.

Lemma settings_updateAfterCoarse s : settings (updateAfterCoarse E s) = settings s.
Proof.
  unfold updateAfterCoarse. cbv zeta. destruct (m_serial (updateAdapt E s)).
  - apply settings_updateAdapt.
  - by rewrite settings_updateGlobalLasttDescMorton, settings_updateGlobalFirstDescMorton,
      settings_updateAdapt.
Qed.

Lemma settings_halo (b : bool) s :
  settings (if b then s else computeGhostHalo E s) = settings s.
Proof. by destruct b. Qed.

Lemma settings_pass pass s : settings (snd (lift_pass pass E s)) = settings s.
Proof. reflexivity. Qed.

Lemma settings_loop body fuel s s' :
  (forall s0, settings (snd (body s0)) = settings s0) ->
  loop fuel body s = Some s' -> settings s' = settings s.
Proof.
  intros Hbody. revert s. induction fuel as [|fuel IH]; intros s H; [discriminate|].
  rewrite loop_S in H. destruct (fst (body s)).
  - rewrite (IH _ H). apply Hbody.
  - injection H as <-. apply Hbody.
Qed.

Lemma adaptGlobalCoarse_settings fuel mapflag s r :
  adaptGlobalCoarse E fuel mapflag s = Some r -> settings (snd r) = settings s.
Proof.
  unfold adaptGlobalCoarse. cbv zeta. intros H.
  destruct (loop fuel (globalCoarsePass E) _) as [s3|] eqn:H3; [|discriminate].
  cbn [bindO] in H.
  destruct (loop fuel (refinePass E) _) as [s7|] eqn:H7; [|discriminate].
  cbn [bindO] in H. injection H as <-. cbn [snd].
  apply (settings_loop _ _ _ _ (settings_pass _)) in H3, H7.
  rewrite settings_halo, settings_updateAdapt, H7, settings_balance21, settings_halo,
    settings_updateAfterCoarse, H3, settings_balance21.
  apply settings_startAdapt.
Qed.

Lemma adaptGlobalRefine_settings fuel mapflag s r :
  adaptGlobalRefine E fuel mapflag s = Some r ->
  settings (snd r) = settings (set_m_lastOp (adaptOperation mapflag) s).
Proof.
  unfold adaptGlobalRefine. cbv zeta. intros H.
  destruct (loop fuel (globalRefinePass E) _) as [s2|] eqn:H2; [|discriminate].
  cbn [bindO] in H. injection H as <-. cbn [snd].
  apply (settings_loop _ _ _ _ (settings_pass _)) in H2.
  pose proof (settings_halo (m_serial s) (updateAdapt E s2)) as Hh.
  rewrite settings_updateAdapt, H2, settings_startAdapt in Hh.
  unfold settings in *. cbn. congruence.
Qed.

Lemma private_adapt_settings fuel mapflag s r :
  private_adapt_mapidx E fuel mapflag s = Some r ->
  settings (snd r) = settings (set_m_lastOp (adaptOperation mapflag) s).
Proof.
  unfold private_adapt_mapidx. cbv zeta. intros H.
  destruct (loop fuel (refinePass E) _) as [s3|] eqn:H3; [|discriminate].
  cbn [bindO] in H.
  destruct (loop fuel (coarsePass E) _) as [s6|] eqn:H6; [|discriminate].
  cbn [bindO] in H. injection H as <-. cbn [snd].
  apply (settings_loop _ _ _ _ (settings_pass _)) in H3, H6.
  pose proof (settings_halo (m_serial s) (updateAfterCoarse E s6)) as Hh.
  rewrite settings_updateAfterCoarse, H6 in Hh.
  rewrite (settings_halo (m_serial s) (updateAdapt E s3)), settings_updateAdapt, H3 in Hh.
  assert (H2 : settings (if decide (m_lastOp (startAdapt mapflag s) = OP_PRE_ADAPT)
                         then startAdapt mapflag s
                         else balance21 E true false (startAdapt mapflag s)) = settings s).
  { by destruct (decide _). }
  rewrite H2 in Hh. unfold settings in *. cbn. congruence.
Qed.

(** X15.  The global adapts and the tag of the last operation.  Both
    return.  [adaptGlobalRefine] sets the tag to the adapt state;
    [adaptGlobalCoarse] leaves the tag as it finds it, so that a tree
    locked by [preadapt] is still locked after it and [setMarker] keeps
    throwing.  Neither counts in the status, and neither changes the
    number of processes, the rank, the dimension, the serial flag, the
    width of the halo or the periodic faces. *)
Theorem global_adapt_last_operation (s : t) (mapflag : bool) :
  (exists fuel r, adaptGlobalRefine E fuel mapflag s = Some r) /\
  (exists fuel r, adaptGlobalCoarse E fuel mapflag s = Some r) /\
  (forall fuel done s',
     adaptGlobalRefine E fuel mapflag s = Some (done, s') ->
     settings s' = settings (set_m_lastOp (adaptOperation mapflag) s) /\
     m_lastOp s' = adaptOperation mapflag /\ m_status s' = m_status s) /\
  (forall fuel done s',
     adaptGlobalCoarse E fuel mapflag s = Some (done, s') ->
     settings s' = settings s /\
     m_lastOp s' = m_lastOp s /\ m_status s' = m_status s /\
     (m_lastOp s = OP_PRE_ADAPT ->
      forall idx marker,
        setMarker idx marker s' = Throw (runtime_error MSG_LOCKED) s')).
Proof.
  split; [|split; [|split]].
  - exists 1%nat. destruct (adaptGlobalRefine_returns E 0 mapflag s) as [done H]. eauto.
  - apply adaptGlobalCoarse_total.
  - intros fuel done s' H. apply adaptGlobalRefine_settings in H. cbn [snd] in H.
    split; [exact H|]. unfold settings in H. cbn in H. split; congruence.
  - intros fuel done s' H. apply adaptGlobalCoarse_settings in H. cbn [snd] in H.
    split; [exact H|]. unfold settings in H.
    assert (Hop : m_lastOp s' = m_lastOp s) by congruence.
    split; [exact Hop|]. split; [congruence|].
    intros Hpre idx marker. unfold setMarker. apply guarded_locked. congruence.
Qed.

(** X16.  [adapt] returns, counts in the status exactly when it reports
    a change ([m_status += done], in 64 bits), sets the tag of the last
    operation to the adapt state, and leaves the number of processes, the
    rank, the dimension, the serial flag, the width of the halo and the
    periodic faces as they were. *)
Theorem adapt_counts_in_status (s : t) (mapflag : bool) :
  (exists fuel r, adapt E fuel mapflag s = Some r) /\
  (forall fuel done s',
     adapt E fuel mapflag s = Some (done, s') ->
     m_status s' = Mach.u64 (m_status s + Z.b2z done) /\
     settings s' =
     settings (set_m_status (Mach.u64 (m_status s + Z.b2z done))
                 (set_m_lastOp (adaptOperation mapflag) s))).
Proof.
  split.
  - destruct (adapt_total E mapflag s) as (f & r & H). exists f, r. by apply H.
  - intros fuel done s' H. unfold adapt in H.
    destruct (private_adapt_mapidx E fuel mapflag s) as [r|] eqn:Hp; [|discriminate].
    cbn [bindO] in H. injection H as <- <-.
    apply private_adapt_settings in Hp. unfold settings in *. cbn in *.
    injection Hp as Hst Hop Hn Hr Hd Hse Hg Hpe.
    split; [by rewrite Hst|]. by rewrite Hst, Hop, Hn, Hr, Hd, Hse, Hg, Hpe.
Qed.

End Bookkeeping.

(** ** The markers after a pre-adapt *)

Section PreAdapt.

Import Eff ParaTree.
Variable E : Env.

Lemma zip_iota_in {A} (l : list A) i o :
  In (i, o) (zip (Mach.iota (length l)) l) <-> Mach.at_ l i = Some o.
Proof.
  rewrite <- list_elem_of_In. split.
  - intros H. apply list_elem_of_lookup in H as [k Hk].
    apply lookup_zip_with_Some in Hk as (a & b & Heq & Ha & Hb).
    injection Heq as -> ->.
    assert (k < length l)%nat by (by apply lookup_lt_Some in Hb).
    rewrite iota_lookup in Ha by done. injection Ha as <-. by rewrite at_nat.
  - intros H. pose proof (at_Some_bounds _ _ _ H) as Hb. unfold Mach.len in Hb.
    apply list_elem_of_lookup. exists (Z.to_nat i).
    apply lookup_zip_with_Some. exists i, o. split; [done|]. split.
    + rewrite iota_lookup by lia. f_equal. lia.
    + unfold Mach.at_ in H. destruct (Z.ltb_spec i 0); [lia|done].
Qed.

Lemma zip_const_flag {A B C} (l1 : list A) (l2 : list B) (l3 : list C) i m (b c : bool) :
  In (i, (m, b)) (zip l1 (zip l2 (map (fun _ => c) l3))) -> b = c.
Proof.
  intros H%list_elem_of_In. apply list_elem_of_lookup in H as [k Hk].
  apply lookup_zip_with_Some in Hk as (x & y & Heq & _ & Hy).
  injection Heq as -> <-.
  apply lookup_zip_with_Some in Hy as (u & v & Heq & _ & Hv).
  injection Heq as -> ->.
  rewrite list_lookup_fmap in Hv. destruct (l3 !! k); simpl in Hv; congruence.
Qed.

Lemma zip3_map {A B1 B2 B3} (f : A -> B1) (g : A -> B2) (c : B3) (l : list A) :
  zip (map f l) (zip (map g l) (map (fun _ => c) l)) = map (fun p => (f p, (g p, c))) l.
Proof. induction l as [|a l IH]; simpl; [done|]. by rewrite <- IH. Qed.

(** X17.  [getPreMapping] and [getPreMarker], on a tree whose octants are
    counted in 32 bits.  Unless the last operation is a pre-adapt both
    throw and leave the tree as it was.  After a pre-adapt
    [getPreMapping] returns three vectors of one length, in which the
    entries that are not ghosts are exactly the owned octants whose
    marker is not zero, each with its marker, the one [getPreMarker]
    returns for it; and on one process [checkToAdapt] holds exactly when
    there is such an entry. *)
Theorem getPreMapping_lists_marked (s : t) :
  Mach.len (LocalTree.m_octants (m_octree s)) < 2 ^ 32 ->
  (m_lastOp s <> OP_PRE_ADAPT ->
   getPreMapping s = Throw (runtime_error MSG_PREMARKER) s /\
   forall i, getPreMarker i s = Throw (runtime_error MSG_PREMARKER) s) /\
  (m_lastOp s = OP_PRE_ADAPT ->
   exists idx markers isghost,
     getPreMapping s = Ok (idx, markers, isghost) s /\
     length markers = length idx /\ length isghost = length idx /\
     (forall i m, In (i, (m, false)) (zip idx (zip markers isghost)) <->
                  getMarker i s = Some m /\ m <> 0) /\
     (forall i m, In (i, (m, false)) (zip idx (zip markers isghost)) ->
                  getPreMarker i s = Ok m s) /\
     (m_nproc s = 1 ->
      (checkToAdapt E s = true <->
       exists i m, In (i, (m, false)) (zip idx (zip markers isghost))))).
Proof.
  intros Hfit. split.
  { intros Hop. unfold getPreMapping, getPreMarker, bind, get, throw.
    rewrite bool_decide_false by done. by split. }
  intros Hop.
  set (octs := LocalTree.m_octants (m_octree s)) in *.
  set (firstG := LocalTree.m_firstGhostBros (m_octree s)).
  set (lastG := LocalTree.m_lastGhostBros (m_octree s)).
  set (owned := List.filter (fun p : Z * Octant.t => negb (Octant.getMarker (snd p) =? 0))
                  (zip (Mach.iota (length octs)) octs)).
  assert (Hn : Z.to_nat (getNumOctants s) = length octs).
  { unfold getNumOctants, LocalTree.getNumOctants. fold octs.
    rewrite u32_small by (unfold Mach.UINT32_MAX, Mach.len in *; lia).
    unfold Mach.len. lia. }
  assert (Hrun : getPreMapping s =
            Ok (firstG ++ map fst owned ++ lastG,
                map (ghostMarker s) firstG
                  ++ map (fun p : Z * Octant.t => Octant.getMarker (snd p)) owned
                  ++ map (ghostMarker s) lastG,
                map (fun _ => true) firstG ++ map (fun _ => false) owned
                  ++ map (fun _ => true) lastG) s).
  { unfold getPreMapping, bind, get, ret. rewrite bool_decide_true by done.
    cbn [negb]. rewrite Hn. reflexivity. }
  assert (Hentries : forall i m,
            In (i, (m, false))
               (zip (firstG ++ map fst owned ++ lastG)
                  (zip (map (ghostMarker s) firstG
                          ++ map (fun p : Z * Octant.t => Octant.getMarker (snd p)) owned
                          ++ map (ghostMarker s) lastG)
                       (map (fun _ => true) firstG ++ map (fun _ => false) owned
                          ++ map (fun _ => true) lastG))) <->
            getMarker i s = Some m /\ m <> 0).
  { intros i m.
    rewrite !(zip_with_app pair), !in_app_iff by (by rewrite ?length_zip_with, !length_map; lia).
    rewrite zip3_map, in_map_iff. split.
    - intros [H|[H|H]]; [by apply zip_const_flag in H| |by apply zip_const_flag in H].
      destruct H as ([j o] & Heq & Hin). cbn [fst snd] in Heq. injection Heq as -> <-.
      apply filter_In in Hin as [Hin Hm]. cbn [snd] in Hm.
      apply zip_iota_in in Hin. unfold getMarker, getOctant. fold octs. rewrite Hin.
      split; [done|]. apply negb_true_iff, Z.eqb_neq in Hm. exact Hm.
    - intros [Hm Hne]. right. left.
      unfold getMarker, getOctant in Hm. fold octs in Hm.
      destruct (Mach.at_ octs i) as [o|] eqn:Ho; [|discriminate].
      injection Hm as <-. exists (i, o). split; [done|].
      apply filter_In. split; [by apply zip_iota_in|].
      cbn [snd]. by apply negb_true_iff, Z.eqb_neq. }
  eexists _, _, _. split; [exact Hrun|].
  split; [by rewrite !length_app, !length_map|].
  split; [by rewrite !length_app, !length_map|].
  split; [exact Hentries|]. split.
  - intros i m [Hm _]%Hentries. unfold getPreMarker, bind, get, ret.
    rewrite bool_decide_true by done. cbn [negb]. by rewrite Hm.
  - intros HP. unfold checkToAdapt. rewrite HP, Z.eqb_refl. fold octs.
    rewrite existsb_exists. split.
    + intros (o & Hin & Hm). apply list_elem_of_In, list_elem_of_lookup in Hin as [k Hk].
      exists (Z.of_nat k), (Octant.getMarker o). apply Hentries.
      unfold getMarker, getOctant. fold octs. rewrite at_nat, Hk. split; [done|].
      by apply negb_true_iff, Z.eqb_neq in Hm.
    + intros (i & m & [Hm Hne]%Hentries).
      unfold getMarker, getOctant in Hm. fold octs in Hm.
      destruct (Mach.at_ octs i) as [o|] eqn:Ho; [|discriminate].
      injection Hm as <-. exists o. split; [|by apply negb_true_iff, Z.eqb_neq].
      unfold Mach.at_ in Ho. destruct (Z.ltb_spec i 0); [discriminate|].
      apply list_elem_of_In. by apply list_elem_of_lookup_2 in Ho.
Qed.

End PreAdapt.

(** The root octant of a two-dimensional tree, marked for refinement and
    pre-adapted. *)
Lemma getPreMapping_lists_marked_witness :
  let s := ParaTree.preadapt Example.env
             (ParaTree.on_octree (LocalTree.setMarker 0 1) (Example.fresh 2)) in
  (ParaTree.m_lastOp s <> ParaTree.OP_PRE_ADAPT ->
   ParaTree.getPreMapping s = Eff.Throw (Eff.runtime_error ParaTree.MSG_PREMARKER) s /\
   forall i, ParaTree.getPreMarker i s =
             Eff.Throw (Eff.runtime_error ParaTree.MSG_PREMARKER) s) /\
  (ParaTree.m_lastOp s = ParaTree.OP_PRE_ADAPT ->
   exists idx markers isghost,
     ParaTree.getPreMapping s = Eff.Ok (idx, markers, isghost) s /\
     length markers = length idx /\ length isghost = length idx /\
     (forall i m, In (i, (m, false)) (zip idx (zip markers isghost)) <->
                  ParaTree.getMarker i s = Some m /\ m <> 0) /\
     (forall i m, In (i, (m, false)) (zip idx (zip markers isghost)) ->
                  ParaTree.getPreMarker i s = Eff.Ok m s) /\
     (ParaTree.m_nproc s = 1 ->
      (ParaTree.checkToAdapt Example.env s = true <->
       exists i m, In (i, (m, false)) (zip idx (zip markers isghost))))).
Proof.
  cbv zeta.
  apply (getPreMapping_lists_marked Example.env
           (ParaTree.preadapt Example.env
              (ParaTree.on_octree (LocalTree.setMarker 0 1) (Example.fresh 2)))).
  vm_compute. reflexivity.
Defined.

(** ** Periodic faces: how the calls compose *)

Section PeriodicAlgebra.

Import ParaTree.
Variable E : Env.

Lemma flags_ext (v w : list bool) :
  Mach.len v = Mach.len w ->
  (forall a, 0 <= a < Mach.len v ->
             default false (Mach.at_ v a) = default false (Mach.at_ w a)) ->
  v = w.
Proof.
  intros Hlen Hget. apply list_eq_same_length with (n := length v);
    [unfold Mach.len in Hlen; lia|done|].
  intros k x y Hk Hx Hy. specialize (Hget (Z.of_nat k) ltac:(unfold Mach.len; lia)).
  rewrite !at_nat, Hx, Hy in Hget. exact Hget.
Qed.

(** The flags after [setPeriodic(i)], [j] being the face opposite to [i]. *)
Definition withPair (v : list bool) (i j : Z) : list bool :=
  Mach.set_ (Mach.set_ v i true) j true.

Lemma withPair_len v i j : Mach.len (withPair v i j) = Mach.len v.
Proof. unfold withPair. by rewrite !len_set. Qed.

Lemma withPair_get v i j a :
  0 <= i < Mach.len v -> 0 <= j < Mach.len v ->
  default false (Mach.at_ (withPair v i j) a) =
  if (a =? i) || (a =? j) then true else default false (Mach.at_ v a).
Proof.
  intros Hi Hj. unfold withPair.
  rewrite getPeriodic_set_true by (by rewrite len_set).
  rewrite getPeriodic_set_true by done.
  destruct (a =? j), (a =? i); reflexivity.
Qed.

Lemma setPeriodic_withPair i j s :
  Mach.at_ (TreeConstants.oppositeFace (constants E s)) i = Some j ->
  setPeriodic E i s =
  on_octree (LocalTree.setPeriodic (withPair (m_periodic s) i j))
            (set_m_periodic (withPair (m_periodic s) i j) s).
Proof. intros H. unfold setPeriodic. rewrite H. reflexivity. Qed.

(** X18.  How the calls of [setPeriodic] compose, over a well-formed
    table of opposite faces and one flag per face: a second call on the
    same face changes nothing; the call on a face and the call on the
    face opposite to it give the same tree; two calls give the same tree
    in either order; and no call clears the flag of a face. *)
Theorem setPeriodic_composes (s : t) (i k : Z) :
  TreeConstants.wf (constants E s) ->
  Mach.len (m_periodic s) = TreeConstants.nFaces (constants E s) ->
  0 <= i < TreeConstants.nFaces (constants E s) ->
  0 <= k < TreeConstants.nFaces (constants E s) ->
  setPeriodic E i (setPeriodic E i s) = setPeriodic E i s /\
  (forall j, Mach.at_ (TreeConstants.oppositeFace (constants E s)) i = Some j ->
             setPeriodic E j s = setPeriodic E i s) /\
  setPeriodic E k (setPeriodic E i s) = setPeriodic E i (setPeriodic E k s) /\
  (forall a, getPeriodic a s = true -> getPeriodic a (setPeriodic E i s) = true).
Proof.
  intros (Hn & Hlen & Hopp) Hper Hi Hk.
  destruct (at_in_range (TreeConstants.oppositeFace (constants E s)) i) as [j Hj]; [lia|].
  destruct (at_in_range (TreeConstants.oppositeFace (constants E s)) k) as [l Hl]; [lia|].
  destruct (Hopp i j Hj) as [Hjr Hji]. destruct (Hopp k l Hl) as [Hlr Hlk].
  set (v := m_periodic s) in *.
  assert (Htwice : forall a b c d,
            Mach.at_ (TreeConstants.oppositeFace (constants E s)) a = Some b ->
            Mach.at_ (TreeConstants.oppositeFace (constants E s)) c = Some d ->
            setPeriodic E c (setPeriodic E a s) =
            on_octree (LocalTree.setPeriodic (withPair (withPair v a b) c d))
                      (set_m_periodic (withPair (withPair v a b) c d) s)).
  { intros a b c d Hab Hcd.
    rewrite (setPeriodic_withPair c d) by (by rewrite constants_setPeriodic).
    rewrite (setPeriodic_withPair a b) by done. reflexivity. }
  split; [|split; [|split]].
  - rewrite (Htwice i j i j) by done. rewrite (setPeriodic_withPair i j) by done.
    fold v. f_equal; [f_equal|f_equal]; symmetry; apply flags_ext;
      rewrite ?withPair_len; try done;
      intros x Hx; rewrite !withPair_get by (rewrite ?withPair_len; lia);
      by destruct ((x =? i) || (x =? j)).
  - intros j' Hj'. assert (j' = j) by congruence. subst j'.
    rewrite (setPeriodic_withPair j i), (setPeriodic_withPair i j) by done.
    fold v. f_equal; [f_equal|f_equal]; apply flags_ext;
      rewrite ?withPair_len; try done;
      intros x Hx; rewrite !withPair_get by (rewrite ?withPair_len; lia);
      by destruct (x =? i), (x =? j).
  - rewrite (Htwice i j k l), (Htwice k l i j) by done.
    f_equal; [f_equal|f_equal]; apply flags_ext;
      rewrite ?withPair_len; try done;
      intros x Hx; rewrite !withPair_get by (rewrite ?withPair_len; lia);
      by destruct (x =? i), (x =? j), (x =? k), (x =? l).
  - intros a Ha. subst v. rewrite (getPeriodic_setPeriodic E i j) by (done || lia).
    rewrite Ha. by destruct ((a =? i) || (a =? j)).
Qed.

End PeriodicAlgebra.

(** A two-dimensional tree, the faces 2 and 0. *)
Lemma setPeriodic_composes_witness :
  let s := Example.fresh 2 in
  ParaTree.setPeriodic Example.env 2 (ParaTree.setPeriodic Example.env 2 s) =
  ParaTree.setPeriodic Example.env 2 s /\
  (forall j, Mach.at_ (TreeConstants.oppositeFace (ParaTree.constants Example.env s)) 2 = Some j ->
             ParaTree.setPeriodic Example.env j s = ParaTree.setPeriodic Example.env 2 s) /\
  ParaTree.setPeriodic Example.env 0 (ParaTree.setPeriodic Example.env 2 s) =
  ParaTree.setPeriodic Example.env 2 (ParaTree.setPeriodic Example.env 0 s) /\
  (forall a, ParaTree.getPeriodic a s = true ->
             ParaTree.getPeriodic a (ParaTree.setPeriodic Example.env 2 s) = true).
Proof.
  cbv zeta. apply (setPeriodic_composes Example.env (Example.fresh 2) 2 0).
  - split; [vm_compute; discriminate|]. split; [reflexivity|].
    intros i j Hij. pose proof (at_Some_bounds _ _ _ Hij) as Hb.
    change (Mach.len _) with 4 in Hb.
    assert (Hi : i = 0 \/ i = 1 \/ i = 2 \/ i = 3) by lia.
    destruct Hi as [ -> | [ -> | [ -> | -> ] ] ]; vm_compute in Hij; injection Hij as <-;
      (split; [change (TreeConstants.nFaces _) with 4; lia|reflexivity]).
  - reflexivity.
  - vm_compute. split; [discriminate|reflexivity].
  - vm_compute. split; [discriminate|reflexivity].
Defined.

(** ** Snapshots that [restore] refuses *)

Section ForeignSnapshot.

Import Eff ParaTree.
Local Open Scope eff_scope.
Variable E : Env.

(** X19.  [restore] refuses the snapshot of a tree with another number
    of processes, and a stream that opens with another version, before
    it touches the tree: the snapshot written by [dump] on a tree of [P]
    processes raises "The restart was saved with a different number of
    processes." on a tree of [P' <> P] processes, and a stream whose
    first field is not the version of [dump] raises "The version of the
    file does not match the required version"; the tree is as it was. *)
Theorem restore_refuses_foreign_snapshot (s s0 : t) (full : bool)
    (version : Z) (rest : list Byte.byte) :
  - 2 ^ 31 <= m_nproc s < 2 ^ 31 -> m_nproc s <> m_nproc s0 ->
  - 2 ^ 31 <= version < 2 ^ 31 -> version <> getDumpVersion ->
  restore E (dump E full s) s0 = Throw (runtime_error MSG_NPROCS) s0 /\
  restore E (write_i32 version ++ rest) s0 = Throw (runtime_error MSG_VERSION) s0.
Proof.
  intros HP Hne Hv Hvne. split.
  - unfold restore, restoreReader, dump. cbv zeta.
    rewrite (bind_Ok _ _ _ _ _ (read_i32_header getDumpVersion _ s0
                                  ltac:(unfold getDumpVersion; lia))).
    rewrite Z.eqb_refl. cbn [negb].
    rewrite (bind_Ok _ _ _ _ _ (read_i32_header (getNproc s) _ s0 HP)).
    rewrite (bind_Ok tree _ (_, s0) s0 (_, s0) eq_refl).
    unfold getNproc. destruct (Z.eqb_spec (m_nproc s) (m_nproc s0)); [done|].
    reflexivity.
  - unfold restore, restoreReader.
    rewrite (bind_Ok _ _ _ _ _ (read_i32_header version rest s0 Hv)).
    destruct (Z.eqb_spec version getDumpVersion); [done|]. reflexivity.
Qed.

End ForeignSnapshot.

(** The snapshot of a tree on two processes, and a stream of version 2,
    given to a tree on one process. *)
Lemma restore_refuses_foreign_snapshot_witness :
  ParaTree.restore Example.env
    (ParaTree.dump Example.env false (ParaTree.set_m_nproc 2 (Example.fresh 2)))
    (Example.fresh 2) =
  Eff.Throw (Eff.runtime_error ParaTree.MSG_NPROCS) (Example.fresh 2) /\
  ParaTree.restore Example.env (ParaTree.write_i32 2 ++ []) (Example.fresh 2) =
  Eff.Throw (Eff.runtime_error ParaTree.MSG_VERSION) (Example.fresh 2).
Proof.
  apply (restore_refuses_foreign_snapshot Example.env
           (ParaTree.set_m_nproc 2 (Example.fresh 2)) (Example.fresh 2) false 2 []).
  - vm_compute. split; [discriminate|reflexivity].
  - vm_compute. discriminate.
  - lia.
  - vm_compute. discriminate.
Defined.

(** ** The ranges exchanged by a load balance *)

Section PartitionOffsets.

Import ParaTree.

(** The number of octants that a partition schema gives the ranks below
    [k]. *)
Definition prefix (P : list Z) (k : Z) : Z :=
  Mach.sumZ (map (Mach.get0 P) (Mach.iota (Z.to_nat k))).

(** The counts of the ranks below [nproc] are 32-bit numbers. *)
Definition counts32 (nproc : Z) (P : list Z) : Prop :=
  forall i, 0 <= i < nproc -> 0 <= Mach.get0 P i < 2 ^ 32.

Lemma prefix_0 P : prefix P 0 = 0.
Proof. reflexivity. Qed.

Lemma prefix_S P k : 0 <= k -> prefix P (k + 1) = prefix P k + Mach.get0 P k.
Proof.
  intros Hk. unfold prefix. replace (Z.to_nat (k + 1)) with (S (Z.to_nat k)) by lia.
  rewrite iota_S, map_app, sumZ_app. unfold Mach.sumZ at 2. simpl.
  rewrite Z2Nat.id by lia. lia.
Qed.

Lemma prefix_bounds nproc P (k : nat) :
  counts32 nproc P -> Z.of_nat k <= nproc ->
  0 <= prefix P (Z.of_nat k) <= Z.of_nat k * (2 ^ 32 - 1).
Proof.
  intros HP. induction k as [|k IH]; intros Hk; [rewrite prefix_0; lia|].
  replace (Z.of_nat (S k)) with (Z.of_nat k + 1) by lia.
  rewrite prefix_S by lia. specialize (IH ltac:(lia)).
  specialize (HP (Z.of_nat k) ltac:(lia)). lia.
Qed.

Lemma prefix_mono nproc P i j :
  counts32 nproc P -> 0 <= i -> i <= j -> j <= nproc -> prefix P i <= prefix P j.
Proof.
  intros HP Hi Hij Hj. replace j with (i + Z.of_nat (Z.to_nat (j - i))) in * by lia.
  induction (Z.to_nat (j - i)) as [|n IH]; [rewrite Z.add_0_r; lia|].
  replace (i + Z.of_nat (S n)) with (i + Z.of_nat n + 1) in * by lia.
  rewrite prefix_S by lia. specialize (IH ltac:(lia) ltac:(lia)).
  specialize (HP (i + Z.of_nat n) ltac:(lia)). lia.
Qed.

Lemma offsetsFrom_length acc l : length (offsetsFrom acc l) = S (length l).
Proof. revert acc. induction l as [|c r IH]; intros acc; simpl; [done|]. by rewrite IH. Qed.

Lemma offsetsFrom_lookup l acc (i : nat) :
  Forall (fun c => 0 <= c) l -> 0 <= acc -> acc + Mach.sumZ l < 2 ^ 64 ->
  (i <= length l)%nat ->
  offsetsFrom acc l !! i = Some (acc + Mach.sumZ (take i l)).
Proof.
  revert acc i. induction l as [|c r IH]; intros acc i Hnn Hacc Hfit Hi.
  - simpl in Hi. assert (i = 0%nat) by lia. subst i. simpl. f_equal.
    unfold Mach.sumZ. simpl. lia.
  - destruct i as [|i].
    + simpl. f_equal. unfold Mach.sumZ. simpl. lia.
    + inversion Hnn as [|? ? Hc Hr]; subst.
      assert (Hsum : Mach.sumZ (c :: r) = c + Mach.sumZ r) by reflexivity.
      assert (Hrest : 0 <= Mach.sumZ r).
      { clear -Hr. induction Hr; unfold Mach.sumZ in *; simpl; lia. }
      cbn [offsetsFrom lookup list_lookup]. simpl in Hi.
      rewrite u64_small by (unfold Mach.UINT64_MAX; lia).
      rewrite IH by (done || lia). f_equal.
      change (take (S i) (c :: r)) with (c :: take i r).
      change (Mach.sumZ (c :: take i r)) with (c + Mach.sumZ (take i r)). lia.
Qed.

Lemma take_map_iota (f : Z -> Z) (k n : nat) :
  (k <= n)%nat -> take k (map f (Mach.iota n)) = map f (Mach.iota k).
Proof.
  intros Hk. unfold Mach.iota.
  change (map f (map Z.of_nat (seq 0 n))) with (f <$> (Z.of_nat <$> seq 0 n)).
  rewrite <- !fmap_take, take_seq. by rewrite Nat.min_l by lia.
Qed.

Lemma partitionOffsets_len nproc P :
  0 <= nproc -> Mach.len (partitionOffsets nproc P) = nproc + 1.
Proof.
  intros Hn. unfold Mach.len, partitionOffsets.
  rewrite offsetsFrom_length, length_map, iota_length. lia.
Qed.

(** Over 32-bit counts and a number of processes that fits an [int], the
    64-bit offsets do not wrap. *)
Lemma partitionOffsets_get nproc P k :
  counts32 nproc P -> 0 <= nproc < 2 ^ 31 -> 0 <= k <= nproc ->
  Mach.get0 (partitionOffsets nproc P) k = prefix P k.
Proof.
  intros HP Hn Hk. unfold Mach.get0, Mach.at_, partitionOffsets.
  destruct (Z.ltb_spec k 0); [lia|].
  pose proof (prefix_bounds nproc P (Z.to_nat nproc) HP ltac:(lia)) as Hb.
  rewrite Z2Nat.id in Hb by lia.
  rewrite offsetsFrom_lookup.
  - simpl. rewrite take_map_iota by lia. unfold prefix. lia.
  - apply List.Forall_forall. intros c (i & <- & Hi)%in_map_iff.
    unfold Mach.iota in Hi. apply in_map_iff in Hi as (j & <- & Hj%in_seq).
    apply HP. lia.
  - lia.
  - fold (prefix P nproc). nia.
  - rewrite length_map, iota_length. lia.
Qed.

Lemma upper_bound_sorted (v : list Z) (val : Z) fuel first len :
  nondecreasing v ->
  0 <= first -> 0 <= len -> first + len <= Mach.len v -> len <= Z.of_nat fuel ->
  (forall i, 0 <= i < first -> Mach.get0 v i <= val) ->
  (forall i, first + len <= i < Mach.len v -> val < Mach.get0 v i) ->
  let r := upper_bound fuel v first len val in
  first <= r <= first + len /\
  (forall i, 0 <= i < r -> Mach.get0 v i <= val) /\
  (forall i, r <= i < Mach.len v -> val < Mach.get0 v i).
Proof.
  intros Hsorted. revert first len.
  induction fuel as [|fuel IH]; intros first len Hf Hl Hfit Hfuel Hlo Hhi; cbv zeta.
  { simpl. assert (len = 0) by lia. subst. split; [lia|]. split; [done|].
    intros i Hi. apply Hhi. lia. }
  simpl. destruct (Z.ltb_spec 0 len) as [Hpos|Hz].
  2:{ assert (len = 0) by lia. subst. split; [lia|]. split; [done|].
      intros i Hi. apply Hhi. lia. }
  rewrite Z.shiftr_div_pow2 by lia. change (2 ^ 1) with 2.
  pose proof (Z.div_mod len 2 ltac:(lia)) as Hdm.
  pose proof (Z.mod_pos_bound len 2 ltac:(lia)) as Hm.
  destruct (Z.ltb_spec val (Mach.get0 v (first + len / 2))) as [Hlt|Hge].
  - destruct (IH first (len / 2)) as (Hr & Hbelow & Habove); try lia; [exact Hlo| |].
    { intros i Hi. destruct (Z_le_dec (first + len) i); [apply Hhi; lia|].
      pose proof (Hsorted (first + len / 2) i ltac:(lia) ltac:(lia) ltac:(lia)). lia. }
    split; [lia|]. by split.
  - destruct (IH (first + len / 2 + 1) (len - len / 2 - 1)) as (Hr & Hbelow & Habove);
      try lia.
    { intros i Hi. destruct (Z_lt_dec i first); [apply Hlo; lia|].
      pose proof (Hsorted i (first + len / 2) ltac:(lia) ltac:(lia) ltac:(lia)). lia. }
    { intros i Hi. apply Hhi. lia. }
    split; [lia|]. by split.
Qed.

End PartitionOffsets.

(** Ranges that follow one another from [b] to [e]: each begins where
    the one before it ends, and none ends before it begins. *)
Fixpoint chained (b : Z) (l : ParaTree.RankRanges) (e : Z) : Prop :=
  match l with
  | [] => b = e
  | p :: l' => fst (snd p) = b /\ b <= snd (snd p) /\ chained (snd (snd p)) l' e
  end.

Section Intersect.

Import ParaTree.

Variable off : list Z.
Variable P : Z.
Variables bA eA : Z.

Hypothesis off_mono :
  forall i j, 0 <= i -> i <= j -> j <= P -> Mach.get0 off i <= Mach.get0 off j.
Hypothesis A_nonempty : bA < eA.
Hypothesis B_covers : eA <= Mach.get0 off P.

(** The entry of the rank [r] of schema B. *)
Definition piece (r : Z) : Z * (Z * Z) :=
  (r, (Z.max bA (Mach.get0 off r), Z.min eA (Mach.get0 off (r + 1)))).

(** The loop visits the rank [k]: the range of [k] begins before the one
    of A ends, and ends after the one of A begins. *)
Definition visits (n : nat) (k : Z) : Prop :=
  0 <= k < P /\ Mach.get0 off k < eA /\ bA < Mach.get0 off (k + 1) /\ P - k <= Z.of_nat n.

Lemma visits_next n k :
  visits (S n) k -> Mach.get0 off (k + 1) < eA -> visits n (k + 1).
Proof.
  intros (Hk & Hlt & Hgt & Hn) Hnext.
  assert (k + 1 < P).
  { destruct (Z_lt_dec (k + 1) P); [done|]. replace (k + 1) with P in Hnext by lia. lia. }
  split; [lia|]. split; [done|]. split; [|lia].
  pose proof (off_mono (k + 1) (k + 1 + 1) ltac:(lia) ltac:(lia) ltac:(lia)). lia.
Qed.

Lemma intersectFrom_step n k :
  intersectFrom (S n) off bA eA k =
  if eA <=? Mach.get0 off (k + 1) then [piece k]
  else piece k :: intersectFrom n off bA eA (k + 1).
Proof. reflexivity. Qed.

Lemma visits_fuel n k : visits n k -> exists m, n = S m.
Proof. intros (Hk & _ & _ & Hn). destruct n; [lia|eauto]. Qed.

Lemma intersectFrom_chain n k :
  visits n k -> chained (Z.max bA (Mach.get0 off k)) (intersectFrom n off bA eA k) eA.
Proof.
  revert k. induction n as [|n IH]; intros k Hv.
  { destruct (visits_fuel _ _ Hv) as [m Hm]. discriminate. }
  pose proof Hv as (Hk & Hlt & Hgt & Hn).
  pose proof (off_mono k (k + 1) ltac:(lia) ltac:(lia) ltac:(lia)) as Hstep.
  rewrite intersectFrom_step.
  destruct (Z.leb_spec eA (Mach.get0 off (k + 1))) as [Hend|Hmore]; cbn.
  - split; [done|]. split; lia.
  - split; [done|]. split; [lia|].
    replace (Z.min eA (Mach.get0 off (k + 1)))
      with (Z.max bA (Mach.get0 off (k + 1))) by lia.
    apply IH. by apply visits_next.
Qed.

Lemma intersectFrom_in n k e :
  visits n k -> In e (intersectFrom n off bA eA k) ->
  k <= fst e < P /\ Mach.get0 off (fst e) < eA /\ e = piece (fst e).
Proof.
  revert k. induction n as [|n IH]; intros k Hv Hin; [done|].
  pose proof Hv as (Hk & Hlt & Hgt & Hn).
  rewrite intersectFrom_step in Hin.
  destruct (Z.leb_spec eA (Mach.get0 off (k + 1))) as [Hend|Hmore].
  - destruct Hin as [<-|[]]. cbn. split; [lia|]. by split.
  - destruct Hin as [<-|Hin]; [cbn; split; [lia|]; by split|].
    destruct (IH (k + 1) (visits_next _ _ Hv Hmore) Hin) as (Hr & Hr' & Heq).
    split; [lia|]. by split.
Qed.

Lemma intersectFrom_complete n k r :
  visits n k -> k <= r < P -> Mach.get0 off r < eA ->
  In (piece r) (intersectFrom n off bA eA k).
Proof.
  revert k. induction n as [|n IH]; intros k Hv Hr Hlt.
  { destruct (visits_fuel _ _ Hv) as [m Hm]. discriminate. }
  pose proof Hv as (Hk & Hklt & Hgt & Hn).
  rewrite intersectFrom_step.
  destruct (Z.eq_dec r k) as [->|Hne].
  { destruct (_ <=? _); by left. }
  destruct (Z.leb_spec eA (Mach.get0 off (k + 1))) as [Hend|Hmore].
  - pose proof (off_mono (k + 1) r ltac:(lia) ltac:(lia) ltac:(lia)). lia.
  - right. apply IH; [by apply visits_next|lia|done].
Qed.

Lemma intersectFrom_ranks n k :
  visits n k ->
  map fst (intersectFrom n off bA eA k) =
  map (fun i => k + i) (Mach.iota (length (intersectFrom n off bA eA k))).
Proof.
  revert k. induction n as [|n IH]; intros k Hv; [done|].
  rewrite intersectFrom_step.
  destruct (Z.leb_spec eA (Mach.get0 off (k + 1))) as [Hend|Hmore].
  - cbn. f_equal. lia.
  - cbn [map length fst piece]. rewrite (IH (k + 1)) by (by apply visits_next).
    unfold Mach.iota. cbn [seq map]. rewrite <- seq_shift, !map_map.
    f_equal; [lia|]. apply map_ext. intros a. lia.
Qed.

End Intersect.

Section ExchangeRanges.

Import ParaTree.

Lemma get0_map_iota (f : Z -> Z) n i :
  0 <= i < Z.of_nat n -> Mach.get0 (map f (Mach.iota n)) i = f i.
Proof.
  intros Hi. unfold Mach.get0, Mach.at_. destruct (Z.ltb_spec i 0); [lia|].
  change (map f (Mach.iota n)) with (f <$> Mach.iota n).
  rewrite list_lookup_fmap, iota_lookup by lia. simpl. f_equal. lia.
Qed.

Lemma get0_set_replicate n rank v i :
  0 <= i < Z.of_nat n ->
  Mach.get0 (Mach.set_ (replicate n 0) rank v) i = if i =? rank then v else 0.
Proof.
  intros Hi. unfold Mach.get0. destruct (Z.eqb_spec i rank) as [->|Hne].
  - rewrite at_set_eq; [done|]. unfold Mach.len. rewrite length_replicate. lia.
  - rewrite at_set_ne by lia. unfold Mach.at_. destruct (Z.ltb_spec i 0); [lia|].
    by rewrite lookup_replicate_2 by lia.
Qed.

(** The current partition schema holds 32-bit counts, whatever the
    registry holds. *)
Lemma currentPartition_counts32 s : counts32 (m_nproc s) (currentPartition s).
Proof.
  intros i Hi. unfold currentPartition. destruct (m_serial s); cbn [negb].
  - rewrite get0_set_replicate by lia. destruct (i =? m_rank s); [|lia].
    unfold getNumOctants, LocalTree.getNumOctants, Mach.u32, Mach.wrap.
    apply Z.mod_pos_bound. lia.
  - rewrite get0_map_iota by lia.
    destruct (i =? 0); unfold Mach.u32, Mach.wrap; apply Z.mod_pos_bound; lia.
Qed.

Lemma offsetOf_prefix nproc P rank :
  counts32 nproc P -> 0 <= rank <= nproc -> nproc < 2 ^ 31 -> offsetOf P rank = prefix P rank.
Proof.
  intros HP Hr Hn. unfold offsetOf. fold (prefix P rank).
  pose proof (prefix_bounds nproc P (Z.to_nat rank) HP ltac:(lia)) as Hb.
  rewrite Z2Nat.id in Hb by lia. apply u64_small. unfold Mach.UINT64_MAX. nia.
Qed.

(** What [evalPartitionIntersections] runs on a partition of schema A
    that is not empty: the loop starts on the last rank of schema B whose
    range begins at or before the one of A. *)
Lemma intersections_run (A B : list Z) (s : t) :
  1 <= m_nproc s < 2 ^ 31 -> 0 <= m_rank s < m_nproc s ->
  counts32 (m_nproc s) A -> counts32 (m_nproc s) B ->
  Mach.get0 A (m_rank s) <> 0 ->
  prefix A (m_rank s + 1) <= prefix B (m_nproc s) ->
  let offB := partitionOffsets (m_nproc s) B in
  let bA := prefix A (m_rank s) in
  let eA := prefix A (m_rank s + 1) in
  (forall r, 0 <= r <= m_nproc s -> Mach.get0 offB r = prefix B r) /\
  (forall i j, 0 <= i -> i <= j -> j <= m_nproc s -> Mach.get0 offB i <= Mach.get0 offB j) /\
  0 <= bA /\ bA < eA /\ eA <= Mach.get0 offB (m_nproc s) /\ eA - bA < 2 ^ 32 /\
  exists n k,
    evalPartitionIntersections A (m_rank s) B s = intersectFrom n offB bA eA k /\
    visits offB (m_nproc s) bA eA n k /\
    Mach.get0 offB k <= bA.
Proof.
  intros HP Hrank HA HB Hne Hcover offB bA eA.
  assert (HoffB : forall r, 0 <= r <= m_nproc s -> Mach.get0 offB r = prefix B r).
  { intros r Hr. apply partitionOffsets_get; (done || lia). }
  assert (Hmono : forall i j, 0 <= i -> i <= j -> j <= m_nproc s ->
                              Mach.get0 offB i <= Mach.get0 offB j).
  { intros i j Hi Hij Hj. rewrite !HoffB by lia. by apply (prefix_mono (m_nproc s)). }
  assert (HbA : 0 <= bA).
  { pose proof (prefix_bounds (m_nproc s) A (Z.to_nat (m_rank s)) HA ltac:(lia)) as Hb.
    rewrite Z2Nat.id in Hb by lia. subst bA. lia. }
  assert (HeA : eA = bA + Mach.get0 A (m_rank s)).
  { subst eA bA. apply prefix_S. lia. }
  pose proof (HA (m_rank s) Hrank) as Hcount.
  split; [exact HoffB|]. split; [exact Hmono|]. split; [exact HbA|].
  split; [lia|]. split; [rewrite HoffB by lia; exact Hcover|]. split; [lia|].
  unfold evalPartitionIntersections. destruct (Z.eqb_spec (Mach.get0 A (m_rank s)) 0); [done|].
  cbv zeta.
  rewrite !(partitionOffsets_get (m_nproc s) A) by (done || lia).
  fold offB bA eA.
  assert (Hlen : Mach.len offB = m_nproc s + 1) by (apply partitionOffsets_len; lia).
  assert (Hsorted : nondecreasing offB).
  { intros i j Hi Hij Hj. apply Hmono; lia. }
  assert (H1 : forall i, 0 <= i < 0 -> Mach.get0 offB i <= bA) by (intros; lia).
  assert (H2 : forall i, 0 + Mach.len offB <= i < Mach.len offB -> bA < Mach.get0 offB i)
    by (intros; lia).
  destruct (upper_bound_sorted offB bA (length offB) 0 (Mach.len offB) Hsorted
              ltac:(lia) ltac:(lia) ltac:(lia) ltac:(unfold Mach.len; lia) H1 H2)
    as (Hub & Hbelow & Habove).
  set (ub := upper_bound (length offB) offB 0 (Mach.len offB) bA) in *.
  assert (Hub1 : 1 <= ub).
  { destruct (Z_le_dec 1 ub); [done|].
    specialize (Habove 0 ltac:(lia)). rewrite HoffB, prefix_0 in Habove by lia. lia. }
  assert (Hub2 : ub <= m_nproc s).
  { destruct (Z_le_dec ub (m_nproc s)); [done|].
    specialize (Hbelow (m_nproc s) ltac:(lia)). rewrite HoffB in Hbelow by lia. lia. }
  exists (Z.to_nat (Mach.len offB - (ub - 1))), (ub - 1).
  split; [reflexivity|]. split.
  - split; [lia|]. split; [specialize (Hbelow (ub - 1) ltac:(lia)); lia|].
    split; [|lia]. replace (ub - 1 + 1) with ub by lia. apply Habove. lia.
  - apply Hbelow. lia.
Qed.

(** X20.  [evalPartitionIntersections], for 32-bit counts over a number
    of processes that fits an [int], when schema B holds the octants up
    to the end of the partition of the process in schema A.  An empty
    partition has no intersection.  Otherwise the entries are the
    intersections of the partition with the ranges of consecutive ranks
    of schema B, each in global indices, the ranks increasing by one;
    they follow one another from the beginning of the partition to its
    end, so that every octant of the partition falls in exactly one of
    them; and every rank of schema B whose range shares an octant with
    the partition has its entry. *)
Theorem evalPartitionIntersections_tiles (A B : list Z) (s : t) :
  1 <= m_nproc s < 2 ^ 31 -> 0 <= m_rank s < m_nproc s ->
  counts32 (m_nproc s) A -> counts32 (m_nproc s) B ->
  prefix A (m_rank s + 1) <= prefix B (m_nproc s) ->
  let I := evalPartitionIntersections A (m_rank s) B s in
  let bA := prefix A (m_rank s) in
  let eA := prefix A (m_rank s + 1) in
  (Mach.get0 A (m_rank s) = 0 -> I = []) /\
  (Mach.get0 A (m_rank s) <> 0 ->
   chained bA I eA /\
   (exists r0, map fst I = map (fun i => r0 + i) (Mach.iota (length I))) /\
   (forall r x y, In (r, (x, y)) I ->
      0 <= r < m_nproc s /\
      x = Z.max bA (prefix B r) /\ y = Z.min eA (prefix B (r + 1))) /\
   (forall r, 0 <= r < m_nproc s ->
      Z.max bA (prefix B r) < Z.min eA (prefix B (r + 1)) ->
      In (r, (Z.max bA (prefix B r), Z.min eA (prefix B (r + 1)))) I)).
Proof.
  intros HP Hrank HA HB Hcover I bA eA. split.
  { intros H0. subst I. unfold evalPartitionIntersections. by rewrite H0. }
  intros Hne.
  destruct (intersections_run A B s HP Hrank HA HB Hne Hcover)
    as (HoffB & Hmono & HbA & Hlt & Hcov & _ & n & k & Hrun & Hv & Hfirst).
  fold bA eA in HoffB, Hmono, HbA, Hlt, Hcov, Hrun, Hv, Hfirst.
  set (offB := partitionOffsets (m_nproc s) B) in *.
  subst I. rewrite Hrun.
  split; [|split; [|split]].
  - pose proof (intersectFrom_chain offB (m_nproc s) bA eA Hmono Hlt Hcov n k Hv) as Hc.
    by replace (Z.max bA (Mach.get0 offB k)) with bA in Hc by lia.
  - exists k. by apply (intersectFrom_ranks offB (m_nproc s) bA eA Hmono Hcov).
  - intros r x y Hin.
    destruct (intersectFrom_in offB (m_nproc s) bA eA Hmono Hcov n k _ Hv Hin)
      as (Hr & _ & Heq).
    cbn [fst] in Hr, Heq. destruct Hv as (Hk & _).
    unfold piece in Heq. injection Heq as -> ->.
    rewrite !HoffB by lia. split; [lia|]. by split.
  - intros r Hr Hover.
    pose proof (intersectFrom_complete offB (m_nproc s) bA eA Hmono Hcov n k r Hv) as Hin.
    unfold piece in Hin. rewrite !HoffB in Hin by lia. apply Hin; [|lia].
    split; [|lia]. destruct (Z_le_dec k r); [done|].
    destruct Hv as (Hk & _).
    pose proof (Hmono (r + 1) k ltac:(lia) ltac:(lia) ltac:(lia)) as Hm.
    rewrite (HoffB (r + 1)) in Hm by lia. lia.
Qed.

End ExchangeRanges.

Section LocalRanges.

Import ParaTree.

(** A range of global indices in the local indices of a partition that
    begins at the global index [d]. *)
Definition toLocal (d : Z) (e : Z * (Z * Z)) : Z * (Z * Z) :=
  (fst e, (fst (snd e) - d, snd (snd e) - d)).

Lemma chained_bounds b l e :
  chained b l e ->
  b <= e /\ Forall (fun p => b <= fst (snd p) /\ snd (snd p) <= e) l.
Proof.
  revert b. induction l as [|p l IH]; intros b H; simpl in H.
  - subst. split; [lia|constructor].
  - destruct H as (Hx & Hy & Hrest). destruct (IH _ Hrest) as [Hle Hall].
    split; [lia|]. constructor; [lia|].
    eapply Forall_impl; [exact Hall|]. simpl. intros; lia.
Qed.

Lemma chained_toLocal d b l e :
  chained b l e -> chained (b - d) (map (toLocal d) l) (e - d).
Proof.
  revert b. induction l as [|p l IH]; intros b H; simpl in *; [lia|].
  destruct H as (Hx & Hy & Hrest). split; [lia|]. split; [lia|]. by apply IH.
Qed.

Lemma exchangeRanges_toLocal bA eA rank I :
  Forall (fun p => bA <= fst (snd p) /\ snd (snd p) <= eA) I ->
  Forall (fun p => fst (snd p) <= snd (snd p)) I ->
  eA - bA < 2 ^ 32 ->
  exchangeRanges bA rank I =
  List.filter (fun e => negb (fst e =? rank)) (map (toLocal bA) I).
Proof.
  intros Hb Ho Hfit. unfold exchangeRanges.
  induction I as [|p I IH]; [done|].
  inversion Hb as [|? ? Hp Hrest]; subst. inversion Ho as [|? ? Hp' Hrest']; subst.
  cbn [map List.filter toLocal fst]. destruct (negb (fst p =? rank)); cbn [map].
  - rewrite IH by done. f_equal. unfold toLocal. f_equal.
    rewrite !u32_small by (unfold Mach.UINT32_MAX; lia). reflexivity.
  - by apply IH.
Qed.

Lemma chained_ordered b l e :
  chained b l e -> Forall (fun p => fst (snd p) <= snd (snd p)) l.
Proof.
  revert b. induction l as [|p l IH]; intros b H; simpl in H; [constructor|].
  destruct H as (Hx & Hy & Hrest). constructor; [lia|]. by eapply IH.
Qed.

Lemma NoDup_ranks r0 n : NoDup (map (fun i => r0 + i) (Mach.iota n)).
Proof.
  unfold Mach.iota. rewrite map_map. apply NoDup_fmap_2_strong; [|apply NoDup_seq].
  intros a b _ _ H. lia.
Qed.

(** The ranges exchanged for a partition of schema A against schema B,
    in local indices: the ranges of the other ranks among consecutive
    ranges that split the partition. *)
Lemma exchange_split (A B : list Z) (s : t) :
  1 <= m_nproc s < 2 ^ 31 -> 0 <= m_rank s < m_nproc s ->
  counts32 (m_nproc s) A -> counts32 (m_nproc s) B ->
  prefix A (m_rank s + 1) <= prefix B (m_nproc s) ->
  exists pieces : RankRanges,
    chained 0 pieces (Mach.get0 A (m_rank s)) /\
    NoDup (map fst pieces) /\
    exchangeRanges (offsetOf A (m_rank s)) (m_rank s)
      (evalPartitionIntersections A (m_rank s) B s) =
    List.filter (fun e => negb (fst e =? m_rank s)) pieces.
Proof.
  intros HP Hrank HA HB Hcover.
  destruct (Z.eq_dec (Mach.get0 A (m_rank s)) 0) as [H0|Hne].
  { exists []. rewrite H0. split; [reflexivity|]. split; [constructor|].
    unfold evalPartitionIntersections. by rewrite H0. }
  destruct (intersections_run A B s HP Hrank HA HB Hne Hcover)
    as (HoffB & Hmono & HbA & Hlt & Hcov & Hfit & n & k & Hrun & Hv & Hfirst).
  set (offB := partitionOffsets (m_nproc s) B) in *.
  set (bA := prefix A (m_rank s)) in *. set (eA := prefix A (m_rank s + 1)) in *.
  pose proof (intersectFrom_chain offB (m_nproc s) bA eA Hmono Hlt Hcov n k Hv) as Hc.
  replace (Z.max bA (Mach.get0 offB k)) with bA in Hc by lia.
  rewrite <- Hrun in Hc.
  exists (map (toLocal bA) (evalPartitionIntersections A (m_rank s) B s)).
  split; [|split].
  - apply (chained_toLocal bA) in Hc. rewrite Z.sub_diag in Hc.
    replace (Mach.get0 A (m_rank s)) with (eA - bA); [done|].
    subst eA bA. rewrite prefix_S by lia. lia.
  - rewrite map_map. cbn [toLocal fst].
    change (map (fun x => fst x) ?l) with (map fst l).
    rewrite Hrun, (intersectFrom_ranks offB (m_nproc s) bA eA Hmono Hcov n k Hv).
    apply NoDup_ranks.
  - rewrite (offsetOf_prefix (m_nproc s)) by (done || lia). fold bA.
    destruct (chained_bounds _ _ _ Hc) as [_ Hb].
    apply (exchangeRanges_toLocal bA eA); [done|by eapply chained_ordered|done].
Qed.

(** The entry of a rank in the ranges exchanged, when it is not empty. *)
Lemma exchange_entry (A B : list Z) (s : t) (r x y : Z) :
  1 <= m_nproc s < 2 ^ 31 -> 0 <= m_rank s < m_nproc s ->
  counts32 (m_nproc s) A -> counts32 (m_nproc s) B ->
  prefix A (m_rank s + 1) <= prefix B (m_nproc s) ->
  r <> m_rank s -> x < y ->
  In (r, (x, y))
     (exchangeRanges (offsetOf A (m_rank s)) (m_rank s)
        (evalPartitionIntersections A (m_rank s) B s)) <->
  0 <= r < m_nproc s /\
  x + prefix A (m_rank s) = Z.max (prefix A (m_rank s)) (prefix B r) /\
  y + prefix A (m_rank s) = Z.min (prefix A (m_rank s + 1)) (prefix B (r + 1)).
Proof.
  intros HP Hrank HA HB Hcover Hr Hxy.
  rewrite (offsetOf_prefix (m_nproc s)) by (done || lia).
  set (bA := prefix A (m_rank s)). set (eA := prefix A (m_rank s + 1)).
  assert (HeA : eA = bA + Mach.get0 A (m_rank s)).
  { subst eA bA. apply prefix_S. lia. }
  pose proof (HA (m_rank s) Hrank) as Hcount.
  destruct (Z.eq_dec (Mach.get0 A (m_rank s)) 0) as [H0|Hne].
  { unfold evalPartitionIntersections. rewrite H0. cbn. split; [done|]. lia. }
  destruct (intersections_run A B s HP Hrank HA HB Hne Hcover)
    as (HoffB & Hmono & HbA & Hlt & Hcov & Hfit & n & k & Hrun & Hv & Hfirst).
  fold bA eA in HoffB, Hmono, HbA, Hlt, Hcov, Hfit, Hrun, Hv, Hfirst.
  set (offB := partitionOffsets (m_nproc s) B) in *.
  rewrite Hrun. unfold exchangeRanges. rewrite in_map_iff. split.
  - intros ([r' [gx gy]] & Heq & Hin). cbn [fst snd] in Heq.
    apply filter_In in Hin as [Hin _].
    destruct (intersectFrom_in offB (m_nproc s) bA eA Hmono Hcov n k _ Hv Hin)
      as (Hr' & Hlt' & Hpiece).
    cbn [fst] in Hr', Hlt', Hpiece. destruct Hv as (Hk & Hklt & Hkgt & Hn).
    unfold piece in Hpiece. injection Hpiece as Hgx Hgy.
    pose proof (Hmono (k + 1) (r' + 1) ltac:(lia) ltac:(lia) ltac:(lia)) as Hm1.
    pose proof (Hmono r' (r' + 1) ltac:(lia) ltac:(lia) ltac:(lia)) as Hm2.
    rewrite !u32_small in Heq by (unfold Mach.UINT32_MAX; lia).
    rewrite !HoffB in Hgx, Hgy by lia.
    injection Heq as -> <- <-. split; [lia|]. lia.
  - intros (Hrr & Hx & Hy).
    exists (piece offB bA eA r). unfold piece. cbn [fst snd].
    rewrite !HoffB by lia.
    split.
    + rewrite !u32_small by (unfold Mach.UINT32_MAX; lia). do 2 f_equal; lia.
    + apply filter_In. split.
      * pose proof (intersectFrom_complete offB (m_nproc s) bA eA Hmono Hcov n k r Hv) as Hin.
        unfold piece in Hin. rewrite !HoffB in Hin by lia. apply Hin; [|lia].
        split; [|lia]. destruct (Z_le_dec k r); [done|].
        destruct Hv as (Hk & _).
        pose proof (Hmono (r + 1) k ltac:(lia) ltac:(lia) ltac:(lia)) as Hm.
        rewrite (HoffB (r + 1)) in Hm by lia. lia.
      * cbn [fst]. apply negb_true_iff. by apply Z.eqb_neq.
Qed.

Lemma currentPartition_same sp sq :
  m_serial sp = false -> m_serial sq = false ->
  m_nproc sq = m_nproc sp ->
  m_partitionRangeGlobalIdx sq = m_partitionRangeGlobalIdx sp ->
  currentPartition sq = currentPartition sp.
Proof. intros H1 H2 H3 H4. unfold currentPartition. by rewrite H1, H2, H3, H4. Qed.

(** X21.  [evalLoadBalanceRanges] on two processes or more, for an
    updated partition of 32-bit counts that holds as many octants as the
    current one.  The actions are delete and none on a serial tree, send
    and receive on a partitioned one.  The send ranges are the ranges of
    the other ranks among consecutive ranges, of distinct ranks, that
    split the local indices from 0 to the current count of the process:
    every local octant is kept or goes to exactly one rank.  The receive
    ranges are so for the indices from 0 to the updated count. *)
Theorem evalLoadBalanceRanges_split (U : list Z) (s : t) :
  2 <= m_nproc s < 2 ^ 31 -> 0 <= m_rank s < m_nproc s ->
  counts32 (m_nproc s) U ->
  prefix (currentPartition s) (m_nproc s) = prefix U (m_nproc s) ->
  let r := evalLoadBalanceRanges U s in
  sendAction r = (if m_serial s then ACTION_DELETE else ACTION_SEND) /\
  recvAction r = (if m_serial s then ACTION_NONE else ACTION_RECEIVE) /\
  exists out inc : RankRanges,
    chained 0 out (Mach.get0 (currentPartition s) (m_rank s)) /\
    NoDup (map fst out) /\
    sendRanges r = List.filter (fun e => negb (fst e =? m_rank s)) out /\
    chained 0 inc (Mach.get0 U (m_rank s)) /\
    NoDup (map fst inc) /\
    recvRanges r = List.filter (fun e => negb (fst e =? m_rank s)) inc.
Proof.
  intros HP Hrank HU Htotal r.
  pose proof (currentPartition_counts32 s) as HC.
  assert (H1 : prefix (currentPartition s) (m_rank s + 1) <= prefix U (m_nproc s)).
  { rewrite <- Htotal. apply (prefix_mono (m_nproc s)); (done || lia). }
  assert (H2 : prefix U (m_rank s + 1) <= prefix (currentPartition s) (m_nproc s)).
  { rewrite Htotal. apply (prefix_mono (m_nproc s)); (done || lia). }
  destruct (exchange_split (currentPartition s) U s ltac:(lia) Hrank HC HU H1)
    as (out & Hout & Hdout & Hsend).
  destruct (exchange_split U (currentPartition s) s ltac:(lia) Hrank HU HC H2)
    as (inc & Hinc & Hdinc & Hrecv).
  assert (Hr : r = if m_serial s
                   then mkLoadBalanceRanges ACTION_DELETE ACTION_NONE
                          (evalLoadBalanceSendRanges U s) (evalLoadBalanceRecvRanges U s)
                   else mkLoadBalanceRanges ACTION_SEND ACTION_RECEIVE
                          (evalLoadBalanceSendRanges U s) (evalLoadBalanceRecvRanges U s)).
  { subst r. unfold evalLoadBalanceRanges.
    destruct (Z.eqb_spec (m_nproc s) 1); [lia|]. reflexivity. }
  assert (Hs : sendRanges r = evalLoadBalanceSendRanges U s)
    by (rewrite Hr; by destruct (m_serial s)).
  assert (Hv : recvRanges r = evalLoadBalanceRecvRanges U s)
    by (rewrite Hr; by destruct (m_serial s)).
  split; [rewrite Hr; by destruct (m_serial s)|].
  split; [rewrite Hr; by destruct (m_serial s)|].
  exists out, inc. rewrite Hs, Hv.
  unfold evalLoadBalanceSendRanges, evalLoadBalanceRecvRanges.
  destruct (Z.eqb_spec (m_nproc s) 1); [lia|]. cbv zeta.
  by rewrite Hsend, Hrecv.
Qed.

(** X22.  What one process sends is what the other receives.  On two
    processes with the same registry of a partitioned tree, for an
    updated partition of 32-bit counts that holds as many octants as the
    current one: the send ranges of the first hold a range for the second
    that is not empty exactly when the receive ranges of the second hold
    the range of the same global indices for the first. *)
Theorem send_matches_receive (sp sq : t) (U : list Z) (x y : Z) :
  m_serial sp = false -> m_serial sq = false ->
  m_nproc sq = m_nproc sp ->
  m_partitionRangeGlobalIdx sq = m_partitionRangeGlobalIdx sp ->
  2 <= m_nproc sp < 2 ^ 31 ->
  0 <= m_rank sp < m_nproc sp -> 0 <= m_rank sq < m_nproc sp ->
  m_rank sp <> m_rank sq ->
  counts32 (m_nproc sp) U ->
  prefix (currentPartition sp) (m_nproc sp) = prefix U (m_nproc sp) ->
  x < y ->
  let d := prefix (currentPartition sp) (m_rank sp) - prefix U (m_rank sq) in
  In (m_rank sq, (x, y)) (evalLoadBalanceSendRanges U sp) <->
  In (m_rank sp, (x + d, y + d)) (evalLoadBalanceRecvRanges U sq).
Proof.
  intros Hsp Hsq Hn HR HP Hp Hq Hpq HU Htotal Hxy d.
  pose proof (currentPartition_same sp sq Hsp Hsq Hn HR) as Hcur.
  pose proof (currentPartition_counts32 sp) as HC.
  set (C := currentPartition sp) in *.
  assert (H1 : prefix C (m_rank sp + 1) <= prefix U (m_nproc sp)).
  { rewrite <- Htotal. apply (prefix_mono (m_nproc sp)); (done || lia). }
  assert (H2 : prefix U (m_rank sq + 1) <= prefix C (m_nproc sp)).
  { rewrite Htotal. apply (prefix_mono (m_nproc sp)); (done || lia). }
  unfold evalLoadBalanceSendRanges, evalLoadBalanceRecvRanges.
  rewrite Hn. destruct (Z.eqb_spec (m_nproc sp) 1); [lia|]. cbv zeta.
  rewrite Hcur. fold C.
  rewrite (exchange_entry C U sp) by (done || lia).
  rewrite (exchange_entry U C sq) by (rewrite ?Hn; done || lia).
  rewrite Hn. subst d. split; intros (Hr & Hx & Hy); (split; [lia|]); lia.
Qed.

End LocalRanges.

(** Four processes of a partitioned tree that hold 2, 0, 2 and 2 octants,
    and an updated partition of 1, 2, 1 and 2 octants. *)
Module BalanceExample.

Import ParaTree.

Definition tree (rank : Z) : t :=
  set_m_rank rank (set_m_serial false OwnerExample.registry).

Definition updated : list Z := [1; 2; 1; 2].

Lemma updated_counts32 : counts32 4 updated.
Proof.
  intros i Hi. assert (Hc : i = 0 \/ i = 1 \/ i = 2 \/ i = 3) by lia.
  destruct Hc as [-> | [-> | [-> | ->]]]; vm_compute; split; (discriminate || reflexivity).
Qed.

Lemma current_counts32 : counts32 4 [2; 0; 2; 2].
Proof.
  intros i Hi. assert (Hc : i = 0 \/ i = 1 \/ i = 2 \/ i = 3) by lia.
  destruct Hc as [-> | [-> | [-> | ->]]]; vm_compute; split; (discriminate || reflexivity).
Qed.

End BalanceExample.

(** The third process: its octants, of global indices 2 and 3, fall in
    the updated ranges of the second and the third process. *)
Lemma evalPartitionIntersections_tiles_witness :
  let s := BalanceExample.tree 2 in
  let A := [2; 0; 2; 2] in
  let B := BalanceExample.updated in
  let I := ParaTree.evalPartitionIntersections A (ParaTree.m_rank s) B s in
  let bA := prefix A (ParaTree.m_rank s) in
  let eA := prefix A (ParaTree.m_rank s + 1) in
  (Mach.get0 A (ParaTree.m_rank s) = 0 -> I = []) /\
  (Mach.get0 A (ParaTree.m_rank s) <> 0 ->
   chained bA I eA /\
   (exists r0, map fst I = map (fun i => r0 + i) (Mach.iota (length I))) /\
   (forall r x y, In (r, (x, y)) I ->
      0 <= r < ParaTree.m_nproc s /\
      x = Z.max bA (prefix B r) /\ y = Z.min eA (prefix B (r + 1))) /\
   (forall r, 0 <= r < ParaTree.m_nproc s ->
      Z.max bA (prefix B r) < Z.min eA (prefix B (r + 1)) ->
      In (r, (Z.max bA (prefix B r), Z.min eA (prefix B (r + 1)))) I)).
Proof.
  cbv zeta.
  apply (evalPartitionIntersections_tiles [2; 0; 2; 2] BalanceExample.updated
           (BalanceExample.tree 2)).
  - vm_compute. split; [discriminate|reflexivity].
  - vm_compute. split; [discriminate|reflexivity].
  - exact BalanceExample.current_counts32.
  - exact BalanceExample.updated_counts32.
  - vm_compute. discriminate.
Defined.

Lemma evalLoadBalanceRanges_split_witness :
  let s := BalanceExample.tree 2 in
  let U := BalanceExample.updated in
  let r := ParaTree.evalLoadBalanceRanges U s in
  ParaTree.sendAction r =
    (if ParaTree.m_serial s then ParaTree.ACTION_DELETE else ParaTree.ACTION_SEND) /\
  ParaTree.recvAction r =
    (if ParaTree.m_serial s then ParaTree.ACTION_NONE else ParaTree.ACTION_RECEIVE) /\
  exists out inc : ParaTree.RankRanges,
    chained 0 out (Mach.get0 (ParaTree.currentPartition s) (ParaTree.m_rank s)) /\
    NoDup (map fst out) /\
    ParaTree.sendRanges r =
      List.filter (fun e => negb (fst e =? ParaTree.m_rank s)) out /\
    chained 0 inc (Mach.get0 U (ParaTree.m_rank s)) /\
    NoDup (map fst inc) /\
    ParaTree.recvRanges r =
      List.filter (fun e => negb (fst e =? ParaTree.m_rank s)) inc.
Proof.
  cbv zeta.
  apply (evalLoadBalanceRanges_split BalanceExample.updated (BalanceExample.tree 2)).
  - vm_compute. split; [discriminate|reflexivity].
  - vm_compute. split; [discriminate|reflexivity].
  - exact BalanceExample.updated_counts32.
  - vm_compute. reflexivity.
Defined.

(** The first process sends its second octant to the second process,
    which receives it as its first octant. *)
Lemma send_matches_receive_witness :
  let sp := BalanceExample.tree 0 in
  let sq := BalanceExample.tree 1 in
  let U := BalanceExample.updated in
  let d := prefix (ParaTree.currentPartition sp) (ParaTree.m_rank sp)
           - prefix U (ParaTree.m_rank sq) in
  In (ParaTree.m_rank sq, (1, 2)) (ParaTree.evalLoadBalanceSendRanges U sp) <->
  In (ParaTree.m_rank sp, (1 + d, 2 + d)) (ParaTree.evalLoadBalanceRecvRanges U sq).
Proof.
  cbv zeta.
  apply (send_matches_receive (BalanceExample.tree 0) (BalanceExample.tree 1)
           BalanceExample.updated 1 2).
  - reflexivity.
  - reflexivity.
  - reflexivity.
  - reflexivity.
  - vm_compute. split; [discriminate|reflexivity].
  - vm_compute. split; [discriminate|reflexivity].
  - vm_compute. split; [discriminate|reflexivity].
  - vm_compute. discriminate.
  - exact BalanceExample.updated_counts32.
  - vm_compute. reflexivity.
  - lia.
Defined.

Section UniformRanges.

Import ParaTree.

(** X23.  [evalLoadBalanceRanges] without weights, on two processes or
    more of a tree whose current partition holds the global number of
    octants: the uniform partition meets what the ranges need (counts of
    32 bits that add up to the current total), so the send ranges are
    the ranges of the other ranks among consecutive ranges, of distinct
    ranks, that split the local indices from 0 to the current count, and
    the receive ranges are so for the indices from 0 to the count the
    uniform partition gives the process. *)
Theorem uniform_load_balance_ranges (s : t) :
  2 <= m_nproc s < 2 ^ 31 -> 0 <= m_rank s < m_nproc s ->
  prefix (currentPartition s) (m_nproc s) = m_globalNumOctants s ->
  let r := evalLoadBalanceRangesUniform s in
  prefix (computePartition s) (m_nproc s) = m_globalNumOctants s /\
  exists out inc : RankRanges,
    chained 0 out (Mach.get0 (currentPartition s) (m_rank s)) /\
    NoDup (map fst out) /\
    sendRanges r = List.filter (fun e => negb (fst e =? m_rank s)) out /\
    chained 0 inc (Mach.get0 (computePartition s) (m_rank s)) /\
    NoDup (map fst inc) /\
    recvRanges r = List.filter (fun e => negb (fst e =? m_rank s)) inc.
Proof.
  intros HP Hrank Htotal r.
  pose proof (currentPartition_counts32 s) as HC.
  pose proof (prefix_bounds (m_nproc s) _ (Z.to_nat (m_nproc s)) HC ltac:(lia)) as HN.
  rewrite Z2Nat.id, Htotal in HN by lia.
  assert (HP' : 0 < m_nproc s <= Mach.UINT32_MAX) by (unfold Mach.UINT32_MAX; lia).
  assert (HN' : 0 <= m_globalNumOctants s <= m_nproc s * Mach.UINT32_MAX)
    by (unfold Mach.UINT32_MAX; lia).
  set (U := computePartition s) in *.
  assert (HU : counts32 (m_nproc s) U).
  { intros i Hi. subst U. rewrite computePartition_unfold by done.
    rewrite get0_map_iota by lia.
    destruct (uniform_fits _ _ (proj1 HP') HN') as [Hq Hq1].
    pose proof (Z.mod_pos_bound (m_globalNumOctants s) (m_nproc s) (proj1 HP')) as Hm.
    unfold Mach.UINT32_MAX in *.
    destruct (Z.ltb_spec i (m_globalNumOctants s mod m_nproc s)); [|lia].
    specialize (Hq1 ltac:(lia)). lia. }
  assert (HUtotal : prefix U (m_nproc s) = m_globalNumOctants s).
  { unfold prefix.
    assert (Hlen : Z.to_nat (m_nproc s) = length U).
    { subst U. rewrite computePartition_unfold by done.
      by rewrite length_map, iota_length. }
    rewrite Hlen, map_get0_iota. by apply computePartition_sum. }
  split; [exact HUtotal|].
  assert (H1 : prefix (currentPartition s) (m_rank s + 1) <= prefix U (m_nproc s)).
  { rewrite HUtotal, <- Htotal. apply (prefix_mono (m_nproc s)); (done || lia). }
  assert (H2 : prefix U (m_rank s + 1) <= prefix (currentPartition s) (m_nproc s)).
  { rewrite Htotal, <- HUtotal. apply (prefix_mono (m_nproc s)); (done || lia). }
  destruct (exchange_split (currentPartition s) U s ltac:(lia) Hrank HC HU H1)
    as (out & Hout & Hdout & Hsend).
  destruct (exchange_split U (currentPartition s) s ltac:(lia) Hrank HU HC H2)
    as (inc & Hinc & Hdinc & Hrecv).
  exists out, inc.
  assert (Hs : sendRanges r = evalLoadBalanceSendRanges U s).
  { subst r. unfold evalLoadBalanceRangesUniform, evalLoadBalanceRanges.
    destruct (Z.eqb_spec (m_nproc s) 1); [lia|]. by destruct (m_serial s). }
  assert (Hv : recvRanges r = evalLoadBalanceRecvRanges U s).
  { subst r. unfold evalLoadBalanceRangesUniform, evalLoadBalanceRanges.
    destruct (Z.eqb_spec (m_nproc s) 1); [lia|]. by destruct (m_serial s). }
  rewrite Hs, Hv. unfold evalLoadBalanceSendRanges, evalLoadBalanceRecvRanges.
  destruct (Z.eqb_spec (m_nproc s) 1); [lia|]. cbv zeta.
  by rewrite Hsend, Hrecv.
Qed.

End UniformRanges.

(** The third process of [BalanceExample], whose tree holds six octants
    in all. *)
Lemma uniform_load_balance_ranges_witness :
  let s := ParaTree.set_m_globalNumOctants 6 (BalanceExample.tree 2) in
  let r := ParaTree.evalLoadBalanceRangesUniform s in
  prefix (ParaTree.computePartition s) (ParaTree.m_nproc s) = ParaTree.m_globalNumOctants s /\
  exists out inc : ParaTree.RankRanges,
    chained 0 out (Mach.get0 (ParaTree.currentPartition s) (ParaTree.m_rank s)) /\
    NoDup (map fst out) /\
    ParaTree.sendRanges r =
      List.filter (fun e => negb (fst e =? ParaTree.m_rank s)) out /\
    chained 0 inc (Mach.get0 (ParaTree.computePartition s) (ParaTree.m_rank s)) /\
    NoDup (map fst inc) /\
    ParaTree.recvRanges r =
      List.filter (fun e => negb (fst e =? ParaTree.m_rank s)) inc.
Proof.
  cbv zeta.
  apply (uniform_load_balance_ranges
           (ParaTree.set_m_globalNumOctants 6 (BalanceExample.tree 2))).
  - vm_compute. split; [discriminate|reflexivity].
  - vm_compute. split; [discriminate|reflexivity].
  - vm_compute. reflexivity.
Defined.

(** ** The snapshot read back *)

Section Codec.

Import Eff ParaTree.
Local Open Scope eff_scope.















End Codec.

Section RoundTrip.

Import Eff ParaTree.
Local Open Scope eff_scope.
Variable E : Env.










End RoundTrip.

Section SnapshotRoundTrip.

Import Eff ParaTree.
Local Open Scope eff_scope.
Variable E : Env.











End SnapshotRoundTrip.

Section SnapshotRestored.

Import Eff ParaTree.
Local Open Scope eff_scope.
Variable E : Env.








End SnapshotRestored.

(** A two-dimensional tree on one process: the root octant, marked for
    refinement, with the faces 2 and 3 periodic. *)
Module SnapshotExample.

Import ParaTree.

Definition tree : t :=
  setPeriodic Example.env 2 (on_octree (LocalTree.setMarker 0 1) (Example.fresh 2)).



End SnapshotExample.


(** ** The owner and the local index of a global index *)

Section Decode.

Import ParaTree.

(** X25.  [getLocalIdx(gidx, lidx, rank)] decodes a global index of the
    tree: over a registry that never decreases, where every process
    holds fewer than 2^32 octants, it gives a rank of the registry and a
    local index below the number of octants of that rank, and the
    process of that rank gives the octant of that local index the global
    index again. *)
Theorem getLocalIdx_decodes (s : t) (g : Z) :
  nondecreasing (m_partitionRangeGlobalIdx s) ->
  0 < Mach.len (m_partitionRangeGlobalIdx s) < 2 ^ 31 ->
  (forall i, 0 <= i < Mach.len (m_partitionRangeGlobalIdx s) ->
     Mach.get0 (m_partitionRangeGlobalIdx s) i
     - (if i =? 0 then -1 else Mach.get0 (m_partitionRangeGlobalIdx s) (i - 1))
     < 2 ^ 32) ->
  Mach.get0 (m_partitionRangeGlobalIdx s)
            (Mach.len (m_partitionRangeGlobalIdx s) - 1) < 2 ^ 64 ->
  0 <= g <= Mach.get0 (m_partitionRangeGlobalIdx s)
                      (Mach.len (m_partitionRangeGlobalIdx s) - 1) ->
  let lidx := fst (getLocalIdxRank g s) in
  let rank := snd (getLocalIdxRank g s) in
  0 <= rank < Mach.len (m_partitionRangeGlobalIdx s) /\
  0 <= lidx < Mach.get0 (m_partitionRangeGlobalIdx s) rank
              - (if rank =? 0 then -1
                 else Mach.get0 (m_partitionRangeGlobalIdx s) (rank - 1)) /\
  getGlobalIdx lidx (set_m_rank rank s) = g.
Proof.
  intros Hsorted Hlen Hcount Hlast Hg. cbv zeta.
  unfold getLocalIdxRank. cbv zeta. cbn [fst snd].
  pose proof (getOwnerRank_cases s g Hsorted ltac:(lia)) as Hown. cbv zeta in Hown.
  set (R := m_partitionRangeGlobalIdx s) in *.
  set (p := getOwnerRank g s) in *.
  destruct Hown as [[_ Hall]|(Hp & Hge & Hlo)].
  { specialize (Hall (Mach.len R - 1) ltac:(lia)). lia. }
  split; [exact Hp|].
  pose proof (Hcount p Hp) as Hc.
  pose proof (Hsorted p (Mach.len R - 1) ltac:(lia) ltac:(lia) ltac:(lia)) as Htop.
  unfold getLocalIdx, getGlobalIdx.
  change (m_rank (set_m_rank p s)) with p.
  change (m_partitionRangeGlobalIdx (set_m_rank p s)) with R. fold R.
  destruct (Z.eqb_spec p 0) as [H0|Hn0].
  - assert (Hu : Mach.u32 g = g).
    { unfold Mach.u32, Mach.wrap. apply Z.mod_small. lia. }
    rewrite Hu. split; [lia|reflexivity].
  - specialize (Hlo (p - 1) ltac:(lia)).
    set (r := Mach.get0 R (p - 1)) in *.
    assert (Hu : Mach.u32 (Mach.u64 (g - 1 - r)) = g - 1 - r).
    { unfold Mach.u32, Mach.u64, Mach.wrap.
      rewrite (Z.mod_small (g - 1 - r) (2 ^ 64)) by lia.
      apply Z.mod_small. lia. }
    rewrite Hu. split; [lia|].
    unfold Mach.u32, Mach.u64, Mach.wrap.
    rewrite (Z.mod_small (g - 1 - r + 1)) by lia.
    rewrite Z.mod_small by lia. lia.
Qed.

End Decode.

(** Global index 3 over four processes that end at 1, 1, 3 and 5: the
    second octant of rank 2. *)
Lemma getLocalIdx_decodes_witness :
  let s := OwnerExample.registry in
  let lidx := fst (ParaTree.getLocalIdxRank 3 s) in
  let rank := snd (ParaTree.getLocalIdxRank 3 s) in
  0 <= rank < Mach.len (ParaTree.m_partitionRangeGlobalIdx s) /\
  0 <= lidx < Mach.get0 (ParaTree.m_partitionRangeGlobalIdx s) rank
              - (if rank =? 0 then -1
                 else Mach.get0 (ParaTree.m_partitionRangeGlobalIdx s) (rank - 1)) /\
  ParaTree.getGlobalIdx lidx (ParaTree.set_m_rank rank s) = 3.
Proof.
  apply (getLocalIdx_decodes OwnerExample.registry 3).
  - intros i j Hi Hij Hj. change (Mach.len _) with 4 in Hj.
    assert (Hc : (i = 0 \/ i = 1 \/ i = 2 \/ i = 3) /\
                 (j = 0 \/ j = 1 \/ j = 2 \/ j = 3)) by lia.
    destruct Hc as [[-> | [-> | [-> | ->]]] [-> | [-> | [-> | ->]]]];
      vm_compute; try discriminate; lia.
  - vm_compute. split; reflexivity.
  - intros i Hi. change (Mach.len _) with 4 in Hi.
    assert (Hc : i = 0 \/ i = 1 \/ i = 2 \/ i = 3) by lia.
    destruct Hc as [-> | [-> | [-> | ->]]]; vm_compute; reflexivity.
  - vm_compute. reflexivity.
  - vm_compute. split; discriminate.
Defined.

(** ** The size [getLocalMaxSize] returns *)

Section LastSize.

Import ParaTree.

Context {D : Type} (zero : D) (gt : D -> D -> bool) (getSize : Z -> t -> D).

(** X26.  [getLocalMaxSize] returns the size of the last octant of the
    process, and zero on a process without octants, whatever the sizes
    of the other octants are: the largest size the loop finds is not
    what the function returns. *)
Theorem getLocalMaxSize_last (s : t) :
  getLocalMaxSize zero gt getSize s =
  if getNumOctants s =? 0 then zero else getSize (getNumOctants s - 1) s.
Proof.
  unfold getLocalMaxSize. cbv zeta.
  assert (Hn : 0 <= getNumOctants s).
  { unfold getNumOctants, LocalTree.getNumOctants, Mach.u32, Mach.wrap.
    apply Z.mod_pos_bound. lia. }
  remember (Z.to_nat (getNumOctants s)) as n eqn:Hk.
  assert (Hz : getNumOctants s = Z.of_nat n) by lia.
  rewrite Hz. clear Hk Hz Hn.
  destruct n as [|n]; [reflexivity|].
  rewrite iota_S, fold_left_app. cbn [fold_left fst].
  destruct (Z.eqb_spec (Z.of_nat (S n)) 0) as [H0|_]; [lia|].
  f_equal. lia.
Qed.

End LastSize.
